(** * Allie chess: the MCTS node (lib/node.cpp)

    A shallow embedding of [lib/node.cpp]: the centipawn conversion, the
    node record and the tree it lives in, back-propagation, expansion
    ([generatePotentials]), re-rooting and the principal variation.

    Numbers.  The C++ code computes with [float] and [double].  The
    embedding idealises both as exact numbers: the tree code, which only
    adds, multiplies, divides and compares, is written over [Q] and stays
    executable; the centipawn conversion, which needs [tan] and [atan], is
    written over [R].  Rounding error of the machine formats is outside
    the model.

    Pointers.  A [Node*] is an index into a finite map of nodes (the
    heap); [nullptr] is [None].  Loops and recursions that follow parent
    or child pointers take a [fuel] argument and answer [None] when it
    runs out. *)

From Stdlib Require Import ZArith QArith Qround Qabs Qminmax Lqa Lia List.
From Stdlib Require Import Reals Lra Machin Qreals.
From Stdlib Require Import String.
From stdpp Require Import base option list gmap.

(** ** Centipawn conversion (node.cpp, lines 28-38) *)

Module Centipawn.

Local Open Scope R_scope.

(** C++ conversion of a [double] to [int]: truncation towards zero. *)
Definition toInt (d : R) : Z :=
  if Rle_dec 0 d then Int_part d else (- Int_part (- d))%Z.

(** Qt's [qRound(double)]:
    [d >= 0.0 ? int(d + 0.5) : int(d - double(int(d-1)) + 0.5) + int(d-1)]. *)
Definition qRound (d : R) : Z :=
  if Rle_dec 0 d then toInt (d + 0.5)
  else (toInt (d - IZR (toInt (d - 1)) + 0.5) + toInt (d - 1))%Z.

Definition scoreToCP (score : R) : Z :=
  qRound (290.680623072 * tan (1.548090806 * score)).

Definition cpToScore (cp : Z) : R :=
  atan (IZR cp / 290.680623072) / 1.548090806.

(** The largest distance between a score and its round trip through a
    whole number of centipawns: half a centipawn at the steepest point of
    [cpToScore]. *)
Definition halfCentipawn : R := 1 / (2 * 290.680623072 * 1.548090806).

End Centipawn.

(** ** The search tree (node.cpp, lines 40-620) *)

(** The chess rules engine is outside this file.  Its two value types are
    kept abstract. *)
Class Chess : Type := {
  Board : Type;
  Move : Type
}.

Inductive Army : Type := White | Black.

(** Modelled from the spec: the game snapshot of section 6 (class [Game],
    declared outside node.cpp).  Only what node.cpp reads or writes is
    kept: the position, the half-move clock, the last move, the side to
    move, the cached repetition count ([-1] when not yet computed) and the
    two end-of-game marks. *)
Record Game `{Chess} : Type := mkGame {
  position : Board;
  halfMoveClock : Z;
  lastMove : Move;
  activeArmy : Army;
  repetitions : Z;
  isCheckMate : bool;
  isStaleMate : bool
}.
Arguments mkGame {_} _ _ _ _ _ _ _.

Definition setRepetitions `{Chess} (r : Z) (g : Game) : Game :=
  mkGame (position g) (halfMoveClock g) (lastMove g) (activeArmy g) r
         (isCheckMate g) (isStaleMate g).

Definition setCheckMate `{Chess} (b : bool) (g : Game) : Game :=
  mkGame (position g) (halfMoveClock g) (lastMove g) (activeArmy g)
         (repetitions g) b (isStaleMate g).

Definition setStaleMate `{Chess} (b : bool) (g : Game) : Game :=
  mkGame (position g) (halfMoveClock g) (lastMove g) (activeArmy g)
         (repetitions g) (isCheckMate g) b.

(** Result of a tablebase probe ([TB::Probe]). *)
Inductive Probe : Type := NotFound | Win | Loss | Draw.

(** A [Node*]. *)
Definition NodeId : Type := nat.

(** The value the constructor stores in every float field that has not
    been assigned yet ([-2.0f]). *)
Definition unset : Q := -2.

(** Modelled from the spec: a potential move carries the move and its
    prior probability (class [PotentialNode], declared in node.h); the
    prior starts unset. *)
Record PotentialNode `{Chess} : Type := mkPotential {
  move : Move;
  potential_pValue : Q
}.
Arguments mkPotential {_} _ _.

(** [new PotentialNode(move)] *)
Definition newPotentialNode `{Chess} (mv : Move) : PotentialNode :=
  mkPotential mv unset.

(** The members of [Node] as the constructor (lines 40-54) lists them, and
    the two sequences it leaves empty.  The two counters only count up;
    they are taken as unbounded. *)
Record Node `{Chess} : Type := mkNode {
  m_game : Game;
  m_parent : option NodeId;
  m_children : list NodeId;
  m_potentials : list PotentialNode;
  m_visited : N;
  m_virtualLoss : N;
  m_qValue : Q;
  m_rawQValue : Q;
  m_pValue : Q;
  m_policySum : Q;
  m_uCoeff : Q;
  m_scoringOrScored : bool;
  m_isExact : bool;
  m_isTB : bool
}.
Arguments mkNode {_} _ _ _ _ _ _ _ _ _ _ _ _ _ _.

(** The heap: every node the tree owns, by address. *)
Abbreviation Heap := (gmap NodeId Node).

Definition set_game `{Chess} (v : Game) (n : Node) : Node :=
  mkNode v (m_parent n) (m_children n) (m_potentials n) (m_visited n) (m_virtualLoss n) (m_qValue n) (m_rawQValue n) (m_pValue n) (m_policySum n) (m_uCoeff n) (m_scoringOrScored n) (m_isExact n) (m_isTB n).

Definition set_parent `{Chess} (v : option NodeId) (n : Node) : Node :=
  mkNode (m_game n) v (m_children n) (m_potentials n) (m_visited n) (m_virtualLoss n) (m_qValue n) (m_rawQValue n) (m_pValue n) (m_policySum n) (m_uCoeff n) (m_scoringOrScored n) (m_isExact n) (m_isTB n).

Definition set_children `{Chess} (v : list NodeId) (n : Node) : Node :=
  mkNode (m_game n) (m_parent n) v (m_potentials n) (m_visited n) (m_virtualLoss n) (m_qValue n) (m_rawQValue n) (m_pValue n) (m_policySum n) (m_uCoeff n) (m_scoringOrScored n) (m_isExact n) (m_isTB n).

Definition set_potentials `{Chess} (v : list PotentialNode) (n : Node) : Node :=
  mkNode (m_game n) (m_parent n) (m_children n) v (m_visited n) (m_virtualLoss n) (m_qValue n) (m_rawQValue n) (m_pValue n) (m_policySum n) (m_uCoeff n) (m_scoringOrScored n) (m_isExact n) (m_isTB n).

Definition set_visited `{Chess} (v : N) (n : Node) : Node :=
  mkNode (m_game n) (m_parent n) (m_children n) (m_potentials n) v (m_virtualLoss n) (m_qValue n) (m_rawQValue n) (m_pValue n) (m_policySum n) (m_uCoeff n) (m_scoringOrScored n) (m_isExact n) (m_isTB n).

Definition set_virtualLoss `{Chess} (v : N) (n : Node) : Node :=
  mkNode (m_game n) (m_parent n) (m_children n) (m_potentials n) (m_visited n) v (m_qValue n) (m_rawQValue n) (m_pValue n) (m_policySum n) (m_uCoeff n) (m_scoringOrScored n) (m_isExact n) (m_isTB n).

Definition set_qValue `{Chess} (v : Q) (n : Node) : Node :=
  mkNode (m_game n) (m_parent n) (m_children n) (m_potentials n) (m_visited n) (m_virtualLoss n) v (m_rawQValue n) (m_pValue n) (m_policySum n) (m_uCoeff n) (m_scoringOrScored n) (m_isExact n) (m_isTB n).

Definition set_rawQValue `{Chess} (v : Q) (n : Node) : Node :=
  mkNode (m_game n) (m_parent n) (m_children n) (m_potentials n) (m_visited n) (m_virtualLoss n) (m_qValue n) v (m_pValue n) (m_policySum n) (m_uCoeff n) (m_scoringOrScored n) (m_isExact n) (m_isTB n).

Definition set_pValue `{Chess} (v : Q) (n : Node) : Node :=
  mkNode (m_game n) (m_parent n) (m_children n) (m_potentials n) (m_visited n) (m_virtualLoss n) (m_qValue n) (m_rawQValue n) v (m_policySum n) (m_uCoeff n) (m_scoringOrScored n) (m_isExact n) (m_isTB n).

Definition set_policySum `{Chess} (v : Q) (n : Node) : Node :=
  mkNode (m_game n) (m_parent n) (m_children n) (m_potentials n) (m_visited n) (m_virtualLoss n) (m_qValue n) (m_rawQValue n) (m_pValue n) v (m_uCoeff n) (m_scoringOrScored n) (m_isExact n) (m_isTB n).

Definition set_uCoeff `{Chess} (v : Q) (n : Node) : Node :=
  mkNode (m_game n) (m_parent n) (m_children n) (m_potentials n) (m_visited n) (m_virtualLoss n) (m_qValue n) (m_rawQValue n) (m_pValue n) (m_policySum n) v (m_scoringOrScored n) (m_isExact n) (m_isTB n).

Definition set_isExact `{Chess} (v : bool) (n : Node) : Node :=
  mkNode (m_game n) (m_parent n) (m_children n) (m_potentials n) (m_visited n) (m_virtualLoss n) (m_qValue n) (m_rawQValue n) (m_pValue n) (m_policySum n) (m_uCoeff n) (m_scoringOrScored n) v (m_isTB n).

Definition set_isTB `{Chess} (v : bool) (n : Node) : Node :=
  mkNode (m_game n) (m_parent n) (m_children n) (m_potentials n) (m_visited n) (m_virtualLoss n) (m_qValue n) (m_rawQValue n) (m_pValue n) (m_policySum n) (m_uCoeff n) (m_scoringOrScored n) (m_isExact n) v.

(** [Node::Node(Node *parent, const Game &game)] *)
Definition newNode `{Chess} (parent : option NodeId) (game : Game) : Node :=
  mkNode game parent [] [] 0%N 0%N unset unset unset 0 unset false false false.

(** What node.cpp takes from the rest of the engine: the rules of chess
    ([Game]), the tablebase ([TB]), move notation ([Notation]), the search
    settings, and the members of [Node] that node.h defines inline and
    node.cpp only calls. *)
Class Engine `{Chess} : Type := {
  (* Game *)
  isDeadPosition : Game -> bool;
  isChecked : Game -> Army -> bool;
  isSamePosition : Game -> Game -> bool;
  pseudoLegalMoves : Game -> list Move;
  makeMove : Game -> Move -> option Game;
  (* TB::globalInstance()->probe *)
  probe : Game -> Probe;
  (* Notation::moveToString(move, Chess::Computer) *)
  moveToString : Move -> string;
  (* constants *)
  MAX_DEPTH : Z;
  vldMax : Z;
  (* [cpToScore] (lines 34-38) as the float the machine returns;
     [Centipawn.cpToScore] is the real number it rounds, see [roundsTo] *)
  cpToScore : Z -> Q;
  (* Node::uCoeff(), Node::qValueDefault(), sortByScore() *)
  Node_uCoeff : Heap -> NodeId -> Q;
  Node_qValueDefault : Heap -> NodeId -> Q;
  sortByScore : Heap -> list NodeId -> bool -> list NodeId
}.

(** A float [f] stands for the real number [r]: it is [r] up to the
    rounding of the machine format (far below one part in a million for
    the values at hand). *)
Definition roundsTo (f : Q) (r : R) : Prop :=
  (Rabs (Q2R f - r) <= 1 / 1000000)%R.

(** *** Qt helpers *)

(** [qFuzzyCompare(float p1, float p2)]:
    [qAbs(p1 - p2) * 100000.f <= qMin(qAbs(p1), qAbs(p2))]. *)
Definition qFuzzyCompare (p1 p2 : Q) : bool :=
  Qle_bool (Qabs (p1 - p2) * 100000) (Qmin (Qabs p1) (Qabs p2)).

Definition qCeil (v : Q) : Z := Qceiling v.

Definition qMax (a b : Z) : Z := Z.max a b.

(** [a > b] on floats. *)
Definition Qgt_bool (a b : Q) : bool := negb (Qle_bool a b).

(** [int indexOf(const T &value)]: the first position of [value]. *)
Fixpoint indexOf (x : NodeId) (l : list NodeId) : option nat :=
  match l with
  | [] => None
  | y :: l' => if Nat.eqb y x then Some O else S <$> indexOf x l'
  end.

(** An unsigned counter read as a float. *)
Definition toFloat (n : N) : Q := inject_Z (Z.of_N n).

Section Model.
Context `{Engine}.
Local Open Scope Q_scope.

(** *** Inline members of [Node]

    node.h, which defines them, is not part of the sources at hand. *)

(** Modelled from the spec: [Node::isRootNode()]; the root is the node
    whose parent is absent. *)
Definition isRootNode (n : Node) : bool :=
  match m_parent n with None => true | Some _ => false end.

(** Modelled from the spec: [Node::hasChildren()]; the children sequence is
    not empty. *)
Definition hasChildren (n : Node) : bool :=
  match m_children n with [] => false | _ => true end.

(** Modelled from the spec: [Node::hasPotentials()]; the potentials
    sequence is not empty. *)
Definition hasPotentials (n : Node) : bool :=
  match m_potentials n with [] => false | _ => true end.

(** Modelled from the spec: [Node::hasQValue()]; section 3 has
    [hasQValue() <=> visited >= 1]. *)
Definition hasQValue (n : Node) : bool := (0 <? m_visited n)%N.

(** Modelled from the spec: [Node::hasRawQValue()]; the raw value is no
    longer the "unset" sentinel of section 3, the constructor's [-2.0f]. *)
Definition hasRawQValue (n : Node) : bool :=
  negb (qFuzzyCompare (m_rawQValue n) unset).

(** Modelled from the spec: [Node::hasPValue()]; the prior is no longer the
    constructor's [-2.0f]. *)
Definition hasPValue (n : Node) : bool :=
  negb (qFuzzyCompare (m_pValue n) unset).

(** Modelled from the spec: the getters [Node::qValue()] and
    [Node::pValue()]. *)
Definition qValue (n : Node) : Q := m_qValue n.
Definition pValue (n : Node) : Q := m_pValue n.

(** Modelled from the spec: [Node::depth()], the ply depth of a node: the
    number of parent links between it and the root. *)
Fixpoint depthFrom (fuel : nat) (h : Heap) (parent : option NodeId) (d : Z)
  : option Z :=
  match parent with
  | None => Some d
  | Some p =>
      match fuel with
      | O => None
      | S fuel' => n ← h !! p; depthFrom fuel' h (m_parent n) (d + 1)%Z
      end
  end.

Definition depth (fuel : nat) (h : Heap) (this : NodeId) : option Z :=
  n ← h !! this; depthFrom fuel h (m_parent n) 0%Z.

(** Modelled from the spec: [HistoryIterator] (history.h), started at a
    node and advanced once, yields the positions of the node's ancestors,
    nearest first (section 4.6). *)
Fixpoint historyFrom (fuel : nat) (h : Heap) (parent : option NodeId)
  : option (list Game) :=
  match parent with
  | None => Some []
  | Some p =>
      match fuel with
      | O => None
      | S fuel' =>
          n ← h !! p;
          rest ← historyFrom fuel' h (m_parent n);
          Some (m_game n :: rest)
      end
  end.

(** *** Re-rooting (lines 89-114) *)

Fixpoint rootNode (fuel : nat) (h : Heap) (this : NodeId) : option NodeId :=
  n ← h !! this;
  match m_parent n with
  | None => Some this
  | Some p =>
      match fuel with
      | O => None
      | S fuel' => rootNode fuel' h p
      end
  end.

(** [m_children.remove(index)] with [index = -1] is outside the contract of
    [QVector]; the model stops there. *)
Definition setAsRootNode (h : Heap) (this : NodeId) : option Heap :=
  n ← h !! this;
  h1 ← match m_parent n with
       | Some p =>
           pn ← h !! p;
           index ← indexOf this (m_children pn);
           Some (<[p := set_children (delete index (m_children pn)) pn]> h)
       | None => Some h
       end;
  n1 ← h1 !! this;
  Some (<[this := set_parent None n1]> h1).

(** *** Principal variation (lines 116-134)

    The result is the text and the new value of [*depth]. *)
Fixpoint principalVariation (fuel : nat) (h : Heap) (this : NodeId) (depth : Z)
  : option (string * Z) :=
  match fuel with
  | O => None
  | S fuel' =>
      n ← h !! this;
      if negb (isRootNode n) && negb (hasPValue n) then Some (EmptyString, depth)
      else
        let depth := (depth + 1)%Z in
        if negb (hasChildren n) then
          Some (moveToString (lastMove (m_game n)), depth)
        else
          match sortByScore h (m_children n) true with
          | [] => None
          | bestChild :: _ =>
              '(pv, depth') ← principalVariation fuel' h bestChild depth;
              if isRootNode n then Some (pv, depth')
              else Some (String.append (moveToString (lastMove (m_game n)))
                           (String.append " " pv), depth')
          end
  end.

(** *** Repetitions (lines 136-162) *)

Fixpoint countRepetitions (g : Game) (history : list Game) (r : Z) : Z :=
  match history with
  | [] => r
  | it :: rest =>
      let r := if isSamePosition g it then (r + 1)%Z else r in
      if (2 <=? r)%Z then r
      else if (halfMoveClock it =? 0)%Z then r
      else countRepetitions g rest r
  end.

(** [Node::repetitions()]; the count is cached in the node's game. *)
Definition Node_repetitions (fuel : nat) (h : Heap) (this : NodeId)
  : option (Z * Heap) :=
  n ← h !! this;
  if negb (repetitions (m_game n) =? -1)%Z then Some (repetitions (m_game n), h)
  else
    history ← historyFrom fuel h (m_parent n);
    let r := countRepetitions (m_game n) history 0%Z in
    Some (r, <[this := set_game (setRepetitions r (m_game n)) n]> h).

Definition isThreeFold (fuel : nat) (h : Heap) (this : NodeId)
  : option (bool * Heap) :=
  '(r, h') ← Node_repetitions fuel h this;
  Some ((2 <=? r)%Z, h').

(** *** Back-propagation (lines 164-214, 446-451) *)

Definition setQValueFromRaw (n : Node) : Node :=
  set_qValue (m_rawQValue n) n.

Definition setRawQValue (qValue : Q) (n : Node) : Node :=
  set_rawQValue qValue n.

Definition incrementVisited (n : Node) : Node :=
  set_visited (m_visited n + 1)%N (set_virtualLoss 0%N (set_uCoeff unset n)).

Definition backPropagateValue (v : Q) (n : Node) : Node :=
  let currentQValue := m_qValue n in
  incrementVisited
    (set_qValue ((toFloat (m_visited n) * currentQValue + v)
                 / toFloat (m_visited n + 1)) n).

(** The [while (parent)] loop of [backPropagateValueFull]. *)
Fixpoint backPropagateLoop (fuel : nat) (v : Q) (parent : option NodeId)
    (h : Heap) : option Heap :=
  match parent with
  | None => Some h
  | Some p =>
      match fuel with
      | O => None
      | S fuel' =>
          n ← h !! p;
          let v := - v in
          backPropagateLoop fuel' v (m_parent n) (<[p := backPropagateValue v n]> h)
      end
  end.

Definition backPropagateValueFull (fuel : nat) (h : Heap) (this : NodeId)
  : option Heap :=
  n ← h !! this;
  backPropagateLoop fuel (qValue n) (m_parent n) h.

Definition setQValueAndPropagate (fuel : nat) (h : Heap) (this : NodeId)
  : option Heap :=
  n ← h !! this;
  h1 ← match m_parent n with
       | Some p =>
           if (m_visited n =? 0)%N then
             pn ← h !! p;
             Some (<[p := set_policySum (m_policySum pn + pValue n) pn]> h)
           else Some h
       | None => Some h
       end;
  n1 ← h1 !! this;
  backPropagateValueFull fuel (<[this := setQValueFromRaw (incrementVisited n1)]> h1) this.

(** *** The selection view (lines 216-329) *)

Inductive MCTSNode : Type :=
| MCTSNull
| MCTSChild (m_node : NodeId)
| MCTSPotential (m_parent : NodeId) (m_potential : PotentialNode).

Definition MCTS_uCoeff (h : Heap) (c : MCTSNode) : option Q :=
  match c with
  | MCTSNull => None
  | MCTSPotential parent _ => Some (Node_uCoeff h parent)
  | MCTSChild node =>
      n ← h !! node; parent ← m_parent n; Some (Node_uCoeff h parent)
  end.

Definition MCTS_pValue (h : Heap) (c : MCTSNode) : option Q :=
  match c with
  | MCTSNull => None
  | MCTSPotential _ potential => Some (potential_pValue potential)
  | MCTSChild node => n ← h !! node; Some (pValue n)
  end.

Definition MCTS_qValue (h : Heap) (c : MCTSNode) : option Q :=
  match c with
  | MCTSNull => None
  | MCTSPotential parent _ =>
      pn ← h !! parent;
      if isRootNode pn then Some 1%Q else Some (Node_qValueDefault h parent)
  | MCTSChild node => n ← h !! node; Some (qValue n)
  end.

(** The arithmetic of [virtualLossDistance], on the three numbers read
    from the second candidate. *)
Definition virtualLossDistanceOf (wec q p uCoeff : Q) : Z :=
  if qFuzzyCompare (wec - q) 0 then 1%Z
  else if Qgt_bool q wec then vldMax
  else
    let nf := - (q + p * uCoeff - wec) / (wec - q) in
    let n := qMax 1%Z (qCeil nf) in
    n.

Definition virtualLossDistance (h : Heap) (wec : Q) (a b : MCTSNode)
  : option Z :=
  q ← MCTS_qValue h b;
  p ← MCTS_pValue h b;
  uCoeff ← MCTS_uCoeff h b;
  Some (virtualLossDistanceOf wec q p uCoeff).

(** *** Expansion (lines 533-606) *)

Definition generatePotential (mv : Move) (n : Node) : Node :=
  match makeMove (m_game n) mv with
  | None => n
  | Some g =>
      if isChecked g (activeArmy (m_game n)) then n
      else set_potentials (m_potentials n ++ [newPotentialNode mv]) n
  end.

(** [m_game.pseudoLegalMoves(this)]: the rules engine hands every
    pseudo-legal move to [generatePotential]. *)
Definition generateMoves (n : Node) : Node :=
  fold_left (fun nd mv => generatePotential mv nd) (pseudoLegalMoves (m_game n)) n.

(** The questions [generatePotentials] puts to its collaborators, in the
    order it puts them. *)
Inductive Question : Type :=
| AskHalfMoveClock
| AskDeadPosition
| AskThreeFold
| AskTablebase
| AskMoves
| AskChecked.

Definition exactValue (q : Q) (n : Node) : Node :=
  set_isExact true (set_rawQValue q n).

Definition tablebaseValue (q : Q) (n : Node) : Node :=
  set_isTB true (exactValue q n).

(** The score of a checkmate found [d] plies below the root, as line 583
    computes it. *)
Definition checkMateValue (d : Z) : Q :=
  1 + inject_Z MAX_DEPTH * 0.0001 - inject_Z d * 0.0001.

(** Lines 575-592: generate the moves; a node without any is a checkmate
    or a stalemate. *)
Definition generateOrFinish (fuel : nat) (h : Heap) (this : NodeId) (n : Node)
    (asked : list Question) : option (list Question * Heap) :=
  let n := generateMoves n in
  let asked := asked ++ [AskMoves] in
  if hasPotentials n then Some (asked, <[this := n]> h)
  else
    let asked := asked ++ [AskChecked] in
    if isChecked (m_game n) (activeArmy (m_game n)) then
      let n := set_game (setCheckMate true (m_game n)) n in
      d ← depth fuel (<[this := n]> h) this;
      Some (asked, <[this := exactValue (checkMateValue d) n]> h)
    else
      let n := set_game (setStaleMate true (m_game n)) n in
      Some (asked, <[this := exactValue 0 n]> h).

(** Lines 554-573: the tablebase, except at the root. *)
Definition probeOrGenerate (fuel : nat) (h : Heap) (this : NodeId) (n : Node)
    (asked : list Question) : option (list Question * Heap) :=
  let result := if isRootNode n then NotFound else probe (m_game n) in
  let asked := if isRootNode n then asked else asked ++ [AskTablebase] in
  match result with
  | NotFound => generateOrFinish fuel h this n asked
  | Win => Some (asked, <[this := tablebaseValue (1 - cpToScore 1) n]> h)
  | Loss => Some (asked, <[this := tablebaseValue (-1 + cpToScore 1) n]> h)
  | Draw => Some (asked, <[this := tablebaseValue 0 n]> h)
  end.

(** [Q_ASSERT] compiles to nothing in a release build; the test that
    follows the first one stays. *)
Definition generatePotentials (fuel : nat) (h : Heap) (this : NodeId)
  : option (list Question * Heap) :=
  n ← h !! this;
  if hasPotentials n then Some ([], h)
  else if (100 <=? halfMoveClock (m_game n))%Z then
    Some ([AskHalfMoveClock], <[this := exactValue 0 n]> h)
  else if isDeadPosition (m_game n) then
    Some ([AskHalfMoveClock; AskDeadPosition], <[this := exactValue 0 n]> h)
  else
    '(threeFold, h) ← isThreeFold fuel h this;
    n ← h !! this;
    let asked := [AskHalfMoveClock; AskDeadPosition; AskThreeFold] in
    if threeFold : bool then Some (asked, <[this := exactValue 0 n]> h)
    else probeOrGenerate fuel h this n asked.

(** *** Vocabulary of the statements *)

(** [ancestry h parent l]: following parent pointers from [parent] visits
    exactly the nodes [l], nearest first, and ends at the root. *)
Inductive ancestry (h : Heap) : option NodeId -> list NodeId -> Prop :=
| ancestry_root : ancestry h None []
| ancestry_step p n l :
    h !! p = Some n -> ancestry h (m_parent n) l -> ancestry h (Some p) (p :: l).

(** [descends h c d k]: [d] lies [k] parent links below [c]. *)
Inductive descends (h : Heap) (c : NodeId) : NodeId -> nat -> Prop :=
| descends_here : descends h c c O
| descends_up d n p k :
    d <> c -> h !! d = Some n -> m_parent n = Some p ->
    descends h c p k -> descends h c d (S k).

(** The positions stored at the nodes [l]. *)
Definition gamesOf (h : Heap) (l : list NodeId) : list Game :=
  omap (fun a => m_game <$> h !! a) l.

(** What [Node::repetitions] answers for node [n] whose ancestors hold the
    positions [history], and the node it leaves behind. *)
Definition repetitionsOf (n : Node) (history : list Game) : Z :=
  if negb (repetitions (m_game n) =? -1)%Z then repetitions (m_game n)
  else countRepetitions (m_game n) history 0%Z.

Definition cacheRepetitions (n : Node) (history : list Game) : Node :=
  if negb (repetitions (m_game n) =? -1)%Z then n
  else set_game (setRepetitions (repetitionsOf n history) (m_game n)) n.

(** The value that reaches the [k]-th ancestor of a node whose own value
    is [v]: the sign is flipped once per ply. *)
Definition entering (k : nat) (v : Q) : Q := Nat.iter k Qopp v.

(** The first visit of [child] adds its prior to the parent's
    [m_policySum]; [pn] is the [k]-th ancestor, the parent being number 0. *)
Definition creditPolicy (k : nat) (child pn : Node) : Node :=
  match k with
  | O => if (m_visited child =? 0)%N
         then set_policySum (m_policySum pn + pValue child) pn else pn
  | S _ => pn
  end.

(** What one visit does to the node that is being scored. *)
Definition scoreOnce (n : Node) : Node := setQValueFromRaw (incrementVisited n).

(** Every node that has a Q value has it within [[-B, B]]. *)
Definition qBounded (B : Q) (h : Heap) : Prop :=
  forall i n, h !! i = Some n -> hasQValue n = true ->
    - B <= m_qValue n <= B.

(** Every exact node that has been scored has its raw value as Q value. *)
Definition exactSettled (h : Heap) : Prop :=
  forall i n, h !! i = Some n -> m_isExact n = true -> hasQValue n = true ->
    m_qValue n = m_rawQValue n.

(** [k] calls of [setQValueAndPropagate] on the same node. *)
Fixpoint propagateTimes (k fuel : nat) (h : Heap) (this : NodeId)
  : option Heap :=
  match k with
  | O => Some h
  | S k' => h1 ← setQValueAndPropagate fuel h this; propagateTimes k' fuel h1 this
  end.

(** [generatePotentials] answered [result] after asking [asked]: the node
    [n] at [this] has become an exact draw and nothing else has changed;
    neither the tablebase nor the move generator was consulted. *)
Definition endsAsDraw (h : Heap) (this : NodeId) (n : Node)
    (asked : list Question) (result : option (list Question * Heap)) : Prop :=
  exists h' n',
    result = Some (asked, h') /\ h' !! this = Some n' /\
    m_rawQValue n' = 0 /\ m_isExact n' = true /\
    m_potentials n' = [] /\ m_children n' = m_children n /\
    m_isTB n' = m_isTB n /\ m_qValue n' = m_qValue n /\
    m_visited n' = m_visited n /\ m_parent n' = m_parent n /\
    (AskTablebase ∉ asked) /\ (AskMoves ∉ asked) /\
    (forall x, x <> this -> h' !! x = h !! x).

(** The distance as the comment at lines 313-318 and the specification
    document it: [(q + p * uCoeff - wec) / (wec - q)], rounded up and kept
    within [[1, vldMax]]. *)
Definition virtualLossDistance_documented (wec q p uCoeff : Q) : Z :=
  if qFuzzyCompare (wec - q) 0 then 1%Z
  else if Qle_bool wec q then vldMax
  else Z.min vldMax (Z.max 1 (Qceiling ((q + p * uCoeff - wec) / (wec - q)))).

End Model.

(** ** The rest of node.cpp: selection, descent and expansion *)

(** What the remaining functions take from elsewhere: one more search
    setting, the distance-to-zero probe of the tablebase, and three more
    members of [Node] that node.h defines inline. *)
Class Search `{Engine} : Type := {
  (* SearchSettings::tryPlayoutLimit *)
  tryPlayoutLimit : Z;
  (* TB::globalInstance()->probeDTZ(game, &move, &dtz) *)
  probeDTZ : Game -> Probe * Move * Z;
  (* Node::weightedExplorationScore(), Node::isAlreadyPlayingOut(),
     Node::isNotExtendable() *)
  Node_weightedExplorationScore : Heap -> NodeId -> Q;
  Node_isAlreadyPlayingOut : Node -> bool;
  Node_isNotExtendable : Node -> bool
}.

Definition set_scoringOrScored `{Chess} (v : bool) (n : Node) : Node :=
  mkNode (m_game n) (m_parent n) (m_children n) (m_potentials n) (m_visited n)
         (m_virtualLoss n) (m_qValue n) (m_rawQValue n) (m_pValue n)
         (m_policySum n) (m_uCoeff n) v (m_isExact n) (m_isTB n).

Section MoreModel.
Context `{Search}.
Local Open Scope Q_scope.

(** The state of the two-best search in [playout] (lines 385-388): a
    candidate is the view together with, for a potential, its position in
    [m_potentials], which stands for the [PotentialNode*]. *)
Record Selection : Type := mkSelection {
  firstNode : MCTSNode * nat;
  secondNode : MCTSNode * nat;
  bestScore : Q;
  secondBestScore : Q
}.

Definition isNull (c : MCTSNode * nat) : bool :=
  match fst c with MCTSNull => true | _ => false end.

Definition nullSelection : Selection :=
  mkSelection (MCTSNull, O) (MCTSNull, O) (-1) (-1).

(** The body of the two [for] loops (lines 391-403 and 408-420). *)
Definition consider (st : Selection) (item : (MCTSNode * nat) * Q) : Selection :=
  let '(mctsNode, score) := item in
  if isNull (firstNode st) || Qgt_bool score (bestScore st) then
    mkSelection mctsNode (firstNode st) score (bestScore st)
  else if isNull (secondNode st) || Qgt_bool score (secondBestScore st) then
    mkSelection (firstNode st) mctsNode (bestScore st) score
  else st.

Definition selectTwo (items : list ((MCTSNode * nat) * Q)) : Selection :=
  fold_left consider items nullSelection.

(** [previousMoves]: the loop of lines 70-74 over the positions that the
    history iterator yields. *)
Fixpoint previousMovesLoop (fullHistory : bool) (it : list Game)
    (result : list Game) : list Game :=
  match it with
  | [] => result
  | g :: rest =>
      if fullHistory || (length result <? 11)%nat
      then previousMovesLoop fullHistory rest (g :: result)
      else result
  end.

(** Modelled from the spec: [Node::setPValue], the setter of the prior. *)
Definition setPValue (p : Q) (n : Node) : Node := set_pValue p n.

(** Modelled from the spec: [Node::setScoringOrScored()], the atomic
    test-and-set of the one-shot flag (sections 3 and 4.3); it answers the
    value the flag had. *)
Definition setScoringOrScored (n : Node) : bool * Node :=
  (m_scoringOrScored n, set_scoringOrScored true n).

Definition previousMoves (fuel : nat) (h : Heap) (this : NodeId)
    (fullHistory : bool) : option (list Game) :=
  n ← h !! this;
  it ← historyFrom fuel h (m_parent n);
  Some (previousMovesLoop fullHistory it []).

(** [Node::generateChild] (lines 608-620).  The potential is given by its
    position in [m_potentials]; [new Node] takes an address that is not in
    use.  A move that cannot be made is outside the function's contract
    ([Q_ASSERT(success)]); the model stops there. *)
Definition generateChild (h : Heap) (this : NodeId) (potential : nat)
  : option (Heap * NodeId) :=
  n ← h !! this;
  pot ← m_potentials n !! potential;
  g ← makeMove (m_game n) (move pot);
  let child := fresh (dom h) in
  let c := setPValue (potential_pValue pot) (newNode (Some this) g) in
  Some (<[this := set_potentials (delete potential (m_potentials n))
                    (set_children (m_children n ++ [child]) n)]>
          (<[child := c]> h),
        child).

(** [MCTSNode::weightedExplorationScore] (lines 276-281), with [uValue]
    (lines 269-274). *)
Definition MCTS_weightedExplorationScore (h : Heap) (c : MCTSNode) : option Q :=
  match c with
  | MCTSNull => None
  | MCTSPotential parent potential =>
      q ← MCTS_qValue h c;
      Some (q + Node_uCoeff h parent * potential_pValue potential)
  | MCTSChild node => Some (Node_weightedExplorationScore h node)
  end.

(** [MCTSNode::actualNode] (lines 284-292): the node, created if need be,
    and whether it was created.  A null view yields a null pointer, which
    [playout] then dereferences; the model stops there. *)
Definition actualNode (h : Heap) (c : MCTSNode * nat)
  : option (Heap * NodeId * bool) :=
  match fst c with
  | MCTSNull => None
  | MCTSPotential parent _ =>
      '(h', child) ← generateChild h parent (snd c);
      Some (h', child, true)
  | MCTSChild node => Some (h, node, false)
  end.

(** The candidates of node [n] at address [this] in the order [playout]
    looks at them, children first, each with its score. *)
Definition candidates (h : Heap) (this : NodeId) (n : Node)
  : option (list ((MCTSNode * nat) * Q)) :=
  mapM (fun c : MCTSNode * nat =>
          score ← MCTS_weightedExplorationScore h (fst c); Some (c, score))
       (((fun child => (MCTSChild child, O)) <$> m_children n)
        ++ imap (fun i potential => (MCTSPotential this potential, i))
                (m_potentials n)).

(** [Node::playout] (lines 331-444).  One round of the [forever] loop per
    unit of fuel; [goto start_playout] starts over at [this] with the
    counters that are left.  The answer is the heap, the node and depth
    found (nothing for [nullptr], in which case [*depth] is not written)
    and the value of [*createdNode].  [m_virtualLoss] is a count: a sum
    that would fall below 0 is kept at 0, which can only happen with
    [vld] below 1, that is with [vldMax] below 1. *)
Fixpoint playoutLoop (fuel : nat) (this : NodeId) (tryLimit vldLeft : Z)
    (d vld : Z) (n : NodeId) (h : Heap) (createdNode : bool)
  : option (Heap * option (NodeId * Z) * bool) :=
  match fuel with
  | O => None
  | S fuel' =>
      nd ← h !! n;
      let d := (d + 1)%Z in
      let '(was, nd) := setScoringOrScored nd in
      if negb was || m_isExact nd then
        Some (<[n := set_virtualLoss (m_virtualLoss nd + 1)%N nd]> h,
              Some (n, d), createdNode)
      else
        let alreadyPlayingOut := Node_isAlreadyPlayingOut nd in
        let increment := if alreadyPlayingOut then (vld - 1)%Z else 1%Z in
        let nd := set_virtualLoss
                    (Z.to_N (Z.of_N (m_virtualLoss nd) + increment)) nd in
        let h := <[n := nd]> h in
        if alreadyPlayingOut || Node_isNotExtendable nd then
          let tryLimit := (tryLimit - 1)%Z in
          if (tryLimit <=? 0)%Z then Some (h, None, createdNode)
          else
            let vldLeft := (vldLeft - Z.of_N (m_virtualLoss nd))%Z in
            if (vldLeft <=? 0)%Z then Some (h, None, createdNode)
            else playoutLoop fuel' this tryLimit vldLeft 0 vldLeft this h
                             createdNode
        else
          items ← candidates h n nd;
          let st := selectTwo items in
          vld ← (if isNull (secondNode st) then Some vld
                 else
                   vldNew ← virtualLossDistance h (bestScore st)
                              (fst (firstNode st)) (fst (secondNode st));
                   Some (if (vld =? 0)%Z then vldNew else Z.min vld vldNew));
          '(h, next, created) ← actualNode h (firstNode st);
          playoutLoop fuel' this tryLimit vldLeft d vld next h
                      (if created : bool then true else createdNode)
  end.

Definition playout (fuel : nat) (h : Heap) (this : NodeId) (createdNode : bool)
  : option (Heap * option (NodeId * Z) * bool) :=
  playoutLoop fuel this tryPlayoutLimit vldMax 0 vldMax this h createdNode.

(** [Node::checkAndGenerateDTZ] (lines 467-531): the heap, the answer and
    the distance the probe reported. *)
Definition checkAndGenerateDTZ (fuel : nat) (h : Heap) (this : NodeId)
  : option (Heap * bool * Z) :=
  n ← h !! this;
  let '(result, mv, dtz) := probeDTZ (m_game n) in
  match result with
  | NotFound => Some (h, false, dtz)
  | _ =>
      match makeMove (m_game n) mv with
      | None => Some (h, false, dtz)
      | Some g =>
          if isChecked g (activeArmy (m_game n)) then Some (h, false, dtz)
          else
            let g := if isChecked g (activeArmy g) then setCheckMate true g
                     else g in
            let child := fresh (dom h) in
            let c := setPValue 1 (newNode (Some this) g) in
            let c := match result with
                     | Win => tablebaseValue (1 - cpToScore 1) c
                     | Loss => tablebaseValue (-1 + cpToScore 1) c
                     | _ => tablebaseValue 0 c
                     end in
            let n := if hasQValue n then n
                     else set_visited (m_visited n + 1)%N
                            (setQValueFromRaw (setRawQValue 0 n)) in
            let h := <[child := c]> (<[this := n]> h) in
            h ← setQValueAndPropagate fuel h child;
            n ← h !! this;
            Some (<[this := set_children (m_children n ++ [child]) n]> h,
                  true, dtz)
      end
  end.

(** *** Vocabulary of the further statements *)

(** A pseudo-legal move is legal at [n] when it can be made and does not
    leave the mover in check (the two tests of [generatePotential]). *)
Definition legalMove (n : Node) (mv : Move) : bool :=
  match makeMove (m_game n) mv with
  | None => false
  | Some g => negb (isChecked g (activeArmy (m_game n)))
  end.

(** The fields of a node that [generatePotentials] never writes. *)
Definition sameStatistics (n n' : Node) : Prop :=
  m_parent n' = m_parent n /\ m_children n' = m_children n /\
  m_visited n' = m_visited n /\ m_virtualLoss n' = m_virtualLoss n /\
  m_qValue n' = m_qValue n /\ m_pValue n' = m_pValue n /\
  m_policySum n' = m_policySum n /\ m_uCoeff n' = m_uCoeff n /\
  m_scoringOrScored n' = m_scoringOrScored n.

(** [generatePotentials] answered [result] for the node [n] at [this]:
    the node alone has changed, and not in the fields above; it is now
    exact without potentials, or it has its legal moves as potentials and
    the raw value and marks it had; it is marked as a tablebase node only
    if it was before or is exact now; at the root the tablebase was not
    asked and the mark is as before. *)
Definition expansionOutcome (h : Heap) (this : NodeId) (n : Node)
    (result : option (list Question * Heap)) : Prop :=
  exists asked h' n',
    result = Some (asked, h') /\
    h' !! this = Some n' /\
    (forall x, x <> this -> h' !! x = h !! x) /\
    sameStatistics n n' /\
    (m_isExact n' = true /\ m_potentials n' = [] \/
     m_isExact n' = m_isExact n /\ m_isTB n' = m_isTB n /\
     m_rawQValue n' = m_rawQValue n /\ m_potentials n' <> [] /\
     m_potentials n' =
       newPotentialNode
         <$> filter (fun mv => legalMove n' mv = true)
                    (pseudoLegalMoves (m_game n'))) /\
    (m_isTB n' = true -> m_isTB n = true \/ m_isExact n' = true) /\
    (isRootNode n = true -> (AskTablebase ∉ asked) /\ m_isTB n' = m_isTB n).

(** The positions of a history back to the last irreversible move: up to
    and including the first one whose half-move clock is 0. *)
Fixpoint sinceIrreversible (history : list Game) : list Game :=
  match history with
  | [] => []
  | it :: rest =>
      if (halfMoveClock it =? 0)%Z then [it] else it :: sinceIrreversible rest
  end.

(** How many of the positions [l] equal that of [g]. *)
Definition occurrences (g : Game) (l : list Game) : Z :=
  Z.of_nat (length (filter (fun it => isSamePosition g it = true) l)).

(** The visits of the node at [c], none when there is no such node. *)
Definition visitsOf (h : Heap) (c : NodeId) : Z :=
  match h !! c with Some nc => Z.of_N (m_visited nc) | None => 0%Z end.

(** The visits of [x] that did not pass on to one of its children. *)
Definition ownVisits (h : Heap) (x : NodeId) : Z :=
  match h !! x with
  | Some nx => (Z.of_N (m_visited nx)
                - fold_right Z.add 0 (visitsOf h <$> m_children nx))%Z
  | None => 0%Z
  end.

(** The prior of the node at [c] once it has been visited. *)
Definition visitedPrior (h : Heap) (c : NodeId) : Q :=
  match h !! c with
  | Some nc => if (m_visited nc =? 0)%N then 0 else m_pValue nc
  | None => 0
  end.

(** What [m_policySum] of [x] holds beyond the priors of its visited
    children. *)
Definition policyExcess (h : Heap) (x : NodeId) : Q :=
  match h !! x with
  | Some nx => m_policySum nx
               - fold_right Qplus 0 (visitedPrior h <$> m_children nx)
  | None => 0
  end.

(** [st] holds the two best of the scored candidates [items]: the first
    is the earliest candidate of the highest score; the second, when there
    is more than one candidate, is the earliest of the highest score among
    the others. *)
Definition twoBest (items : list ((MCTSNode * nat) * Q)) (st : Selection)
  : Prop :=
  exists i,
    items !! i = Some (firstNode st, bestScore st) /\
    (forall j it, items !! j = Some it ->
       snd it <= bestScore st /\ ((j < i)%nat -> snd it < bestScore st)) /\
    (length items = 1%nat -> secondNode st = (MCTSNull, O)) /\
    ((2 <= length items)%nat ->
     exists k, k <> i /\
       items !! k = Some (secondNode st, secondBestScore st) /\
       forall j it, j <> i -> items !! j = Some it ->
         snd it <= secondBestScore st /\
         ((j < k)%nat -> snd it < secondBestScore st)).

(** Parent pointers and children sequences agree: a node is listed, once,
    by the node its parent pointer names, and by no other. *)
Definition linked (h : Heap) : Prop :=
  (forall x nx c, h !! x = Some nx -> c ∈ m_children nx ->
     exists nc, h !! c = Some nc /\ m_parent nc = Some x) /\
  (forall c nc x, h !! c = Some nc -> m_parent nc = Some x ->
     exists nx, h !! x = Some nx /\ c ∈ m_children nx) /\
  (forall x nx, h !! x = Some nx -> NoDup (m_children nx)).

(** [bestLine h this l cut]: below [this], [principalVariation] visits the
    nodes [l]: each is the first of its parent's children as [sortByScore]
    orders them, and has a parent and a prior.  The line ends at a node
    without children ([cut] is false) or before a first child that has no
    prior yet ([cut] is true). *)
Inductive bestLine (h : Heap) : NodeId -> list NodeId -> bool -> Prop :=
| bestLine_leaf this n :
    h !! this = Some n -> hasChildren n = false -> bestLine h this [] false
| bestLine_cut this n best rest nb :
    h !! this = Some n -> hasChildren n = true ->
    sortByScore h (m_children n) true = best :: rest ->
    h !! best = Some nb -> isRootNode nb = false -> hasPValue nb = false ->
    bestLine h this [] true
| bestLine_step this n best rest nb l cut :
    h !! this = Some n -> hasChildren n = true ->
    sortByScore h (m_children n) true = best :: rest ->
    h !! best = Some nb -> isRootNode nb = false -> hasPValue nb = true ->
    bestLine h best l cut -> bestLine h this (best :: l) cut.

(** The last moves of the nodes [l], in computer notation. *)
Definition movesOf (h : Heap) (l : list NodeId) : list string :=
  omap (fun a => n ← h !! a; Some (moveToString (lastMove (m_game n)))) l.

(** The moves separated by single spaces, with one more space at the end
    when the line was cut. *)
Fixpoint lineText (moves : list string) (cut : bool) : string :=
  match moves with
  | [] => EmptyString
  | [m] => if cut then String.append m " " else m
  | m :: rest => String.append m (String.append " " (lineText rest cut))
  end.

(** The node [playout] returns: claimed, with one more virtual loss. *)
Definition claimed (nd : Node) : Node :=
  set_virtualLoss (m_virtualLoss nd + 1)%N (set_scoringOrScored true nd).

(** A node [playout] passes through with [vld] in hand: claimed, with
    [vld - 1] more virtual losses if it is being played out already, and
    one more if not. *)
Definition pressed (vld : Z) (nd : Node) : Node :=
  let nd := set_scoringOrScored true nd in
  set_virtualLoss
    (Z.to_N (Z.of_N (m_virtualLoss nd)
             + if Node_isAlreadyPlayingOut nd then vld - 1 else 1))
    nd.

(** What [playout] may do to a node: the statistics, values, marks,
    position and parent stay; the virtual loss does not fall, the claim
    flag is not cleared, children are only appended, and children and
    potentials together stay as many. *)
Definition grown (nx nx' : Node) : Prop :=
  m_visited nx' = m_visited nx /\ m_qValue nx' = m_qValue nx /\
  m_rawQValue nx' = m_rawQValue nx /\ m_pValue nx' = m_pValue nx /\
  m_policySum nx' = m_policySum nx /\ m_uCoeff nx' = m_uCoeff nx /\
  m_parent nx' = m_parent nx /\
  m_isExact nx' = m_isExact nx /\ m_isTB nx' = m_isTB nx /\
  m_game nx' = m_game nx /\
  (m_virtualLoss nx <= m_virtualLoss nx')%N /\
  (m_scoringOrScored nx = true -> m_scoringOrScored nx' = true) /\
  m_children nx `prefix_of` m_children nx' /\
  (length (m_children nx') + length (m_potentials nx')
   = length (m_children nx) + length (m_potentials nx))%nat.

(** [playout] went from [h] to [h']: every node of [h] is still there,
    changed at most as above. *)
Definition descended (h h' : Heap) : Prop :=
  forall x nx, h !! x = Some nx ->
    exists nx', h' !! x = Some nx' /\ grown nx nx'.

(** A tree [playout] can descend: the children a node lists are nodes that
    name it as parent and rank below it, and the move of every potential
    can be made. *)
Definition playable (rank : NodeId -> nat) (h : Heap) : Prop :=
  (forall x nx c, h !! x = Some nx -> c ∈ m_children nx ->
     (rank c < rank x)%nat /\
     exists nc, h !! c = Some nc /\ m_parent nc = Some x) /\
  (forall x nx pot, h !! x = Some nx -> pot ∈ m_potentials nx ->
     is_Some (makeMove (m_game nx) (move pot))).

(** Where [playout] comes to select, there is something to select: a
    claimed node of [h] that is not exact has a child or a potential
    whenever, with a virtual loss [v] that is not below its own, it does
    not count as being played out and, with one more virtual loss, does
    not count as not extendable.  Nothing is asked of a node that is not
    claimed: [playout] returns it. *)
Definition selectable (h : Heap) : Prop :=
  forall x nd v, h !! x = Some nd ->
    m_scoringOrScored nd = true -> m_isExact nd = false ->
    (m_virtualLoss nd <= v)%N ->
    Node_isAlreadyPlayingOut (set_scoringOrScored true (set_virtualLoss v nd))
    = false ->
    Node_isNotExtendable
      (set_virtualLoss (v + 1)%N (set_scoringOrScored true (set_virtualLoss v nd)))
    = false ->
    m_children nd <> [] \/ m_potentials nd <> [].

End MoreModel.

(** ** A small engine to run the model on

    Positions are numbered: 0 is an ordinary position with two legal
    moves, 1 is a dead position, 2 is a checkmate, 3 a stalemate, and 4, 5
    and 6 are tablebase wins, losses and draws. *)

Definition exampleChess : Chess := {| Board := nat; Move := nat |}.

Section Examples.
#[local] Existing Instance exampleChess.

Definition otherArmy (a : Army) : Army :=
  match a with White => Black | Black => White end.

Definition exampleEngine : Engine := {|
  isDeadPosition g := Nat.eqb (position g) 1;
  isChecked g _ := Nat.eqb (position g) 2;
  isSamePosition g1 g2 := Nat.eqb (position g1) (position g2);
  pseudoLegalMoves g :=
    match position g with
    | 2%nat | 3%nat => []
    | _ => [12%nat; 28%nat]
    end;
  makeMove g mv :=
    Some (mkGame 0%nat (halfMoveClock g + 1)%Z mv (otherArmy (activeArmy g))
                 (-1)%Z false false);
  probe g :=
    match position g with
    | 4%nat => Win
    | 5%nat => Loss
    | 6%nat => Draw
    | _ => NotFound
    end;
  moveToString _ := "e2e4"%string;
  MAX_DEPTH := 127%Z;
  vldMax := 800%Z;
  cpToScore cp := (inject_Z cp / 450)%Q;
  Node_uCoeff h i := match h !! i with Some n => m_uCoeff n | None => unset end;
  Node_qValueDefault h i := match h !! i with Some n => m_qValue n | None => unset end;
  sortByScore _ l _ := l
|}.
#[local] Existing Instance exampleEngine.

(** A game at position [b] with half-move clock [clock]. *)
Definition gameAt (b : nat) (clock : Z) : Game :=
  mkGame b clock 12%nat White (-1)%Z false false.

(** A root (address 0) above one fresh child (address 1) whose position is
    [b], with half-move clock [clock]. *)
Definition scoredRoot : Node :=
  set_children [1%nat]
    (set_visited 1%N (set_qValue 0 (set_rawQValue 0
       (set_pValue 1 (newNode None (gameAt 0 0)))))).

Definition freshChild (b : nat) (clock : Z) : Node :=
  newNode (Some 0%nat) (gameAt b clock).

Definition rootAndChild (b : nat) (clock : Z) : Heap :=
  <[1%nat := freshChild b clock]> (<[0%nat := scoredRoot]> ∅).

(** A scored node with the given prior, value and visit count, and its
    parent's exploration coefficient: the candidates that selection
    compares. *)
Definition candidate (parent : NodeId) (p q : Q) (visits : N) : Node :=
  set_visited visits (set_qValue q (set_rawQValue q
    (set_pValue p (newNode (Some parent) (gameAt 0 0))))).

Definition twoCandidates : Heap :=
  <[2%nat := candidate 0 1 0 2]>
    (<[1%nat := candidate 0 (1 # 2) (3 # 4) 5]>
       (<[0%nat := set_uCoeff 3 (set_children [1%nat; 2%nat]
                     (set_visited 8%N (set_qValue 0 (set_rawQValue 0
                        (set_pValue 1 (newNode None (gameAt 0 0)))))))]> ∅)).

(** Three plies: a root (address 0), its child (1) and a grandchild (2)
    that the tablebase has scored as a win and that has not been visited
    yet. *)
Definition threePlyRoot : Node :=
  set_children [1%nat]
    (set_visited 2%N (set_qValue (1 # 4) (set_rawQValue (1 # 4)
       (set_pValue 1 (newNode None (gameAt 0 0)))))).

Definition threePlyChild : Node :=
  set_children [2%nat] (candidate 0 (1 # 2) (- (1 # 2)) 1).

Definition threePlyLeaf : Node :=
  tablebaseValue (1 - cpToScore 1)
    (set_pValue (1 # 3) (newNode (Some 1%nat) (gameAt 4 3))).

Definition threePly : Heap :=
  <[2%nat := threePlyLeaf]> (<[1%nat := threePlyChild]> (<[0%nat := threePlyRoot]> ∅)).

(** A line of five plies that comes back to the position it started from
    after two and after four plies, without a capture or a pawn move; the
    last node (address 4) is fresh. *)
Definition lineNode (parent : option NodeId) (b : nat) (clock : Z)
    (child : NodeId) : Node :=
  set_children [child]
    (set_visited 1%N (set_qValue 0 (set_rawQValue 0
       (set_pValue 1 (newNode parent (gameAt b clock)))))).

Definition repeatedLine : Heap :=
  <[4%nat := newNode (Some 3%nat) (gameAt 0 5)]>
    (<[3%nat := lineNode (Some 2%nat) 7 4 4]>
       (<[2%nat := lineNode (Some 1%nat) 0 3 3]>
          (<[1%nat := lineNode (Some 0%nat) 7 2 2]>
             (<[0%nat := lineNode None 0 1 1]> ∅)))).

(** A checkmate found one ply below the root and back-propagated. *)
Definition mateInOne : option Heap :=
  '(_, h) ← generatePotentials 1 (rootAndChild 2 0) 1;
  setQValueAndPropagate 1 h 1.

End Examples.

Section MoreExamples.
#[local] Existing Instance exampleChess.
#[local] Existing Instance exampleEngine.

(** The further collaborators of the example engine: a child scores,
    counts as being played out, and counts as not extendable as sections
    4.1, 4.3 and 4.4 of the specification have it. *)
Definition exampleSearch : Search := {|
  tryPlayoutLimit := 3%Z;
  probeDTZ g :=
    match position g with
    | 4%nat => (Win, 12%nat, 5%Z)
    | 5%nat => (Loss, 28%nat, 7%Z)
    | 6%nat => (Draw, 12%nat, 0%Z)
    | _ => (NotFound, 0%nat, 0%Z)
    end;
  Node_weightedExplorationScore h i :=
    match h !! i with
    | Some n =>
        (m_qValue n
         + match m_parent n with
           | Some p => Node_uCoeff h p
           | None => 0
           end * m_pValue n
           / (1 + toFloat (m_visited n) + toFloat (m_virtualLoss n)))%Q
    | None => unset
    end;
  Node_isAlreadyPlayingOut n := (0 <? m_virtualLoss n)%N;
  Node_isNotExtendable n :=
    m_isExact n || isCheckMate (m_game n) || isStaleMate (m_game n) || m_isTB n
    || (negb (hasChildren n) && negb (hasPotentials n) && hasQValue n)
|}.
#[local] Existing Instance exampleSearch.

(** A scored root (address 0) with two potentials, priors 0.6 and 0.4, and
    exploration coefficient 2. *)
Definition expandedRootNode : Node :=
  set_scoringOrScored true
    (set_uCoeff 2
       (set_potentials [mkPotential 12%nat (6 # 10);
                        mkPotential 28%nat (4 # 10)]
          (set_visited 1%N (set_qValue 0 (set_rawQValue 0
             (set_pValue 1 (newNode None (gameAt 0 0)))))))).

Definition expandedRoot : Heap := <[0%nat := expandedRootNode]> ∅.

(** The first potential of the expanded root and its move. *)
Definition firstMove : Move := 12%nat.

Definition firstPotential : PotentialNode := mkPotential firstMove (6 # 10).

(** The position after a move from a position whose half-move clock is 0
    and where White is to move. *)
Definition afterMove (mv : nat) : Game :=
  mkGame 0%nat 1%Z mv Black (-1)%Z false false.

(** Three scored candidates: two children and a potential. *)
Definition threeScored : list ((MCTSNode * nat) * Q) :=
  [((MCTSChild 1%nat, O), (3 # 4)%Q);
   ((MCTSChild 2%nat, O), 1%Q);
   ((MCTSPotential 0%nat (mkPotential 12%nat (6 # 10)), O), 1%Q)].

(** A scored root (address 0) above a node (address 1) that an earlier
    playout has claimed and returned and that has not been scored yet: it
    carries that playout's virtual loss and has neither children nor
    potentials. *)
Definition beingScored : Heap :=
  <[1%nat := claimed (set_pValue 1 (freshChild 0 1))]>
    (<[0%nat := set_scoringOrScored true (set_uCoeff 2 scoredRoot)]> ∅).

(** A tablebase win found one ply below the root, scored, and then made
    the root itself (address 1): an exact root. *)
Definition exactRoot : option Heap :=
  '(_, h) ← generatePotentials 1 (rootAndChild 4 0) 1%nat;
  h ← setQValueAndPropagate 1 h 1%nat;
  setAsRootNode h 1%nat.

(** A root in the tablebase position [b] that has not been scored. *)
Definition tablebaseRoot (b : nat) : Heap :=
  <[0%nat := newNode None (gameAt b 0)]> ∅.

End MoreExamples.

(** * Properties *)

(** ** Centipawn conversion *)

Section CentipawnFacts.
Import Centipawn.
Local Open Scope R_scope.

Lemma toInt_nonneg (d : R) :
  0 <= d -> IZR (toInt d) <= d < IZR (toInt d) + 1.
Proof.
  intros Hd. unfold toInt. destruct (Rle_dec 0 d) as [_ | Hn]; [| contradiction].
  destruct (base_Int_part d) as [H1 H2]. split; lra.
Qed.

Lemma toInt_neg (d : R) :
  d < 0 -> d <= IZR (toInt d) < d + 1.
Proof.
  intros Hd. unfold toInt. destruct (Rle_dec 0 d) as [Hp | _]; [lra |].
  destruct (base_Int_part (- d)) as [H1 H2]. rewrite opp_IZR. split; lra.
Qed.

(** [qRound] is rounding to the nearest integer, halves going up. *)
Lemma qRound_spec (d : R) :
  IZR (qRound d) <= d + 0.5 < IZR (qRound d) + 1.
Proof.
  unfold qRound. destruct (Rle_dec 0 d) as [Hp | Hn].
  - apply toInt_nonneg. lra.
  - assert (Hm : d - 1 <= IZR (toInt (d - 1)) < d - 1 + 1)
      by (apply toInt_neg; lra).
    set (m := toInt (d - 1)) in *.
    assert (Hk : IZR (toInt (d - IZR m + 0.5)) <= d - IZR m + 0.5
                 < IZR (toInt (d - IZR m + 0.5)) + 1)
      by (apply toInt_nonneg; lra).
    rewrite plus_IZR. lra.
Qed.

Lemma qRound_near (d : R) : Rabs (IZR (qRound d) - d) <= 0.5.
Proof.
  destruct (qRound_spec d) as [H1 H2]. apply Rabs_le. lra.
Qed.

Lemma div_le_upper (a b c : R) : 0 < c -> a <= b * c -> a / c <= b.
Proof.
  intros Hc H. apply Rmult_le_reg_r with c; [exact Hc |].
  unfold Rdiv. rewrite Rmult_assoc, Rinv_l by lra. lra.
Qed.

Lemma div_le_lower (a b c : R) : 0 < c -> b * c <= a -> b <= a / c.
Proof.
  intros Hc H. apply Rmult_le_reg_r with c; [exact Hc |].
  unfold Rdiv. rewrite Rmult_assoc, Rinv_l by lra. lra.
Qed.

Lemma div_le_mono (a b c : R) : 0 < c -> a <= b -> a / c <= b / c.
Proof.
  intros Hc H. unfold Rdiv. apply Rmult_le_compat_r; [| exact H].
  left. apply Rinv_0_lt_compat. exact Hc.
Qed.

(** Mean value theorem for [atan], whose derivative is [1 / (1 + c^2)]. *)
Lemma atan_step (x y : R) :
  x < y -> exists c, x < c < y /\ atan y - atan x = (y - x) / (1 + c ^ 2).
Proof.
  intros Hxy.
  destruct (MVT_cor2 atan (fun c => / (1 + c ^ 2)) x y Hxy) as [c [Hc Hin]].
  - intros c _. apply derivable_pt_lim_atan.
  - exists c. split; [exact Hin |]. rewrite Hc. unfold Rdiv. ring.
Qed.

(** The derivative is at most 1, so [atan] moves no further than its
    argument. *)
Lemma atan_lipschitz (x y : R) : Rabs (atan y - atan x) <= Rabs (y - x).
Proof.
  assert (Hmono : forall a b, a < b -> 0 <= atan b - atan a <= b - a).
  { intros a b Hab. destruct (atan_step a b Hab) as [c [_ Hc]]. rewrite Hc.
    assert (Hpos : 0 < 1 + c ^ 2) by (pose proof (pow2_ge_0 c); lra).
    split.
    - apply div_le_lower; [exact Hpos | lra].
    - apply div_le_upper; [exact Hpos |]. pose proof (pow2_ge_0 c). nra. }
  destruct (Rtotal_order x y) as [Hlt | [Heq | Hgt]].
  - destruct (Hmono x y Hlt). rewrite !Rabs_pos_eq; lra.
  - subst. rewrite !Rminus_diag. rewrite Rabs_R0. lra.
  - destruct (Hmono y x Hgt).
    rewrite (Rabs_minus_sym (atan y)), (Rabs_minus_sym y).
    rewrite !Rabs_pos_eq; lra.
Qed.

(** For a positive argument, [x / (1 + x^2) <= atan x <= x]. *)
Lemma atan_bounds (x : R) : 0 < x -> x / (1 + x ^ 2) <= atan x <= x.
Proof.
  intros Hx. destruct (atan_step 0 x Hx) as [c [[Hc1 Hc2] Hc]].
  rewrite atan_0, !Rminus_0_r in Hc. rewrite Hc.
  assert (Hpc : 0 < 1 + c ^ 2) by (pose proof (pow2_ge_0 c); lra).
  assert (Hpx : 0 < 1 + x ^ 2) by (pose proof (pow2_ge_0 x); lra).
  assert (Hcx : c ^ 2 <= x ^ 2) by nra.
  split.
  - apply div_le_upper; [exact Hpx |].
    replace (x / (1 + c ^ 2) * (1 + x ^ 2)) with (x * (1 + x ^ 2) / (1 + c ^ 2))
      by (field; lra).
    apply div_le_lower; [exact Hpc | nra].
  - apply div_le_upper; [exact Hpc |]. nra.
Qed.

(** A lower bound on pi from the Machin-like series 2 atan(1/3) + atan(1/7). *)
Lemma PI_lower : 3.1 < PI.
Proof.
  destruct (PI_2_3_7_ineq 0) as [Hlow _].
  unfold sum_f_R0, tg_alt, PI_2_3_7_tg, Ratan_seq in Hlow.
  simpl in Hlow. lra.
Qed.

Lemma tan_scaled_in_range (q : R) :
  Rabs q < 0.99 -> - (PI / 2) < 1.548090806 * q < PI / 2.
Proof.
  intros Hq. pose proof PI_lower.
  apply Rabs_def2 in Hq. destruct Hq. split; lra.
Qed.

(** Before rounding, the two conversions are inverse to each other. *)
Lemma cpToScore_exact (q : R) :
  Rabs q < 0.99 ->
  atan (290.680623072 * tan (1.548090806 * q) / 290.680623072) / 1.548090806 = q.
Proof.
  intros Hq.
  replace (290.680623072 * tan (1.548090806 * q) / 290.680623072)
    with (tan (1.548090806 * q)) by (field; lra).
  rewrite atan_tan by (apply tan_scaled_in_range; exact Hq).
  field; lra.
Qed.

(** [cpToScore 1], the margin that separates tablebase results from 1. *)
Lemma cpToScore_1_bounds : 0.0022221 < cpToScore 1 < 0.0022223.
Proof.
  unfold cpToScore.
  assert (Hx : 0 < 1 / 290.680623072) by lra.
  destruct (atan_bounds _ Hx) as [Hlow Hup].
  assert (Hl : 0.0034401 <= 1 / 290.680623072 / (1 + (1 / 290.680623072) ^ 2)).
  { apply div_le_lower; [nra | lra]. }
  split.
  - apply Rlt_le_trans with (0.0034401 / 1.548090806); [lra |].
    apply div_le_mono; lra.
  - apply Rle_lt_trans with (1 / 290.680623072 / 1.548090806); [| lra].
    apply div_le_mono; lra.
Qed.


Lemma cpToScore_inverse (cp : Z) :
  290.680623072 * tan (1.548090806 * cpToScore cp) = IZR cp.
Proof.
  unfold cpToScore.
  replace (1.548090806 * (atan (IZR cp / 290.680623072) / 1.548090806))
    with (atan (IZR cp / 290.680623072)) by (field; lra).
  rewrite tan_atan. field; lra.
Qed.

Lemma roundtrip_within_half_centipawn (q : R) :
  Rabs q < 0.99 ->
  Rabs (cpToScore (scoreToCP q) - q) <= halfCentipawn.
Proof.
  intros Hq. unfold cpToScore, scoreToCP, halfCentipawn.
  set (t := 290.680623072 * tan (1.548090806 * q)).
  rewrite <- (cpToScore_exact q Hq) at 1. fold t.
  pose proof (qRound_near t) as Hr.
  pose proof (atan_lipschitz (t / 290.680623072) (IZR (qRound t) / 290.680623072))
    as Hl.
  replace (IZR (qRound t) / 290.680623072 - t / 290.680623072)
    with ((IZR (qRound t) - t) / 290.680623072) in Hl by (field; lra).
  unfold Rdiv in Hl at 3. rewrite Rabs_mult in Hl.
  rewrite (Rabs_pos_eq (/ 290.680623072)) in Hl
    by (left; apply Rinv_0_lt_compat; lra).
  replace (atan (IZR (qRound t) / 290.680623072) / 1.548090806
           - atan (t / 290.680623072) / 1.548090806)
    with ((atan (IZR (qRound t) / 290.680623072) - atan (t / 290.680623072))
          * / 1.548090806) by (field; lra).
  rewrite Rabs_mult.
  rewrite (Rabs_pos_eq (/ 1.548090806)) by (left; apply Rinv_0_lt_compat; lra).
  apply Rle_trans with (0.5 * / 290.680623072 * / 1.548090806).
  - apply Rmult_le_compat_r; [left; apply Rinv_0_lt_compat; lra |].
    eapply Rle_trans; [exact Hl |].
    apply Rmult_le_compat_r; [left; apply Rinv_0_lt_compat; lra | exact Hr].
  - lra.
Qed.

(** C9 (as the code has it).  [scoreToCP q] is
    [290.680623072 * tan (1.548090806 * q)] rounded to the nearest whole
    number, and [cpToScore] inverts the formula before rounding.  For
    every score [q] with [|q| < 0.99], the round trip
    [cpToScore (scoreToCP q)] differs from [q] by at most half a
    centipawn, [1 / (2 * 290.680623072 * 1.548090806)], about 0.00111:
    the error is the rounding of [scoreToCP] to a whole number, not one of
    machine arithmetic. *)
Theorem cpToScore_scoreToCP (q : R) :
  Rabs q < 0.99 ->
  Rabs (IZR (scoreToCP q) - 290.680623072 * tan (1.548090806 * q)) <= 0.5 /\
  (forall cp, 290.680623072 * tan (1.548090806 * cpToScore cp) = IZR cp) /\
  Rabs (cpToScore (scoreToCP q) - q) <= halfCentipawn.
Proof.
  intros Hq. split; [apply qRound_near |].
  split; [exact cpToScore_inverse |].
  apply roundtrip_within_half_centipawn. exact Hq.
Qed.

(** A score of 0.0011 is worth less than half a centipawn. *)
Lemma scoreToCP_small : scoreToCP 0.0011 = 0%Z.
Proof.
  unfold scoreToCP.
  set (x := 1.548090806 * 0.0011).
  set (y := 1 / (2 * 290.680623072) - 1 / 1000000).
  assert (Hy : 0 < y) by (unfold y; lra).
  pose proof PI_lower as Hpi.
  assert (Hx : 0 < x < y / (1 + y ^ 2)).
  { unfold x. split; [lra |].
    apply Rlt_le_trans with (y * 0.9999); [unfold y; lra |].
    apply div_le_lower; [nra |]. unfold y. nra. }
  destruct (atan_bounds y Hy) as [Hlow _].
  destruct (atan_bound y) as [_ Hup].
  assert (Htan0 : 0 < tan x).
  { rewrite <- tan_0. apply tan_increasing; lra. }
  assert (Htan : tan x < y).
  { rewrite <- (tan_atan y). apply tan_increasing; lra. }
  set (t := 290.680623072 * tan x).
  assert (Ht : 0 <= t /\ t + 0.5 < 1) by (unfold t, y in *; split; nra).
  destruct (qRound_spec t) as [H1 H2].
  assert (Hlt : (-1 < qRound t < 1)%Z).
  { split; apply lt_IZR; lra. }
  lia.
Qed.

(** C9, counterexample.  At [q = 0.0011] the round trip returns 0: it is
    off by 0.0011, more than the tolerance of 0.001 that the specification's
    own description allows and far more than machine rounding. *)
Lemma cpToScore_scoreToCP_not_within_tolerance :
  Rabs 0.0011 < 0.99 /\
  cpToScore (scoreToCP 0.0011) = 0 /\
  ~ Rabs (cpToScore (scoreToCP 0.0011) - 0.0011) <= 0.001.
Proof.
  assert (H0 : cpToScore (scoreToCP 0.0011) = 0).
  { rewrite scoreToCP_small. unfold cpToScore.
    replace (0 / 290.680623072) with 0 by lra.
    rewrite atan_0. lra. }
  split; [rewrite Rabs_pos_eq; lra |]. split; [exact H0 |].
  rewrite H0. unfold Rabs. destruct (Rcase_abs (0 - 0.0011)); lra.
Qed.

End CentipawnFacts.

(** ** The tree *)

Section TreeFacts.
Context `{Engine}.
Local Open Scope Q_scope.

(** Linear arithmetic over [Q] in this section. *)
Ltac lra := Lqa.lra.
Ltac nra := Lqa.nra.

(** *** Parent chains *)

Lemma ancestry_functional (h : Heap) o l1 l2 :
  ancestry h o l1 -> ancestry h o l2 -> l1 = l2.
Proof.
  intros H1. revert l2. induction H1 as [| p n l Hp _ IH]; intros l2 H2.
  - inversion H2. reflexivity.
  - inversion H2 as [| p' n' l' Hp' Hl']; subst.
    rewrite Hp in Hp'. injection Hp' as <-. f_equal. apply IH. exact Hl'.
Qed.

Lemma ancestry_suffix (h : Heap) o l1 x l2 :
  ancestry h o (l1 ++ x :: l2) -> ancestry h (Some x) (x :: l2).
Proof.
  revert o. induction l1 as [| y l1 IH]; intros o Ha; simpl in Ha.
  - inversion Ha; subst. econstructor; eassumption.
  - inversion Ha; subst. eapply IH. eassumption.
Qed.

Lemma ancestry_length_lookup (h : Heap) o l :
  ancestry h o l -> forall a, a ∈ l -> is_Some (h !! a).
Proof.
  induction 1 as [| p n l Hp _ IH]; intros a Ha.
  - inversion Ha.
  - apply elem_of_cons in Ha as [-> | Ha]; [eauto | apply IH, Ha].
Qed.

(** A chain that reaches the root never passes twice through a node. *)
Lemma ancestry_not_in (h : Heap) p n l :
  h !! p = Some n -> ancestry h (m_parent n) l -> p ∉ l.
Proof.
  intros Hp Ha Hin.
  apply list_elem_of_split in Hin as (l1 & l2 & ->).
  pose proof (ancestry_suffix _ _ _ _ _ Ha) as Hs.
  pose proof (ancestry_step _ _ _ _ Hp Ha) as Hf.
  pose proof (ancestry_functional _ _ _ _ Hs Hf) as Heq.
  apply (f_equal length) in Heq. simpl in Heq. rewrite length_app in Heq.
  simpl in Heq. lia.
Qed.

Lemma ancestry_NoDup (h : Heap) o l : ancestry h o l -> NoDup l.
Proof.
  induction 1 as [| p n l Hp Ha IH]; constructor.
  - eapply ancestry_not_in; eassumption.
  - exact IH.
Qed.

(** Writing a node outside the chain, or rewriting a node of the chain
    without touching its parent pointer, keeps the chain. *)
Lemma ancestry_insert (h : Heap) o l p x :
  ancestry h o l ->
  (forall n, h !! p = Some n -> m_parent x = m_parent n) ->
  ancestry (<[p := x]> h) o l.
Proof.
  intros Ha Hx. induction Ha as [| q n l Hq _ IH]; [constructor |].
  destruct (decide (p = q)) as [-> | Hne].
  - apply ancestry_step with x; [apply lookup_insert_eq |].
    rewrite (Hx n Hq). exact IH.
  - apply ancestry_step with n; [rewrite lookup_insert_ne; auto |]. exact IH.
Qed.

(** More generally, the chain only depends on the parent pointers of its
    own nodes. *)
Lemma ancestry_same_parents (h h1 : Heap) o l :
  ancestry h o l ->
  (forall a na, a ∈ l -> h !! a = Some na ->
     exists na', h1 !! a = Some na' /\ m_parent na' = m_parent na) ->
  ancestry h1 o l.
Proof.
  intros Ha. induction Ha as [| p pn l Hp _ IH]; intros Hsame; [constructor |].
  destruct (Hsame p pn) as (pn' & Hp' & Hpar); [left | exact Hp |].
  apply ancestry_step with pn'; [exact Hp' |]. rewrite Hpar. apply IH.
  intros a na Hin. apply Hsame. right. exact Hin.
Qed.

Lemma ancestry_ext (h h1 : Heap) (f : NodeId -> Node -> Node) o l :
  (forall a na, h !! a = Some na -> h1 !! a = Some (f a na)) ->
  (forall a na, m_parent (f a na) = m_parent na) ->
  ancestry h o l -> ancestry h1 o l.
Proof.
  intros Hsome Hparent Ha. apply (ancestry_same_parents h); [exact Ha |].
  intros a na _ Hna. exists (f a na). split; [apply Hsome, Hna | apply Hparent].
Qed.

Lemma depthFrom_ancestry (h : Heap) o l fuel d :
  ancestry h o l -> (length l <= fuel)%nat ->
  depthFrom fuel h o d = Some (d + Z.of_nat (length l))%Z.
Proof.
  intros Ha. revert fuel d. induction Ha as [| p n l Hp _ IH]; intros fuel d Hf.
  - destruct fuel; simpl; f_equal; lia.
  - destruct fuel as [| fuel]; [simpl in Hf; lia |].
    cbn [depthFrom]. rewrite Hp. cbn [mbind option_bind].
    rewrite IH by (simpl in Hf; lia). f_equal. simpl length. lia.
Qed.

Lemma historyFrom_ancestry (h : Heap) o l fuel :
  ancestry h o l -> (length l <= fuel)%nat ->
  historyFrom fuel h o = Some (gamesOf h l).
Proof.
  intros Ha. revert fuel. induction Ha as [| p n l Hp _ IH]; intros fuel Hf.
  - destruct fuel; reflexivity.
  - destruct fuel as [| fuel]; [simpl in Hf; lia |].
    cbn [historyFrom]. rewrite Hp. cbn [mbind option_bind].
    rewrite IH by (simpl in Hf; lia). cbn [mbind option_bind].
    unfold gamesOf. cbn [omap list_omap]. rewrite Hp. reflexivity.
Qed.

(** *** Back-propagation *)

Lemma entering_S (k : nat) (v : Q) : entering (S k) v = entering k (- v).
Proof. unfold entering. apply Nat.iter_succ_r. Qed.

(** The loop of [backPropagateValueFull] reaches every ancestor once, the
    [k]-th one with the value flipped [k + 1] times, and nothing else. *)
Lemma backPropagateLoop_effect (l : list NodeId) :
  forall (h : Heap) o fuel v,
    ancestry h o l -> (length l <= fuel)%nat ->
    exists h',
      backPropagateLoop fuel v o h = Some h' /\
      (forall k a, l !! k = Some a ->
         exists na, h !! a = Some na /\
                    h' !! a = Some (backPropagateValue (entering (S k) v) na)) /\
      (forall x, x ∉ l -> h' !! x = h !! x).
Proof.
  induction l as [| p l IH]; intros h o fuel v Ha Hf.
  - inversion Ha; subst. exists h.
    destruct fuel;
      (split; [reflexivity |]; split;
       [intros k a Hk; rewrite lookup_nil in Hk; discriminate | auto]).
  - inversion Ha as [| p' n l' Hp Hl]; subst.
    destruct fuel as [| fuel]; [simpl in Hf; lia |].
    pose proof (ancestry_not_in _ _ _ _ Hp Hl) as Hnotin.
    cbn [backPropagateLoop]. rewrite Hp. cbn [mbind option_bind].
    destruct (IH (<[p := backPropagateValue (- v) n]> h) (m_parent n) fuel (- v))
      as (h' & Hrun & Hanc & Hframe).
    { apply ancestry_insert; [exact Hl |]. intros n0 Hn0.
      rewrite Hp in Hn0. injection Hn0 as <-. reflexivity. }
    { simpl in Hf. lia. }
    exists h'. split; [exact Hrun |]. split.
    + intros [| k] a Hk; simpl in Hk.
      * injection Hk as <-. exists n. split; [exact Hp |].
        rewrite (Hframe p Hnotin), lookup_insert_eq. reflexivity.
      * destruct (Hanc k a Hk) as (na & Hna & Hna').
        assert (a <> p).
        { intros ->. apply Hnotin. eapply list_elem_of_lookup_2. exact Hk. }
        rewrite lookup_insert_ne in Hna by auto.
        exists na. split; [exact Hna |]. rewrite Hna', <- entering_S. reflexivity.
    + intros x Hx. apply not_elem_of_cons in Hx as [Hxp Hxl].
      rewrite (Hframe x Hxl), lookup_insert_ne by auto. reflexivity.
Qed.

(** What one call of [setQValueAndPropagate] does to the heap. *)
Lemma setQValueAndPropagate_effect (h : Heap) this n l fuel :
  h !! this = Some n -> ancestry h (m_parent n) l -> (length l <= fuel)%nat ->
  exists h',
    setQValueAndPropagate fuel h this = Some h' /\
    h' !! this = Some (setQValueFromRaw (incrementVisited n)) /\
    (forall k a, l !! k = Some a ->
       exists na, h !! a = Some na /\
         h' !! a = Some (backPropagateValue (entering (S k) (m_rawQValue n))
                           (creditPolicy k n na))) /\
    (forall x, x <> this -> x ∉ l -> h' !! x = h !! x).
Proof.
  intros Hn Ha Hf.
  pose proof (ancestry_not_in _ _ _ _ Hn Ha) as Hself.
  unfold setQValueAndPropagate. rewrite Hn. cbn [mbind option_bind].
  (* the heap after the parent's policy sum has been credited *)
  set (credit := fun (a : NodeId) (na : Node) =>
                   match l !! O with
                   | Some p => if decide (a = p) then creditPolicy O n na else na
                   | None => na
                   end).
  assert (Hh1 : exists h1,
             match m_parent n with
             | Some p =>
                 if (m_visited n =? 0)%N
                 then pn ← h !! p;
                      Some (<[p := set_policySum (m_policySum pn + pValue n) pn]> h)
                 else Some h
             | None => Some h
             end = Some h1 /\
             (forall a na, h !! a = Some na -> h1 !! a = Some (credit a na)) /\
             (forall a, h !! a = None -> h1 !! a = None)).
  { inversion Ha as [Hroot | p pn l' Hp Hl Hpar]; subst.
    - exists h. unfold credit. simpl. auto.
    - unfold credit. cbn [lookup list_lookup]. simpl creditPolicy.
      destruct (m_visited n =? 0)%N.
      + rewrite Hp. cbn [mbind option_bind]. eexists. split; [reflexivity |].
        split.
        * intros a na Hna. destruct (decide (a = p)) as [-> | Hne].
          -- rewrite lookup_insert_eq. rewrite Hp in Hna. injection Hna as <-.
             reflexivity.
          -- rewrite lookup_insert_ne by auto. exact Hna.
        * intros a Hna. rewrite lookup_insert_ne; [exact Hna |].
          intros <-. congruence.
      + exists h. split; [reflexivity |]. split; [| auto].
        intros a na Hna. destruct (decide (a = p)); exact Hna. }
  destruct Hh1 as (h1 & -> & Hsome & Hnone). cbn [mbind option_bind].
  assert (Hparent : forall a na, m_parent (credit a na) = m_parent na).
  { intros a na. unfold credit. destruct (l !! O); [| reflexivity].
    destruct (decide (a = n0)); [| reflexivity].
    simpl. destruct (m_visited n =? 0)%N; reflexivity. }
  assert (Hthis : credit this n = n).
  { unfold credit. destruct (l !! O) as [p |] eqn:Hl0; [| reflexivity].
    destruct (decide (this = p)) as [-> | _]; [| reflexivity].
    exfalso. apply Hself. eapply list_elem_of_lookup_2. exact Hl0. }
  rewrite (Hsome _ _ Hn), Hthis. cbn [mbind option_bind].
  unfold backPropagateValueFull. rewrite lookup_insert_eq.
  cbn [mbind option_bind].
  set (n' := setQValueFromRaw (incrementVisited n)).
  assert (Ha1 : ancestry h1 (m_parent n) l).
  { apply (ancestry_ext h h1 credit); assumption. }
  destruct (backPropagateLoop_effect l (<[this := n']> h1) (m_parent n') fuel (qValue n'))
    as (h' & Hrun & Hanc & Hframe).
  { apply ancestry_insert; [exact Ha1 |]. intros n0 Hn0.
    rewrite (Hsome _ _ Hn), Hthis in Hn0. injection Hn0 as <-. reflexivity. }
  { exact Hf. }
  exists h'. split; [exact Hrun |]. split; [| split].
  - rewrite (Hframe this Hself), lookup_insert_eq. reflexivity.
  - intros k a Hk. destruct (Hanc k a Hk) as (na & Hna & Hna').
    assert (Hne : a <> this).
    { intros ->. apply Hself. eapply list_elem_of_lookup_2. exact Hk. }
    rewrite lookup_insert_ne in Hna by auto.
    destruct (h !! a) as [na0 |] eqn:Hna0.
    + exists na0. split; [reflexivity |].
      rewrite (Hsome _ _ Hna0) in Hna. injection Hna as <-.
      rewrite Hna'. f_equal. f_equal.
      unfold credit. destruct k as [| k].
      * rewrite Hk. destruct (decide (a = a)); [reflexivity | contradiction].
      * simpl. destruct (l !! O) as [p |] eqn:Hl0; [| reflexivity].
        destruct (decide (a = p)) as [-> | _]; [| reflexivity].
        exfalso. pose proof (ancestry_NoDup _ _ _ Ha) as Hnd.
        pose proof (NoDup_lookup _ _ _ _ Hnd Hk Hl0). discriminate.
    + rewrite (Hnone _ Hna0) in Hna. discriminate.
  - intros x Hx Hxl. rewrite (Hframe x Hxl), lookup_insert_ne by auto.
    destruct (h !! x) as [nx |] eqn:Hnx.
    + rewrite (Hsome _ _ Hnx). f_equal. unfold credit.
      destruct (l !! O) as [p |] eqn:Hl0; [| reflexivity].
      destruct (decide (x = p)) as [-> | _]; [| reflexivity].
      exfalso. apply Hxl. eapply list_elem_of_lookup_2. exact Hl0.
    + apply Hnone. exact Hnx.
Qed.

(** C3.  [setQValueAndPropagate] on a node [n] that has a raw value: the
    parent's policy sum grows by [n]'s prior when [n] was unvisited; [n]
    itself gets one more visit, no virtual loss, an invalid [uCoeff] and
    its raw value as Q value; the [k]-th ancestor [a] (the parent is number
    0) receives the value [v] of [n] with the sign flipped once per ply
    and moves its Q value to
    [(a.visited * a.qValue + (- v)) / (a.visited + 1)], then counts one
    more visit; no other node changes. *)
Theorem setQValueAndPropagate_spec (h : Heap) this n l fuel :
  h !! this = Some n -> hasRawQValue n = true ->
  ancestry h (m_parent n) l -> (length l <= fuel)%nat ->
  exists h',
    setQValueAndPropagate fuel h this = Some h' /\
    (exists n',
       h' !! this = Some n' /\
       n' = set_qValue (m_rawQValue n)
              (set_visited (m_visited n + 1)%N
                 (set_virtualLoss 0%N (set_uCoeff unset n))) /\
       m_visited n' = (m_visited n + 1)%N /\ m_virtualLoss n' = 0%N /\
       m_uCoeff n' = unset /\ m_qValue n' = m_rawQValue n) /\
    (forall k a, l !! k = Some a ->
       exists na na',
         h !! a = Some na /\ h' !! a = Some na' /\
         let v := entering k (m_rawQValue n) in
         m_qValue na' =
           (toFloat (m_visited na) * m_qValue na + (- v))
           / toFloat (m_visited na + 1) /\
         m_visited na' = (m_visited na + 1)%N /\
         m_policySum na' =
           match k with
           | O => if (m_visited n =? 0)%N
                  then m_policySum na + m_pValue n else m_policySum na
           | S _ => m_policySum na
           end /\
         m_parent na' = m_parent na /\ m_children na' = m_children na /\
         m_potentials na' = m_potentials na /\
         m_rawQValue na' = m_rawQValue na /\ m_pValue na' = m_pValue na /\
         m_isExact na' = m_isExact na /\ m_isTB na' = m_isTB na /\
         m_game na' = m_game na) /\
    (forall x, x <> this -> x ∉ l -> h' !! x = h !! x).
Proof.
  intros Hn _ Ha Hf.
  destruct (setQValueAndPropagate_effect h this n l fuel Hn Ha Hf)
    as (h' & Hrun & Hthis & Hanc & Hframe).
  exists h'. split; [exact Hrun |]. split; [| split; [| exact Hframe]].
  - eexists. split; [exact Hthis |]. repeat split.
  - intros k a Hk. destruct (Hanc k a Hk) as (na & Hna & Hna').
    exists na. eexists. split; [exact Hna |]. split; [exact Hna' |].
    destruct k as [| k]; simpl; [destruct (m_visited n =? 0)%N |]; repeat split.
Qed.

(** *** The range of Q values *)

Lemma toFloat_nonneg (n : N) : 0 <= toFloat n.
Proof.
  unfold toFloat. change 0 with (inject_Z 0). rewrite <- Zle_Qle. lia.
Qed.

Lemma toFloat_add (n m : N) : toFloat (n + m) == toFloat n + toFloat m.
Proof. unfold toFloat. rewrite N2Z.inj_add, inject_Z_plus. reflexivity. Qed.

Lemma toFloat_succ (n : N) : toFloat (n + 1) == toFloat n + 1.
Proof. rewrite toFloat_add. reflexivity. Qed.

Lemma toFloat_zero (n : N) : (n =? 0)%N = true -> toFloat n == 0.
Proof. intros Hn. apply N.eqb_eq in Hn. subst. reflexivity. Qed.

(** A running mean stays between the bounds of what it averages. *)
Lemma backPropagateValue_bounded (B v : Q) (n : Node) :
  - B <= v <= B ->
  (hasQValue n = true -> - B <= m_qValue n <= B) ->
  - B <= m_qValue (backPropagateValue v n) <= B.
Proof.
  intros Hv Hq. cbn [backPropagateValue incrementVisited set_qValue set_visited
                      set_virtualLoss set_uCoeff m_qValue].
  pose proof (toFloat_nonneg (m_visited n)) as HV.
  rewrite (toFloat_succ (m_visited n)).
  set (V := toFloat (m_visited n)) in *.
  destruct (m_visited n =? 0)%N eqn:Hz.
  - assert (HV0 : V == 0) by (apply toFloat_zero; exact Hz).
    rewrite HV0. split;
      [apply Qle_shift_div_l | apply Qle_shift_div_r]; lra.
  - assert (Hb : - B <= m_qValue n <= B).
    { apply Hq. unfold hasQValue. apply N.ltb_lt. apply N.eqb_neq in Hz. lia. }
    split; [apply Qle_shift_div_l | apply Qle_shift_div_r]; try lra; nra.
Qed.

Lemma entering_bounded (B v : Q) (k : nat) :
  - B <= v <= B -> - B <= entering k v <= B.
Proof.
  intros Hv. induction k as [| k IH]; [exact Hv |].
  change (entering (S k) v) with (- entering k v). lra.
Qed.

Lemma creditPolicy_qValue (k : nat) (child pn : Node) :
  m_qValue (creditPolicy k child pn) = m_qValue pn /\
  m_visited (creditPolicy k child pn) = m_visited pn.
Proof.
  destruct k; simpl; [destruct (m_visited child =? 0)%N |]; split; reflexivity.
Qed.

(** C2 (as the code has it).  Let [B] bound the raw values scored so far:
    if every node that has a Q value has it within [[-B, B]] and the raw
    value of [n] lies within [[-B, B]], then [setQValueAndPropagate n]
    returns, [n] has a Q value, and every node that has a Q value still has
    it within [[-B, B]].  The bound is 1 for evaluator, draw and tablebase
    values; a checkmate scores above 1 (see [checkMateValue_above_one]), so
    a tree that holds one needs [B = 1 + MAX_DEPTH / 10000]. *)
Theorem qValue_within_bound (B : Q) (h : Heap) this n l fuel :
  h !! this = Some n -> ancestry h (m_parent n) l -> (length l <= fuel)%nat ->
  qBounded B h -> - B <= m_rawQValue n <= B ->
  exists h',
    setQValueAndPropagate fuel h this = Some h' /\
    (exists n', h' !! this = Some n' /\ hasQValue n' = true /\
                - B <= m_qValue n' <= B) /\
    qBounded B h'.
Proof.
  intros Hn Ha Hf Hb Hraw.
  destruct (setQValueAndPropagate_effect h this n l fuel Hn Ha Hf)
    as (h' & Hrun & Hthis & Hanc & Hframe).
  exists h'. split; [exact Hrun |]. split.
  - eexists. split; [exact Hthis |]. split; [| exact Hraw].
    unfold hasQValue. simpl. apply N.ltb_lt. lia.
  - intros i ni Hi Hq. destruct (decide (i = this)) as [-> | Hne].
    + rewrite Hthis in Hi. injection Hi as <-. exact Hraw.
    + destruct (decide (i ∈ l)) as [Hin | Hout].
      * apply list_elem_of_lookup_1 in Hin as [k Hk].
        destruct (Hanc k i Hk) as (na & Hna & Hna').
        rewrite Hna' in Hi. injection Hi as <-.
        apply backPropagateValue_bounded.
        -- apply (entering_bounded B _ (S k)). exact Hraw.
        -- destruct (creditPolicy_qValue k n na) as [-> Hvis].
           unfold hasQValue. rewrite Hvis. apply (Hb i na Hna).
      * rewrite (Hframe i Hne Hout) in Hi. apply (Hb i ni Hi Hq).
Qed.

(** The checkmate score as the specification writes it. *)
Lemma checkMateValue_eq (d : Z) :
  checkMateValue d == 1 + inject_Z (MAX_DEPTH - d) * (1 # 10000).
Proof.
  unfold checkMateValue. unfold Z.sub. rewrite inject_Z_plus, inject_Z_opp.
  change 0.0001 with (1 # 10000). ring.
Qed.

Lemma checkMateValue_decreasing (d1 d2 : Z) :
  (d1 < d2)%Z -> checkMateValue d2 < checkMateValue d1.
Proof.
  intros Hd. unfold checkMateValue. rewrite Zlt_Qlt in Hd.
  change 0.0001 with (1 # 10000). lra.
Qed.

Lemma checkMateValue_above_one (d : Z) :
  (d < MAX_DEPTH)%Z -> 1 < checkMateValue d.
Proof.
  intros Hd. unfold checkMateValue. rewrite Zlt_Qlt in Hd.
  change 0.0001 with (1 # 10000). lra.
Qed.

(** *** Repeated propagation from one node *)

Lemma scoreOnce_iter (k : nat) (n : Node) :
  m_rawQValue (Nat.iter k scoreOnce n) = m_rawQValue n /\
  m_isExact (Nat.iter k scoreOnce n) = m_isExact n /\
  m_parent (Nat.iter k scoreOnce n) = m_parent n /\
  m_visited (Nat.iter k scoreOnce n) = (m_visited n + N.of_nat k)%N /\
  ((1 <= k)%nat -> m_qValue (Nat.iter k scoreOnce n) = m_rawQValue n).
Proof.
  induction k as [| k (Hraw & Hex & Hpar & Hvis & Hq)].
  - simpl. repeat split; try reflexivity; [lia | lia].
  - rewrite !Nat.iter_succ. remember (Nat.iter k scoreOnce n) as x eqn:Hx.
    clear Hx. unfold scoreOnce. simpl.
    rewrite Hraw, Hex, Hpar, Hvis. repeat split; lia.
Qed.

Lemma backPropagateValue_iter_visited (k : nat) (w : Q) (n : Node) :
  m_visited (Nat.iter k (backPropagateValue w) n) = (m_visited n + N.of_nat k)%N /\
  m_parent (Nat.iter k (backPropagateValue w) n) = m_parent n.
Proof.
  induction k as [| k [IHv IHp]]; [simpl; split; [lia | reflexivity] |].
  cbn [Nat.iter]. simpl. rewrite IHv, IHp. split; [lia | reflexivity].
Qed.

(** After [k >= 1] updates with the same value [w], the running mean is
    [(visited * qValue + k * w) / (visited + k)]. *)
Lemma backPropagateValue_iter_mean (k : nat) (w : Q) (n : Node) :
  (1 <= k)%nat ->
  m_qValue (Nat.iter k (backPropagateValue w) n) ==
  (toFloat (m_visited n) * m_qValue n + inject_Z (Z.of_nat k) * w)
  / (toFloat (m_visited n) + inject_Z (Z.of_nat k)).
Proof.
  pose proof (toFloat_nonneg (m_visited n)) as HV.
  induction k as [| k IH]; [lia |]. intros _.
  rewrite Nat.iter_succ. cbn [backPropagateValue incrementVisited set_qValue
                      set_visited set_virtualLoss set_uCoeff m_qValue].
  destruct (backPropagateValue_iter_visited k w n) as [-> _].
  rewrite toFloat_succ, toFloat_add.
  replace (toFloat (N.of_nat k)) with (inject_Z (Z.of_nat k))
    by (unfold toFloat; f_equal; lia).
  rewrite Nat2Z.inj_succ. unfold Z.succ. rewrite inject_Z_plus.
  assert (Hk : 0 <= inject_Z (Z.of_nat k)).
  { change 0 with (inject_Z 0). rewrite <- Zle_Qle. lia. }
  set (V := toFloat (m_visited n)) in *. set (K := inject_Z (Z.of_nat k)) in *.
  change (inject_Z 1) with 1.
  destruct k as [| k].
  - simpl Nat.iter. subst K. change (inject_Z (Z.of_nat 0)) with 0.
    field. lra.
  - assert (HK1 : 1 <= K).
    { subst K. change 1 with (inject_Z 1). rewrite <- Zle_Qle. lia. }
    rewrite IH by lia. field. split; lra.
Qed.

Lemma creditPolicy_visited (k : nat) (n pn : Node) :
  (m_visited n =? 0)%N = false -> creditPolicy k n pn = pn.
Proof. intros Hv. destruct k; simpl; [rewrite Hv |]; reflexivity. Qed.

(** [k] calls of [setQValueAndPropagate] on the same node. *)
Lemma propagateTimes_effect (l : list NodeId) (this : NodeId) (fuel k : nat) :
  forall (h : Heap) n,
    h !! this = Some n -> ancestry h (m_parent n) l -> (length l <= fuel)%nat ->
    exists h',
      propagateTimes k fuel h this = Some h' /\
      h' !! this = Some (Nat.iter k scoreOnce n) /\
      (forall j a, l !! j = Some a ->
         exists na, h !! a = Some na /\
           h' !! a =
             Some (Nat.iter k (backPropagateValue (entering (S j) (m_rawQValue n)))
                     match k with O => na | S _ => creditPolicy j n na end)) /\
      (forall x, x <> this -> x ∉ l -> h' !! x = h !! x).
Proof.
  induction k as [| k IH]; intros h n Hn Ha Hf.
  - exists h. simpl. repeat split; auto. intros j a Hj.
    destruct (ancestry_length_lookup _ _ _ Ha a) as [na Hna];
      [eapply list_elem_of_lookup_2; exact Hj |].
    exists na. auto.
  - destruct (setQValueAndPropagate_effect h this n l fuel Hn Ha Hf)
      as (h1 & Hrun & Hthis & Hanc & Hframe).
    pose proof (ancestry_not_in _ _ _ _ Hn Ha) as Hself.
    assert (Ha1 : ancestry h1 (m_parent (scoreOnce n)) l).
    { apply (ancestry_same_parents h); [exact Ha |].
      intros a na Hin Hna. apply list_elem_of_lookup_1 in Hin as [j Hj].
      destruct (Hanc j a Hj) as (na0 & Hna0 & Hna1).
      rewrite Hna in Hna0. injection Hna0 as <-.
      eexists. split; [exact Hna1 |].
      destruct j; simpl; [destruct (m_visited n =? 0)%N |]; reflexivity. }
    destruct (IH h1 (scoreOnce n) Hthis Ha1 Hf) as (h' & Hrun' & Hthis' & Hanc' & Hframe').
    exists h'. cbn [propagateTimes]. rewrite Hrun. cbn [mbind option_bind].
    split; [exact Hrun' |]. split; [| split].
    + rewrite Hthis'. f_equal. symmetry. apply Nat.iter_succ_r.
    + intros j a Hj. destruct (Hanc j a Hj) as (na & Hna & Hna1).
      destruct (Hanc' j a Hj) as (na1 & Hna1' & Hna').
      rewrite Hna1 in Hna1'. injection Hna1' as <-.
      exists na. split; [exact Hna |]. rewrite Hna'. f_equal.
      change (m_rawQValue (scoreOnce n)) with (m_rawQValue n).
      rewrite Nat.iter_succ_r. f_equal.
      destruct k; [reflexivity |]. apply creditPolicy_visited.
      simpl. apply N.eqb_neq. lia.
    + intros x Hx Hxl. rewrite (Hframe' x Hx Hxl). apply Hframe; assumption.
Qed.

Lemma backPropagateValue_iter_isExact (k : nat) (w : Q) (n : Node) :
  m_isExact (Nat.iter k (backPropagateValue w) n) = m_isExact n.
Proof.
  induction k as [| k IH]; [reflexivity |]. cbn [Nat.iter]. simpl. exact IH.
Qed.

Lemma creditPolicy_isExact (k : nat) (child pn : Node) :
  m_isExact (creditPolicy k child pn) = m_isExact pn.
Proof.
  destruct k; simpl; [destruct (m_visited child =? 0)%N |]; reflexivity.
Qed.

(** C6 (as the code has it).  [setQValueAndPropagate] calls on a node, any
    number [k] of them in a row, as an exact node receives them: if there
    was at least one call, or if the node's Q value was its raw value
    before, the Q value is the raw value afterwards (copied, not
    averaged); the raw value and the exact mark stay, and the node has [k]
    more visits.  Every ancestor has [k] more visits too, and after at
    least one call its Q value is the running mean of its old value and
    [k] copies of the propagated value, which for the [j]-th ancestor is
    the raw value with the sign flipped [j + 1] times; this holds of an
    exact ancestor as of any other.  A node that is neither the node nor
    one of its ancestors is not touched.  So, when no ancestor is exact,
    the calls keep it true of the whole tree that every exact node that
    has been scored has its raw value as Q value. *)
Theorem exact_node_keeps_raw_value (h : Heap) this n l fuel k :
  h !! this = Some n -> hasRawQValue n = true ->
  ancestry h (m_parent n) l -> (length l <= fuel)%nat ->
  exists h' n',
    propagateTimes k fuel h this = Some h' /\
    h' !! this = Some n' /\
    ((1 <= k)%nat \/ m_qValue n = m_rawQValue n -> m_qValue n' = m_rawQValue n') /\
    m_rawQValue n' = m_rawQValue n /\
    m_isExact n' = m_isExact n /\
    m_visited n' = (m_visited n + N.of_nat k)%N /\
    (forall j a, l !! j = Some a ->
       exists na na',
         h !! a = Some na /\ h' !! a = Some na' /\
         m_isExact na' = m_isExact na /\
         m_visited na' = (m_visited na + N.of_nat k)%N /\
         ((1 <= k)%nat ->
          m_qValue na' ==
            (toFloat (m_visited na) * m_qValue na
             + inject_Z (Z.of_nat k) * - entering j (m_rawQValue n))
            / (toFloat (m_visited na) + inject_Z (Z.of_nat k)))) /\
    (forall x, x <> this -> x ∉ l -> h' !! x = h !! x) /\
    ((forall a na, a ∈ l -> h !! a = Some na -> m_isExact na = false) ->
     exactSettled h -> exactSettled h').
Proof.
  intros Hn _ Ha Hf.
  destruct (propagateTimes_effect l this fuel k h n Hn Ha Hf)
    as (h' & Hrun & Hthis & Hanc & Hframe).
  destruct (scoreOnce_iter k n) as (Hraw & Hexact & _ & Hvis & Hq).
  assert (Hkeep : (1 <= k)%nat \/ m_qValue n = m_rawQValue n ->
                  m_qValue (Nat.iter k scoreOnce n)
                  = m_rawQValue (Nat.iter k scoreOnce n)).
  { intros [Hk | Hbefore]; [rewrite Hraw; apply Hq; exact Hk |].
    destruct k as [| k]; [exact Hbefore | rewrite Hraw; apply Hq; lia]. }
  assert (Hancestors : forall j a, l !! j = Some a ->
            exists na na',
              h !! a = Some na /\ h' !! a = Some na' /\
              m_isExact na' = m_isExact na /\
              m_visited na' = (m_visited na + N.of_nat k)%N /\
              ((1 <= k)%nat ->
               m_qValue na' ==
                 (toFloat (m_visited na) * m_qValue na
                  + inject_Z (Z.of_nat k) * - entering j (m_rawQValue n))
                 / (toFloat (m_visited na) + inject_Z (Z.of_nat k)))).
  { intros j a Hj. destruct (Hanc j a Hj) as (na & Hna & Hna').
    exists na. eexists. split; [exact Hna |]. split; [exact Hna' |].
    destruct (creditPolicy_qValue j n na) as [Hcq Hcv].
    split; [| split].
    - rewrite backPropagateValue_iter_isExact.
      destruct k; [reflexivity | apply creditPolicy_isExact].
    - destruct k as [| k]; [simpl; lia |].
      destruct (backPropagateValue_iter_visited (S k)
                  (entering (S j) (m_rawQValue n)) (creditPolicy j n na)) as [-> _].
      rewrite Hcv. reflexivity.
    - intros Hk. destruct k as [| k]; [lia |].
      rewrite backPropagateValue_iter_mean by lia. rewrite Hcq, Hcv. reflexivity. }
  exists h', (Nat.iter k scoreOnce n).
  split; [exact Hrun |]. split; [exact Hthis |].
  split; [exact Hkeep |].
  split; [exact Hraw |].
  split; [exact Hexact |]. split; [exact Hvis |].
  split; [exact Hancestors |]. split; [exact Hframe |].
  intros Hplain Hset x nx' Hx' Hex' Hvisited'.
  destruct (decide (x = this)) as [-> | Hne].
  - rewrite Hthis in Hx'. injection Hx' as <-.
    destruct k as [| k]; [| apply Hkeep; left; lia].
    apply (Hset this n Hn); assumption.
  - destruct (decide (x ∈ l)) as [Hin | Hout].
    + apply list_elem_of_lookup_1 in Hin as (j & Hj).
      destruct (Hancestors j x Hj) as (na & na' & Hna & Hna' & Hex & _).
      rewrite Hx' in Hna'. injection Hna' as <-.
      rewrite Hex, (Hplain x na) in Hex'; [discriminate | | exact Hna].
      eapply list_elem_of_lookup_2. exact Hj.
    + rewrite (Hframe x Hne Hout) in Hx'. apply (Hset x nx' Hx'); assumption.
Qed.

(** *** Expansion *)

Lemma hasPotentials_false (n : Node) :
  hasPotentials n = false -> m_potentials n = [].
Proof. unfold hasPotentials. destruct (m_potentials n); [reflexivity | discriminate]. Qed.

Lemma Node_repetitions_effect (h : Heap) this n l fuel :
  h !! this = Some n -> ancestry h (m_parent n) l -> (length l <= fuel)%nat ->
  Node_repetitions fuel h this =
  Some (repetitionsOf n (gamesOf h l),
        <[this := cacheRepetitions n (gamesOf h l)]> h).
Proof.
  intros Hn Ha Hf. unfold Node_repetitions, repetitionsOf, cacheRepetitions.
  rewrite Hn. cbn [mbind option_bind].
  destruct (negb (repetitions (m_game n) =? -1)%Z) eqn:Hc.
  - rewrite insert_id by exact Hn. reflexivity.
  - rewrite (historyFrom_ancestry h _ l fuel Ha Hf). cbn [mbind option_bind].
    unfold repetitionsOf. rewrite Hc. reflexivity.
Qed.

(** The first three tests of [generatePotentials] pass. *)
Lemma generatePotentials_past_rules (h : Heap) this n l fuel :
  h !! this = Some n -> hasPotentials n = false ->
  ancestry h (m_parent n) l -> (length l <= fuel)%nat ->
  (halfMoveClock (m_game n) < 100)%Z ->
  isDeadPosition (m_game n) = false ->
  (repetitionsOf n (gamesOf h l) < 2)%Z ->
  generatePotentials fuel h this =
  probeOrGenerate fuel (<[this := cacheRepetitions n (gamesOf h l)]> h) this
    (cacheRepetitions n (gamesOf h l))
    [AskHalfMoveClock; AskDeadPosition; AskThreeFold].
Proof.
  intros Hn Hpot Ha Hf Hclock Hdead Hrep.
  unfold generatePotentials. rewrite Hn. cbn [mbind option_bind].
  rewrite Hpot. apply Z.leb_gt in Hclock. rewrite Hclock, Hdead.
  unfold isThreeFold. rewrite (Node_repetitions_effect h this n l fuel Hn Ha Hf).
  cbn [mbind option_bind]. rewrite lookup_insert_eq. cbn [mbind option_bind].
  apply Z.leb_gt in Hrep. rewrite Hrep. reflexivity.
Qed.

Lemma cacheRepetitions_fields (n : Node) (history : list Game) :
  m_parent (cacheRepetitions n history) = m_parent n /\
  m_potentials (cacheRepetitions n history) = m_potentials n /\
  m_children (cacheRepetitions n history) = m_children n /\
  m_isTB (cacheRepetitions n history) = m_isTB n /\
  m_qValue (cacheRepetitions n history) = m_qValue n /\
  m_visited (cacheRepetitions n history) = m_visited n.
Proof.
  unfold cacheRepetitions.
  destruct (negb (repetitions (m_game n) =? -1)%Z); repeat split.
Qed.

(** C7.  [generatePotentials] on a node that has no potentials yet (its
    asserted precondition): with a half-move clock of 100 or more it asks
    for nothing but the clock, sets the raw value to 0 and marks the node
    exact, and returns without consulting the tablebase or the move
    generator, so the node has no potentials and the children it had
    (none, for a node that is scored for the first time); a dead position
    ends the same way after the clock, and a threefold repetition after
    the clock and the dead-position test. *)
Theorem generatePotentials_drawn_by_rule (h : Heap) this n fuel :
  h !! this = Some n -> hasPotentials n = false ->
  ((100 <= halfMoveClock (m_game n))%Z ->
   endsAsDraw h this n [AskHalfMoveClock] (generatePotentials fuel h this)) /\
  ((halfMoveClock (m_game n) < 100)%Z -> isDeadPosition (m_game n) = true ->
   endsAsDraw h this n [AskHalfMoveClock; AskDeadPosition]
     (generatePotentials fuel h this)) /\
  (forall l,
     (halfMoveClock (m_game n) < 100)%Z -> isDeadPosition (m_game n) = false ->
     ancestry h (m_parent n) l -> (length l <= fuel)%nat ->
     (2 <= repetitionsOf n (gamesOf h l))%Z ->
     endsAsDraw h this n [AskHalfMoveClock; AskDeadPosition; AskThreeFold]
       (generatePotentials fuel h this)).
Proof.
  intros Hn Hpot.
  assert (Hnot : forall (a b : Question) l, a <> b -> a ∉ l -> a ∉ b :: l).
  { intros a b l Hab Hl Hin. apply elem_of_cons in Hin as [-> | Hin]; auto. }
  pose proof (hasPotentials_false n Hpot) as Hnil.
  split; [| split].
  - intros Hclock. exists (<[this := exactValue 0 n]> h), (exactValue 0 n).
    unfold generatePotentials. rewrite Hn. cbn [mbind option_bind].
    rewrite Hpot. apply Z.leb_le in Hclock. rewrite Hclock.
    rewrite lookup_insert_eq. simpl.
    repeat split; auto; try (repeat apply Hnot; try discriminate; apply not_elem_of_nil).
    intros x Hx. apply lookup_insert_ne. auto.
  - intros Hclock Hdead. exists (<[this := exactValue 0 n]> h), (exactValue 0 n).
    unfold generatePotentials. rewrite Hn. cbn [mbind option_bind].
    rewrite Hpot. apply Z.leb_gt in Hclock. rewrite Hclock, Hdead.
    rewrite lookup_insert_eq. simpl.
    repeat split; auto; try (repeat apply Hnot; try discriminate; apply not_elem_of_nil).
    intros x Hx. apply lookup_insert_ne. auto.
  - intros l Hclock Hdead Ha Hf Hrep.
    set (n1 := cacheRepetitions n (gamesOf h l)).
    exists (<[this := exactValue 0 n1]> (<[this := n1]> h)), (exactValue 0 n1).
    unfold generatePotentials. rewrite Hn. cbn [mbind option_bind].
    rewrite Hpot. apply Z.leb_gt in Hclock. rewrite Hclock, Hdead.
    unfold isThreeFold. rewrite (Node_repetitions_effect h this n l fuel Hn Ha Hf).
    cbn [mbind option_bind]. rewrite lookup_insert_eq. cbn [mbind option_bind].
    apply Z.leb_le in Hrep. rewrite Hrep. fold n1.
    rewrite lookup_insert_eq.
    destruct (cacheRepetitions_fields n (gamesOf h l))
      as (Hpar & Hp & Hc & Htb & Hq & Hv).
    fold n1 in Hpar, Hp, Hc, Htb, Hq, Hv. simpl.
    rewrite Hp, Hc, Htb, Hq, Hv, Hpar.
    repeat split; auto; try (repeat apply Hnot; try discriminate; apply not_elem_of_nil).
    intros x Hx. rewrite !lookup_insert_ne by auto. reflexivity.
Qed.

(** The move generator only ever appends potentials; when it leaves none
    it has not touched the node. *)
Lemma generatePotential_cases (mv : Move) (n : Node) :
  generatePotential mv n = n \/
  generatePotential mv n = set_potentials (m_potentials n ++ [newPotentialNode mv]) n.
Proof.
  unfold generatePotential. destruct (makeMove (m_game n) mv) as [g |]; [| auto].
  destruct (isChecked g (activeArmy (m_game n))); auto.
Qed.

Lemma fold_generatePotential_keeps (moves : list Move) (n : Node) :
  m_potentials n <> [] ->
  m_potentials (fold_left (fun nd mv => generatePotential mv nd) moves n) <> [].
Proof.
  revert n. induction moves as [| mv moves IH]; intros n Hn; [exact Hn |].
  simpl. apply IH. destruct (generatePotential_cases mv n) as [-> | ->]; [exact Hn |].
  simpl. destruct (m_potentials n); discriminate.
Qed.

Lemma generateMoves_none (n : Node) :
  m_potentials (generateMoves n) = [] -> generateMoves n = n.
Proof.
  unfold generateMoves. generalize (pseudoLegalMoves (m_game n)) as moves.
  intros moves. revert n. induction moves as [| mv moves IH]; intros n Hnone;
    [reflexivity |].
  simpl in *. destruct (generatePotential_cases mv n) as [Heq | Heq].
  - rewrite Heq in *. apply IH. exact Hnone.
  - exfalso. revert Hnone. apply fold_generatePotential_keeps.
    rewrite Heq. simpl. destruct (m_potentials n); discriminate.
Qed.

(** The margin [cpToScore 1], as a float, lies between 0.0022 and 0.0023. *)
Lemma cpToScore_1_margin :
  roundsTo (cpToScore 1) (Centipawn.cpToScore 1) ->
  22 # 10000 < cpToScore 1 /\ cpToScore 1 < 23 # 10000.
Proof.
  unfold roundsTo. intros Hr.
  assert (Hr' : (- (1 / 1000000) <= Q2R (cpToScore 1) - Centipawn.cpToScore 1
                 <= 1 / 1000000)%R).
  { unfold Rabs in Hr. destruct (Rcase_abs _) in Hr; Lra.lra. }
  pose proof cpToScore_1_bounds as Hb.
  split; apply Rlt_Qlt.
  - replace (Q2R (22 # 10000)) with (22 / 10000)%R
      by (unfold Q2R; simpl; Lra.lra).
    Lra.lra.
  - replace (Q2R (23 # 10000)) with (23 / 10000)%R
      by (unfold Q2R; simpl; Lra.lra).
    Lra.lra.
Qed.

Lemma tablebase_win_below_checkMate (d : Z) :
  roundsTo (cpToScore 1) (Centipawn.cpToScore 1) ->
  (d <= MAX_DEPTH + 22)%Z -> 1 - cpToScore 1 < checkMateValue d.
Proof.
  intros Hr Hd. destruct (cpToScore_1_margin Hr) as [Hlow _].
  unfold checkMateValue. rewrite Zle_Qle, inject_Z_plus in Hd.
  change 0.0001 with (1 # 10000). change (inject_Z 22) with 22 in Hd. lra.
Qed.

(** Beyond [MAX_DEPTH + 22] plies the order is the other way round. *)
Lemma deep_checkMate_below_tablebase_win (d : Z) :
  roundsTo (cpToScore 1) (Centipawn.cpToScore 1) ->
  (MAX_DEPTH + 23 <= d)%Z -> checkMateValue d < 1 - cpToScore 1.
Proof.
  intros Hr Hd. destruct (cpToScore_1_margin Hr) as [_ Hup].
  unfold checkMateValue. rewrite Zle_Qle, inject_Z_plus in Hd.
  change 0.0001 with (1 # 10000). change (inject_Z 23) with 23 in Hd. lra.
Qed.

Lemma isRootNode_cacheRepetitions (n : Node) (history : list Game) :
  isRootNode (cacheRepetitions n history) = isRootNode n.
Proof.
  unfold isRootNode. destruct (cacheRepetitions_fields n history) as [-> _].
  reflexivity.
Qed.

(** C4.  [generatePotentials] on a node [d] plies below the root that gets
    past the draw rules and the tablebase and for which the move generator
    yields no legal move: if the side to move is in check the position is
    marked checkmate, the raw value is
    [1 + MAX_DEPTH * 0.0001 - d * 0.0001 = 1 + (MAX_DEPTH - d) / 10000] and
    the node is exact; otherwise the position is marked stalemate, the raw
    value is 0 and the node is exact.  The checkmate value falls strictly
    as the depth grows, so the shallower of two checkmates scores
    higher. *)
Theorem generatePotentials_no_moves (h : Heap) this n l fuel :
  h !! this = Some n -> hasPotentials n = false ->
  ancestry h (m_parent n) l -> (length l <= fuel)%nat ->
  (halfMoveClock (m_game n) < 100)%Z ->
  isDeadPosition (m_game n) = false ->
  (repetitionsOf n (gamesOf h l) < 2)%Z ->
  let n1 := cacheRepetitions n (gamesOf h l) in
  isRootNode n = true \/ probe (m_game n1) = NotFound ->
  m_potentials (generateMoves n1) = [] ->
  let d := Z.of_nat (length l) in
  exists asked h' n',
    generatePotentials fuel h this = Some (asked, h') /\
    h' !! this = Some n' /\
    m_isExact n' = true /\ m_potentials n' = [] /\
    (if isChecked (m_game n1) (activeArmy (m_game n1))
     then isCheckMate (m_game n') = true /\
          m_rawQValue n' = checkMateValue d /\
          m_rawQValue n' == 1 + inject_Z (MAX_DEPTH - d) * (1 # 10000)
     else isStaleMate (m_game n') = true /\ m_rawQValue n' = 0) /\
    (forall d1 d2, (d1 < d2)%Z -> checkMateValue d2 < checkMateValue d1) /\
    (forall x, x <> this -> h' !! x = h !! x).
Proof.
  intros Hn Hpot Ha Hf Hclock Hdead Hrep n1 Hprobe Hnone d.
  rewrite (generatePotentials_past_rules h this n l fuel Hn Hpot Ha Hf Hclock Hdead Hrep).
  fold n1. destruct (cacheRepetitions_fields n (gamesOf h l))
    as (Hpar & Hp & _). fold n1 in Hpar, Hp.
  assert (Hstage : exists asked0,
             probeOrGenerate fuel (<[this := n1]> h) this n1
               [AskHalfMoveClock; AskDeadPosition; AskThreeFold]
             = generateOrFinish fuel (<[this := n1]> h) this n1 asked0).
  { unfold probeOrGenerate.
    replace (isRootNode n1) with (isRootNode n)
      by (symmetry; apply isRootNode_cacheRepetitions).
    destruct Hprobe as [Hr | Hnf].
    - rewrite Hr. eexists. reflexivity.
    - rewrite Hnf. destruct (isRootNode n); eexists; reflexivity. }
  destruct Hstage as (asked0 & ->).
  unfold generateOrFinish. rewrite (generateMoves_none n1 Hnone).
  assert (Hpot1 : hasPotentials n1 = false).
  { unfold hasPotentials. rewrite Hp. exact Hpot. }
  rewrite Hpot1.
  destruct (isChecked (m_game n1) (activeArmy (m_game n1))).
  - set (n3 := set_game (setCheckMate true (m_game n1)) n1).
    assert (Hd : depth fuel (<[this := n3]> (<[this := n1]> h)) this = Some d).
    { unfold depth. rewrite lookup_insert_eq. cbn [mbind option_bind].
      change (m_parent n3) with (m_parent n1). rewrite Hpar.
      rewrite (depthFrom_ancestry _ _ l); [reflexivity | | exact Hf].
      apply ancestry_insert; [apply ancestry_insert; [exact Ha |] |].
      - intros n0 Hn0. rewrite Hn in Hn0. injection Hn0 as <-. exact Hpar.
      - intros n0 Hn0. rewrite lookup_insert_eq in Hn0. injection Hn0 as <-.
        reflexivity. }
    rewrite Hd. cbn [mbind option_bind].
    eexists _, _, _. split; [reflexivity |].
    rewrite lookup_insert_eq. split; [reflexivity |]. simpl.
    rewrite Hp. split; [reflexivity |]. split; [apply hasPotentials_false, Hpot |].
    split; [split; [reflexivity | split; [reflexivity | apply checkMateValue_eq]] |].
    split; [exact checkMateValue_decreasing |].
    intros x Hx. rewrite !lookup_insert_ne by auto. reflexivity.
  - eexists _, _, _. split; [reflexivity |].
    rewrite lookup_insert_eq. split; [reflexivity |]. simpl.
    rewrite Hp. split; [reflexivity |]. split; [apply hasPotentials_false, Hpot |].
    split; [split; reflexivity |].
    split; [exact checkMateValue_decreasing |].
    intros x Hx. rewrite !lookup_insert_ne by auto. reflexivity.
Qed.

(** C5 (as the code has it).  When the tablebase probe of a node that is
    not the root answers win, loss or draw, [generatePotentials] sets the
    raw value to [1 - cpToScore 1], [-1 + cpToScore 1] or 0, marks the
    node exact and marks it as a tablebase node, without generating moves.
    The value of a tablebase win is strictly below the checkmate value
    [1 + (MAX_DEPTH - d) / 10000] for every depth [d] up to
    [MAX_DEPTH + 22]. *)
Theorem generatePotentials_tablebase (h : Heap) this n l fuel :
  h !! this = Some n -> hasPotentials n = false -> isRootNode n = false ->
  ancestry h (m_parent n) l -> (length l <= fuel)%nat ->
  (halfMoveClock (m_game n) < 100)%Z ->
  isDeadPosition (m_game n) = false ->
  (repetitionsOf n (gamesOf h l) < 2)%Z ->
  let n1 := cacheRepetitions n (gamesOf h l) in
  probe (m_game n1) <> NotFound ->
  roundsTo (cpToScore 1) (Centipawn.cpToScore 1) ->
  exists h' n',
    generatePotentials fuel h this =
      Some ([AskHalfMoveClock; AskDeadPosition; AskThreeFold; AskTablebase], h') /\
    h' !! this = Some n' /\
    m_isExact n' = true /\ m_isTB n' = true /\ m_potentials n' = [] /\
    m_rawQValue n' =
      match probe (m_game n1) with
      | Win => 1 - cpToScore 1
      | Loss => -1 + cpToScore 1
      | _ => 0
      end /\
    (forall d, (d <= MAX_DEPTH + 22)%Z -> 1 - cpToScore 1 < checkMateValue d) /\
    (forall x, x <> this -> h' !! x = h !! x).
Proof.
  intros Hn Hpot Hroot Ha Hf Hclock Hdead Hrep n1 Hprobe Hround.
  rewrite (generatePotentials_past_rules h this n l fuel Hn Hpot Ha Hf Hclock Hdead Hrep).
  fold n1. destruct (cacheRepetitions_fields n (gamesOf h l))
    as (Hpar & Hp & _). fold n1 in Hpar, Hp.
  unfold probeOrGenerate.
  replace (isRootNode n1) with false
    by (symmetry; unfold n1; rewrite isRootNode_cacheRepetitions; exact Hroot).
  assert (Hmargin : forall d, (d <= MAX_DEPTH + 22)%Z ->
                              1 - cpToScore 1 < checkMateValue d).
  { intros d Hd. apply tablebase_win_below_checkMate; assumption. }
  destruct (probe (m_game n1)); [contradiction | | |];
    (eexists _, _; split; [reflexivity |];
     rewrite lookup_insert_eq; split; [reflexivity |]; simpl; rewrite Hp;
     split; [reflexivity |]; split; [reflexivity |];
     split; [apply hasPotentials_false, Hpot |];
     split; [reflexivity |]; split; [exact Hmargin |];
     intros x Hx; rewrite !lookup_insert_ne by auto; reflexivity).
Qed.

(** *** Re-rooting *)

Lemma indexOf_split (x : NodeId) (l : list NodeId) :
  x ∈ l ->
  exists i l1 l2,
    indexOf x l = Some i /\ l = l1 ++ x :: l2 /\ delete i l = l1 ++ l2.
Proof.
  induction l as [| y l IH]; intros Hin; [inversion Hin |].
  simpl. destruct (Nat.eqb y x) eqn:Heq.
  - apply Nat.eqb_eq in Heq. subst. exists O, [], l. auto.
  - apply Nat.eqb_neq in Heq. apply elem_of_cons in Hin as [-> | Hin]; [congruence |].
    destruct (IH Hin) as (i & l1 & l2 & -> & -> & Hdel).
    exists (S i), (y :: l1), l2. simpl. rewrite Hdel. auto.
Qed.

Lemma rootNode_descends (h : Heap) c nc :
  h !! c = Some nc -> m_parent nc = None ->
  forall d k fuel, descends h c d k -> (k <= fuel)%nat -> rootNode fuel h d = Some c.
Proof.
  intros Hc Hroot d k fuel Hd. revert fuel.
  induction Hd as [| d n p k Hne Hn Hp _ IH]; intros fuel Hf.
  - destruct fuel; simpl; rewrite Hc; simpl; rewrite Hroot; reflexivity.
  - destruct fuel as [| fuel]; [lia |].
    cbn [rootNode]. rewrite Hn. cbn [mbind option_bind]. rewrite Hp.
    apply IH. lia.
Qed.

Lemma descends_same_parents (h h' : Heap) c d k :
  (forall x n, x <> c -> h !! x = Some n ->
     exists n', h' !! x = Some n' /\ m_parent n' = m_parent n) ->
  descends h c d k -> descends h' c d k.
Proof.
  intros Hsame Hd. induction Hd as [| d n p k Hne Hn Hp _ IH]; [constructor |].
  destruct (Hsame d n Hne Hn) as (n' & Hn' & Hpar).
  apply descends_up with n' p; [exact Hne | exact Hn' | congruence | exact IH].
Qed.

(** C8.  [setAsRootNode] on a node [c] whose parent [p] lists it once among
    its children: [c] is taken out of [p]'s children, which keep their
    order, and [c]'s parent becomes absent; nothing else changes in [c],
    in [p] or in any other node; afterwards [rootNode] answers [c] from
    [c] and from every node below [c]. *)
Theorem setAsRootNode_spec (h : Heap) c n p pn :
  h !! c = Some n -> m_parent n = Some p -> h !! p = Some pn -> p <> c ->
  c ∈ m_children pn -> NoDup (m_children pn) ->
  exists h',
    setAsRootNode h c = Some h' /\
    h' !! c = Some (set_parent None n) /\
    (exists l1 l2,
       m_children pn = l1 ++ c :: l2 /\
       h' !! p = Some (set_children (l1 ++ l2) pn) /\
       c ∉ l1 ++ l2) /\
    (forall x, x <> c -> x <> p -> h' !! x = h !! x) /\
    (forall d k fuel, descends h c d k -> (k <= fuel)%nat ->
       rootNode fuel h' d = Some c).
Proof.
  intros Hc Hpar Hp Hne Hin Hnd.
  destruct (indexOf_split c (m_children pn) Hin) as (i & l1 & l2 & Hidx & Hsplit & Hdel).
  unfold setAsRootNode. rewrite Hc. cbn [mbind option_bind]. rewrite Hpar, Hp.
  cbn [mbind option_bind]. rewrite Hidx. cbn [mbind option_bind].
  rewrite lookup_insert_ne by exact Hne. rewrite Hc. cbn [mbind option_bind].
  rewrite Hdel. eexists. split; [reflexivity |].
  assert (Hc' : (<[c := set_parent None n]> (<[p := set_children (l1 ++ l2) pn]> h))
                !! c = Some (set_parent None n)) by apply lookup_insert_eq.
  split; [exact Hc' |]. split; [| split].
  - exists l1, l2. split; [exact Hsplit |]. split.
    + rewrite lookup_insert_ne by auto. apply lookup_insert_eq.
    + rewrite Hsplit in Hnd. apply NoDup_app in Hnd as (_ & Hl1 & Hnd2).
      apply NoDup_cons in Hnd2 as [Hl2 _].
      intros Hin'. apply elem_of_app in Hin' as [Hin' | Hin']; [| contradiction].
      apply (Hl1 c Hin'). left.
  - intros x Hxc Hxp. rewrite !lookup_insert_ne by auto. reflexivity.
  - intros d k fuel Hd Hf.
    apply (rootNode_descends _ c (set_parent None n) Hc' eq_refl d k fuel); [| exact Hf].
    apply (descends_same_parents h); [| exact Hd].
    intros x nx Hx Hnx. rewrite lookup_insert_ne by auto.
    destruct (decide (x = p)) as [-> | Hxp].
    + rewrite lookup_insert_eq. rewrite Hp in Hnx. injection Hnx as <-.
      eexists. split; reflexivity.
    + rewrite lookup_insert_ne by auto. eauto.
Qed.

(** *** Principal variation *)

Lemma qFuzzyCompare_eq (p1 p2 : Q) : p1 == p2 -> qFuzzyCompare p1 p2 = true.
Proof.
  intros Heq. unfold qFuzzyCompare. apply Qle_bool_iff.
  assert (Hz : p1 - p2 == 0) by lra. rewrite Hz.
  change (Qabs 0) with 0.
  apply Qle_trans with 0; [lra |].
  apply Q.min_glb; apply Qabs_nonneg.
Qed.

(** C10.  On a node that is not the root and whose prior is still the
    constructor's unset value, [principalVariation] returns the empty
    string and leaves the depth counter as it was. *)
Theorem principalVariation_unset_prior (h : Heap) this n (depth : Z) fuel :
  h !! this = Some n -> isRootNode n = false -> m_pValue n == unset ->
  principalVariation (S fuel) h this depth = Some (EmptyString, depth).
Proof.
  intros Hn Hroot Hp. cbn [principalVariation]. rewrite Hn.
  cbn [mbind option_bind]. rewrite Hroot. unfold hasPValue.
  rewrite (qFuzzyCompare_eq _ _ Hp). reflexivity.
Qed.

(** *** Virtual-loss distance *)

(** The first two cases of [virtualLossDistance]: a zero difference gives
    1 (against zero, [qFuzzyCompare] only accepts zero itself) and a
    second candidate whose Q value is above the best score gives
    [vldMax]. *)
Lemma virtualLossDistanceOf_first_cases (wec q p uCoeff : Q) :
  (wec - q == 0 -> virtualLossDistanceOf wec q p uCoeff = 1%Z) /\
  (wec < q -> virtualLossDistanceOf wec q p uCoeff = vldMax) /\
  (qFuzzyCompare (wec - q) 0 = true -> wec - q == 0).
Proof.
  assert (Hfuzzy : qFuzzyCompare (wec - q) 0 = true -> wec - q == 0).
  { unfold qFuzzyCompare. intros Hf. apply Qle_bool_iff in Hf.
    change (Qabs 0) with 0 in Hf.
    pose proof (Q.le_min_r (Qabs (wec - q)) 0) as Hmin.
    pose proof (Qabs_nonneg (wec - q - 0)) as Hnn.
    assert (Ha : Qabs (wec - q - 0) == 0) by lra.
    assert (Hb : wec - q - 0 == 0).
    { destruct (Qabs_Qle_condition (wec - q - 0) 0) as [Hc _].
      assert (Hle : Qabs (wec - q - 0) <= 0) by lra.
      destruct (Hc Hle). lra. }
    lra. }
  split; [| split; [| exact Hfuzzy]].
  - intros Hz. unfold virtualLossDistanceOf.
    rewrite (qFuzzyCompare_eq _ _ Hz). reflexivity.
  - intros Hlt. unfold virtualLossDistanceOf.
    destruct (qFuzzyCompare (wec - q) 0).
    + specialize (Hfuzzy eq_refl). lra.
    + unfold Qgt_bool. destruct (Qle_bool q wec) eqn:Hle; [| reflexivity].
      apply Qle_bool_iff in Hle. lra.
Qed.

(** With the sign the code gives the quotient, a second candidate with a
    non-negative prior and exploration coefficient always yields 1. *)
Lemma virtualLossDistanceOf_collapses (wec q p uCoeff : Q) :
  q < wec -> 0 <= p * uCoeff -> virtualLossDistanceOf wec q p uCoeff = 1%Z.
Proof.
  intros Hlt Hpu. unfold virtualLossDistanceOf.
  destruct (qFuzzyCompare (wec - q) 0); [reflexivity |].
  unfold Qgt_bool. assert (Hle : Qle_bool q wec = true)
    by (apply Qle_bool_iff; lra).
  rewrite Hle. simpl negb. cbv iota.
  unfold qMax, qCeil. apply Z.max_l.
  change 1%Z with (Qceiling 1). apply Qceiling_resp_le.
  apply Qle_shift_div_r; lra.
Qed.

End TreeFacts.

(** ** The statements at work on the example engine *)

Section Checks.
#[local] Existing Instance exampleChess.
#[local] Existing Instance exampleEngine.
Ltac chain :=
  repeat first [ apply ancestry_root
               | eapply ancestry_step; [reflexivity | simpl] ].

(** The example engine's [cpToScore 1 = 1/450] is the real value up to
    rounding. *)
Lemma exampleEngine_cpToScore_rounds :
  roundsTo (cpToScore 1) (Centipawn.cpToScore 1).
Proof.
  unfold roundsTo. pose proof cpToScore_1_bounds as Hb.
  change (cpToScore 1) with (1 # 450)%Q.
  replace (Q2R (1 # 450)%Q) with (1 / 450)%R
    by (unfold Q2R; cbn [Qnum Qden]; Lra.lra).
  apply Rabs_le. Lra.lra.
Qed.

(** C1.  The second candidate of [twoCandidates] has Q value 0, prior 1
    and exploration coefficient 3; the best score is 1.  The documented
    quotient [(q + p * uCoeff - wec) / (wec - q)] is 2, and so is the
    documented distance; the code negates the quotient and answers 1. *)
Theorem virtualLossDistance_negates_quotient :
  MCTS_qValue twoCandidates (MCTSChild 2) = Some 0%Q /\
  MCTS_pValue twoCandidates (MCTSChild 2) = Some 1%Q /\
  MCTS_uCoeff twoCandidates (MCTSChild 2) = Some 3%Q /\
  virtualLossDistance twoCandidates 1 (MCTSChild 1) (MCTSChild 2) = Some 1%Z /\
  virtualLossDistance_documented 1 0 1 3 = 2%Z.
Proof. repeat split; vm_compute; reflexivity. Qed.

(** C2, counterexample.  A checkmate one ply below the root
    ([MAX_DEPTH = 127]): after [generatePotentials] and
    [setQValueAndPropagate] the node has a Q value, and it is 1.0126. *)
Lemma checkmate_qValue_above_one :
  exists h n,
    mateInOne = Some h /\ h !! 1%nat = Some n /\
    hasQValue n = true /\ (m_qValue n == 10126 # 10000)%Q /\
    ~ (- (1) <= m_qValue n <= 1)%Q.
Proof.
  eexists _, _. split; [vm_compute; reflexivity |].
  split; [vm_compute; reflexivity |].
  split; [reflexivity |]. split; [reflexivity |].
  intros [_ Hle]. vm_compute in Hle. apply Hle. reflexivity.
Qed.

(** C2, witness: the three-ply tree, whose values lie within [[-1, 1]]. *)
Lemma qValue_within_bound_witness :
  exists h',
    setQValueAndPropagate 2 threePly 2 = Some h' /\ qBounded 1 h'.
Proof.
  destruct (qValue_within_bound 1 threePly 2 threePlyLeaf [1; 0]%nat 2)
    as (h' & Hrun & _ & Hb).
  - reflexivity.
  - simpl. chain.
  - simpl. lia.
  - intros i n Hi Hq. unfold threePly in Hi.
    apply lookup_insert_Some in Hi as [[_ <-] | [_ Hi]];
      [discriminate Hq |].
    apply lookup_insert_Some in Hi as [[_ <-] | [_ Hi]];
      [vm_compute; split; discriminate |].
    apply lookup_insert_Some in Hi as [[_ <-] | [_ Hi]];
      [vm_compute; split; discriminate |].
    rewrite lookup_empty in Hi. discriminate.
  - vm_compute. split; discriminate.
  - exists h'. split; assumption.
Defined.

(** C3, witness: scoring the leaf of the three-ply tree, whose raw value
    is 449/450.  The child (one visit, Q value -1/2) is credited with the
    leaf's prior and averages in -449/450; the root (two visits, Q value
    1/4) averages in +449/450. *)
Lemma setQValueAndPropagate_spec_witness :
  hasRawQValue threePlyLeaf = true /\
  exists h' leaf child root,
    setQValueAndPropagate 2 threePly 2 = Some h' /\
    h' !! 2%nat = Some leaf /\ h' !! 1%nat = Some child /\
    h' !! 0%nat = Some root /\
    (m_qValue leaf == 449 # 450)%Q /\ m_visited leaf = 1%N /\
    (m_qValue child == (1 * - (1 # 2) + - (449 # 450)) / 2)%Q /\
    (m_policySum child == 1 # 3)%Q /\ m_visited child = 2%N /\
    (m_qValue root == (2 * (1 # 4) + (449 # 450)) / 3)%Q /\
    m_visited root = 3%N.
Proof.
  split; [reflexivity |].
  destruct (setQValueAndPropagate_spec threePly 2 threePlyLeaf [1; 0]%nat 2)
    as (h' & Hrun & (leaf & Hleaf & _ & Hlv & _ & _ & Hlq) & Hanc & _).
  - reflexivity.
  - reflexivity.
  - simpl. chain.
  - simpl. lia.
  - destruct (Hanc 0%nat 1%nat eq_refl)
      as (c & child & Hc & Hchild & Hcq & Hcv & Hcp & _).
    destruct (Hanc 1%nat 0%nat eq_refl)
      as (r & root & Hr & Hroot & Hrq & Hrv & _).
    assert (Ec : Some threePlyChild = Some c) by exact Hc.
    assert (Er : Some threePlyRoot = Some r) by exact Hr.
    injection Ec as <-. injection Er as <-.
    exists h', leaf, child, root.
    split; [exact Hrun |]. split; [exact Hleaf |]. split; [exact Hchild |].
    split; [exact Hroot |].
    split; [rewrite Hlq; reflexivity |]. split; [rewrite Hlv; reflexivity |].
    split; [rewrite Hcq; reflexivity |].
    split; [rewrite Hcp; reflexivity |]. split; [rewrite Hcv; reflexivity |].
    split; [rewrite Hrq; reflexivity |]. rewrite Hrv. reflexivity.
Defined.

(** C4, witness: a checkmate and a stalemate one ply below the root. *)
Lemma generatePotentials_no_moves_witness :
  (exists asked h' n',
     generatePotentials 1 (rootAndChild 2 0) 1 = Some (asked, h') /\
     h' !! 1%nat = Some n' /\ isCheckMate (m_game n') = true /\
     (m_rawQValue n' == 10126 # 10000)%Q) /\
  (exists asked h' n',
     generatePotentials 1 (rootAndChild 3 0) 1 = Some (asked, h') /\
     h' !! 1%nat = Some n' /\ isStaleMate (m_game n') = true /\
     m_rawQValue n' = 0%Q).
Proof.
  split.
  - destruct (generatePotentials_no_moves (rootAndChild 2 0) 1 (freshChild 2 0)
                [0%nat] 1) as (asked & h' & n' & Hrun & Hn' & _ & _ & Hcase & _).
    + reflexivity.
    + reflexivity.
    + simpl. chain.
    + simpl. lia.
    + simpl. lia.
    + reflexivity.
    + vm_compute. reflexivity.
    + right. reflexivity.
    + reflexivity.
    + exists asked, h', n'. split; [exact Hrun |]. split; [exact Hn' |].
      change (isChecked _ _) with true in Hcase. cbv iota in Hcase.
      destruct Hcase as (Hmate & Hraw & _).
      split; [exact Hmate |]. rewrite Hraw. reflexivity.
  - destruct (generatePotentials_no_moves (rootAndChild 3 0) 1 (freshChild 3 0)
                [0%nat] 1) as (asked & h' & n' & Hrun & Hn' & _ & _ & Hcase & _).
    + reflexivity.
    + reflexivity.
    + simpl. chain.
    + simpl. lia.
    + simpl. lia.
    + reflexivity.
    + vm_compute. reflexivity.
    + right. reflexivity.
    + reflexivity.
    + exists asked, h', n'. split; [exact Hrun |]. split; [exact Hn' |].
      change (isChecked _ _) with false in Hcase. cbv iota in Hcase.
      exact Hcase.
Defined.

(** C5, witness: a tablebase win one ply below the root. *)
Lemma generatePotentials_tablebase_witness :
  exists h' n',
    generatePotentials 1 (rootAndChild 4 0) 1 =
      Some ([AskHalfMoveClock; AskDeadPosition; AskThreeFold; AskTablebase], h') /\
    h' !! 1%nat = Some n' /\ m_isTB n' = true.
Proof.
  destruct (generatePotentials_tablebase (rootAndChild 4 0) 1 (freshChild 4 0)
              [0%nat] 1) as (h' & n' & Hrun & Hn' & _ & Htb & _).
  - reflexivity.
  - reflexivity.
  - reflexivity.
  - simpl. chain.
  - simpl. lia.
  - simpl. lia.
  - reflexivity.
  - vm_compute. reflexivity.
  - vm_compute. discriminate.
  - exact exampleEngine_cpToScore_rounds.
  - exists h', n'. repeat split; assumption.
Defined.

(** C5, counterexample.  With [MAX_DEPTH = 127] and [cpToScore 1 = 1/450]
    a checkmate 150 plies below the root scores 0.9977, below the
    tablebase win's 0.99777... *)
Lemma tablebase_win_above_deep_checkmate :
  roundsTo (cpToScore 1) (Centipawn.cpToScore 1) /\
  ~ (1 - cpToScore 1 < checkMateValue 150)%Q.
Proof.
  split; [exact exampleEngine_cpToScore_rounds |].
  vm_compute. discriminate.
Qed.

(** C6, witness: three visits of the exact leaf of the three-ply tree. *)
Lemma exact_node_keeps_raw_value_witness :
  m_isExact threePlyLeaf = true /\
  exists h' n',
    propagateTimes 3 2 threePly 2 = Some h' /\
    h' !! 2%nat = Some n' /\ m_qValue n' = m_rawQValue n'.
Proof.
  split; [reflexivity |].
  destruct (exact_node_keeps_raw_value threePly 2 threePlyLeaf [1; 0]%nat 2 3)
    as (h' & n' & Hrun & Hn' & Hq & _).
  - reflexivity.
  - reflexivity.
  - simpl. chain.
  - simpl. lia.
  - exists h', n'. split; [exact Hrun |]. split; [exact Hn' |].
    apply Hq. left. lia.
Defined.

(** C7, witness: a half-move clock of exactly 100 in a position that the
    tablebase would have scored; a dead position; the third occurrence of
    a position. *)
Lemma generatePotentials_drawn_by_rule_witness :
  probe (gameAt 4 100) = Win /\
  endsAsDraw (rootAndChild 4 100) 1 (freshChild 4 100) [AskHalfMoveClock]
    (generatePotentials 0 (rootAndChild 4 100) 1) /\
  endsAsDraw (rootAndChild 1 0) 1 (freshChild 1 0)
    [AskHalfMoveClock; AskDeadPosition]
    (generatePotentials 0 (rootAndChild 1 0) 1) /\
  endsAsDraw repeatedLine 4 (newNode (Some 3%nat) (gameAt 0 5))
    [AskHalfMoveClock; AskDeadPosition; AskThreeFold]
    (generatePotentials 4 repeatedLine 4).
Proof.
  split; [reflexivity |]. split; [| split].
  - destruct (generatePotentials_drawn_by_rule (rootAndChild 4 100) 1
                (freshChild 4 100) 0) as (Hclock & _).
    + reflexivity.
    + reflexivity.
    + apply Hclock. simpl. lia.
  - destruct (generatePotentials_drawn_by_rule (rootAndChild 1 0) 1
                (freshChild 1 0) 0) as (_ & Hdead & _).
    + reflexivity.
    + reflexivity.
    + apply Hdead; [simpl; lia | reflexivity].
  - destruct (generatePotentials_drawn_by_rule repeatedLine 4
                (newNode (Some 3%nat) (gameAt 0 5)) 4) as (_ & _ & Hthree).
    + reflexivity.
    + reflexivity.
    + apply (Hthree [3; 2; 1; 0]%nat).
      * simpl. lia.
      * reflexivity.
      * simpl. chain.
      * simpl. lia.
      * vm_compute. discriminate.
Defined.

(** C8, witness: the child of [rootAndChild] becomes the root. *)
Lemma setAsRootNode_spec_witness :
  exists h',
    setAsRootNode (rootAndChild 0 0) 1 = Some h' /\
    rootNode 0 h' 1 = Some 1%nat.
Proof.
  destruct (setAsRootNode_spec (rootAndChild 0 0) 1 (freshChild 0 0) 0 scoredRoot)
    as (h' & Hrun & _ & _ & _ & Hroot).
  - reflexivity.
  - reflexivity.
  - reflexivity.
  - lia.
  - simpl. left.
  - simpl. apply NoDup_singleton.
  - exists h'. split; [exact Hrun |].
    apply (Hroot 1%nat 0%nat 0%nat); [constructor | lia].
Defined.

(** C10, witness: the fresh child of [rootAndChild] has no prior yet. *)
Lemma principalVariation_unset_prior_witness :
  principalVariation 1 (rootAndChild 0 0) 1 7 = Some (EmptyString, 7%Z).
Proof.
  apply (principalVariation_unset_prior (rootAndChild 0 0) 1 (freshChild 0 0) 7 0).
  - reflexivity.
  - reflexivity.
  - reflexivity.
Defined.

End Checks.

Section CentipawnChecks.
Import Centipawn.
Local Open Scope R_scope.

(** C9, witness: the round trip of a score of one half. *)
Lemma cpToScore_scoreToCP_witness :
  Rabs 0.5 < 0.99 /\ Rabs (cpToScore (scoreToCP 0.5) - 0.5) <= halfCentipawn.
Proof.
  assert (Hq : Rabs 0.5 < 0.99).
  { unfold Rabs. destruct (Rcase_abs 0.5); lra. }
  split; [exact Hq | apply (cpToScore_scoreToCP 0.5 Hq)].
Defined.

End CentipawnChecks.

(** * Further properties *)

Section MoreFacts.
Context `{Search}.
Local Open Scope Q_scope.

Ltac lra := Lqa.lra.
Ltac nra := Lqa.nra.

(** ** Expansion *)

Lemma generatePotential_legal (mv : Move) (n : Node) :
  generatePotential mv n =
  if legalMove n mv
  then set_potentials (m_potentials n ++ [newPotentialNode mv]) n else n.
Proof.
  unfold generatePotential, legalMove.
  destruct (makeMove (m_game n) mv) as [g |]; [| reflexivity].
  destruct (isChecked g (activeArmy (m_game n))); reflexivity.
Qed.

Lemma fold_generatePotential (moves : list Move) (n : Node) :
  fold_left (fun nd mv => generatePotential mv nd) moves n =
  set_potentials
    (m_potentials n ++ (newPotentialNode <$> filter (fun mv => legalMove n mv = true) moves))
    n.
Proof.
  assert (Hid : forall n0 : Node, set_potentials (m_potentials n0) n0 = n0)
    by (intros []; reflexivity).
  revert n. induction moves as [| mv moves IH]; intros n.
  - simpl. rewrite app_nil_r. symmetry. apply Hid.
  - cbn [fold_left]. rewrite IH, generatePotential_legal, filter_cons.
    destruct (legalMove n mv) eqn:Hl.
    + rewrite decide_True by reflexivity.
      rewrite fmap_cons. cbn [m_potentials set_potentials].
      rewrite <- app_assoc. reflexivity.
    + rewrite decide_False by discriminate. reflexivity.
Qed.

(** X1.  The move generator (line 576 with [generatePotential]) turns
    every pseudo-legal move that can be made and does not leave the mover
    in check into one potential with an unset prior, in the order the
    rules engine yields them, after the potentials the node had; it
    changes nothing else in the node. *)
Theorem generateMoves_legal_moves (n : Node) :
  generateMoves n =
  set_potentials
    (m_potentials n
     ++ (newPotentialNode
           <$> filter (fun mv => legalMove n mv = true) (pseudoLegalMoves (m_game n))))
    n.
Proof. apply fold_generatePotential. Qed.

(** The tests of [generatePotentials] one after the other. *)
Lemma generatePotentials_cases (h : Heap) this n l fuel :
  h !! this = Some n -> hasPotentials n = false ->
  ancestry h (m_parent n) l -> (length l <= fuel)%nat ->
  let n1 := cacheRepetitions n (gamesOf h l) in
  generatePotentials fuel h this =
  if (100 <=? halfMoveClock (m_game n))%Z then
    Some ([AskHalfMoveClock], <[this := exactValue 0 n]> h)
  else if isDeadPosition (m_game n) then
    Some ([AskHalfMoveClock; AskDeadPosition], <[this := exactValue 0 n]> h)
  else if (2 <=? repetitionsOf n (gamesOf h l))%Z then
    Some ([AskHalfMoveClock; AskDeadPosition; AskThreeFold],
          <[this := exactValue 0 n1]> h)
  else
    probeOrGenerate fuel (<[this := n1]> h) this n1
      [AskHalfMoveClock; AskDeadPosition; AskThreeFold].
Proof.
  intros Hn Hpot Ha Hf n1.
  unfold generatePotentials. rewrite Hn. cbn [mbind option_bind]. rewrite Hpot.
  destruct (100 <=? halfMoveClock (m_game n))%Z; [reflexivity |].
  destruct (isDeadPosition (m_game n)); [reflexivity |].
  unfold isThreeFold. rewrite (Node_repetitions_effect h this n l fuel Hn Ha Hf).
  cbn [mbind option_bind]. rewrite lookup_insert_eq. cbn [mbind option_bind].
  fold n1. destruct (2 <=? repetitionsOf n (gamesOf h l))%Z; [| reflexivity].
  rewrite insert_insert_eq. reflexivity.
Qed.

Lemma depth_of_rewritten (h : Heap) this n n1 l fuel :
  h !! this = Some n -> ancestry h (m_parent n) l -> (length l <= fuel)%nat ->
  m_parent n1 = m_parent n ->
  depth fuel (<[this := n1]> h) this = Some (Z.of_nat (length l)).
Proof.
  intros Hn Ha Hf Hpar. unfold depth. rewrite lookup_insert_eq.
  cbn [mbind option_bind]. rewrite Hpar.
  rewrite (depthFrom_ancestry _ _ l); [reflexivity | | exact Hf].
  apply ancestry_insert; [exact Ha |]. intros n0 Hn0.
  rewrite Hn in Hn0. injection Hn0 as <-. exact Hpar.
Qed.

Lemma sameStatistics_cache (n : Node) (history : list Game) :
  sameStatistics n (cacheRepetitions n history) /\
  m_potentials (cacheRepetitions n history) = m_potentials n /\
  m_isExact (cacheRepetitions n history) = m_isExact n /\
  m_isTB (cacheRepetitions n history) = m_isTB n /\
  m_rawQValue (cacheRepetitions n history) = m_rawQValue n.
Proof.
  unfold cacheRepetitions, sameStatistics.
  destruct (negb (repetitions (m_game n) =? -1)%Z); repeat split.
Qed.

(** Every way [generatePotentials] can end, for a node without
    potentials. *)
Lemma generatePotentials_outcome (h : Heap) this n l fuel :
  h !! this = Some n -> hasPotentials n = false ->
  ancestry h (m_parent n) l -> (length l <= fuel)%nat ->
  expansionOutcome h this n (generatePotentials fuel h this).
Proof.
  intros Hn Hpot Ha Hf.
  pose proof (hasPotentials_false n Hpot) as Hnil.
  assert (Hnot : forall (a b : Question) l0, a <> b -> a ∉ l0 -> a ∉ b :: l0).
  { intros a b l0 Hab Hl Hin. apply elem_of_cons in Hin as [-> | Hin]; auto. }
  assert (Hnot3 : AskTablebase ∉ [AskHalfMoveClock; AskDeadPosition; AskThreeFold]).
  { repeat apply Hnot; try discriminate. apply not_elem_of_nil. }
  rewrite (generatePotentials_cases h this n l fuel Hn Hpot Ha Hf).
  set (n1 := cacheRepetitions n (gamesOf h l)).
  destruct (sameStatistics_cache n (gamesOf h l)) as (Hs1 & Hp1 & He1 & Ht1 & Hr1).
  fold n1 in Hs1, Hp1, He1, Ht1, Hr1.
  assert (Hframe : forall (m : Node) x, x <> this -> <[this := m]> h !! x = h !! x).
  { intros m x Hx. apply lookup_insert_ne. auto. }
  assert (Hframe2 : forall (m : Node) x, x <> this ->
                      <[this := m]> (<[this := n1]> h) !! x = h !! x).
  { intros m x Hx. rewrite !lookup_insert_ne by auto. reflexivity. }
  destruct (100 <=? halfMoveClock (m_game n))%Z.
  { eexists _, _, _. split; [reflexivity |]. rewrite lookup_insert_eq.
    split; [reflexivity |]. split; [apply Hframe |].
    split; [repeat split |]. split; [left; split; [reflexivity | exact Hnil] |].
    split; [intros _; right; reflexivity |].
    intros _. split; [| reflexivity].
    repeat apply Hnot; try discriminate. apply not_elem_of_nil. }
  destruct (isDeadPosition (m_game n)).
  { eexists _, _, _. split; [reflexivity |]. rewrite lookup_insert_eq.
    split; [reflexivity |]. split; [apply Hframe |].
    split; [repeat split |]. split; [left; split; [reflexivity | exact Hnil] |].
    split; [intros _; right; reflexivity |].
    intros _. split; [| reflexivity].
    repeat apply Hnot; try discriminate. apply not_elem_of_nil. }
  destruct (2 <=? repetitionsOf n (gamesOf h l))%Z.
  { eexists _, _, _. split; [reflexivity |]. rewrite lookup_insert_eq.
    split; [reflexivity |]. split; [apply Hframe |].
    split; [exact Hs1 |].
    split; [left; split; [reflexivity | simpl; rewrite Hp1; exact Hnil] |].
    split; [intros _; right; reflexivity |].
    intros _. split; [exact Hnot3 | exact Ht1]. }
  unfold probeOrGenerate.
  replace (isRootNode n1) with (isRootNode n)
    by (symmetry; apply isRootNode_cacheRepetitions).
  (* the tablebase answers *)
  assert (Htb : forall q (asked : list Question),
             isRootNode n = false ->
             expansionOutcome h this n
               (Some (asked, <[this := tablebaseValue q n1]> (<[this := n1]> h)))).
  { intros q asked Hroot. eexists _, _, _. split; [reflexivity |].
    rewrite lookup_insert_eq. split; [reflexivity |]. split; [apply Hframe2 |].
    split; [exact Hs1 |].
    split; [left; split; [reflexivity | simpl; rewrite Hp1; exact Hnil] |].
    split; [intros _; right; reflexivity |].
    rewrite Hroot. discriminate. }
  (* the move generator *)
  assert (Hgen : forall asked : list Question,
             (isRootNode n = true -> AskTablebase ∉ asked) ->
             expansionOutcome h this n
               (generateOrFinish fuel (<[this := n1]> h) this n1 asked)).
  { intros asked Hasked. unfold generateOrFinish.
    assert (Hmv : forall a : Question, a ∉ asked -> a <> AskMoves ->
                    a <> AskChecked ->
                    (a ∉ asked ++ [AskMoves]) /\
                    (a ∉ (asked ++ [AskMoves]) ++ [AskChecked])).
    { intros a Ha1 Ha2 Ha3. split; intros Hin;
        repeat (apply elem_of_app in Hin as [Hin | Hin]);
        try (apply Ha1; exact Hin);
        apply list_elem_of_singleton in Hin; auto. }
    rewrite (generateMoves_legal_moves n1), Hp1, Hnil. cbn [app].
    set (pots := newPotentialNode
                   <$> filter (fun mv => legalMove n1 mv = true)
                              (pseudoLegalMoves (m_game n1))).
    unfold hasPotentials. cbn [m_potentials set_potentials].
    destruct pots as [| pot rest] eqn:Hpots.
    - cbn [m_game set_potentials].
      destruct (isChecked (m_game n1) (activeArmy (m_game n1))).
      + set (n3 := set_game (setCheckMate true (m_game n1))
                     (set_potentials [] n1)).
        rewrite (depth_of_rewritten (<[this := n1]> h) this n1 n3 l fuel).
        * cbn [mbind option_bind]. eexists _, _, _. split; [reflexivity |].
          rewrite lookup_insert_eq. split; [reflexivity |].
          split; [apply Hframe2 |]. split; [exact Hs1 |].
          split; [left; split; reflexivity |].
          split; [intros _; right; reflexivity |].
          intros Hroot. split; [| exact Ht1].
          apply Hmv; [auto | discriminate | discriminate].
        * apply lookup_insert_eq.
        * destruct Hs1 as [Hpar _]. rewrite Hpar.
          apply ancestry_insert; [exact Ha |].
          intros n0 Hn0. rewrite Hn in Hn0. injection Hn0 as <-. exact Hpar.
        * exact Hf.
        * reflexivity.
      + eexists _, _, _. split; [reflexivity |].
        rewrite lookup_insert_eq. split; [reflexivity |].
        split; [apply Hframe2 |]. split; [exact Hs1 |].
        split; [left; split; reflexivity |].
        split; [intros _; right; reflexivity |].
        intros Hroot. split; [| exact Ht1].
        apply Hmv; [auto | discriminate | discriminate].
    - eexists _, _, _. split; [reflexivity |].
      rewrite lookup_insert_eq. split; [reflexivity |].
      split; [apply Hframe2 |]. split; [exact Hs1 |].
      split.
      { right. cbn [m_isExact m_isTB m_rawQValue m_potentials set_potentials].
        split; [exact He1 |]. split; [exact Ht1 |]. split; [exact Hr1 |].
        split; [discriminate |]. rewrite <- Hpots. reflexivity. }
      split; [cbn [m_isTB set_potentials]; rewrite Ht1; auto |].
      intros Hroot. split; [| exact Ht1].
      apply Hmv; [auto | discriminate | discriminate]. }
  destruct (isRootNode n) eqn:Hroot.
  - apply Hgen. intros _. exact Hnot3.
  - destruct (probe (m_game n1)).
    + apply Hgen. discriminate.
    + apply Htb. reflexivity.
    + apply Htb. reflexivity.
    + apply Htb. reflexivity.
Qed.

(** X2.  [generatePotentials] on a node without potentials always returns
    (given fuel for the node's ancestors) and touches that node only; it
    leaves parent, children, visits, virtual loss, Q value, prior, policy
    sum, [uCoeff] and the claim flag as they were.  The node ends either
    exact and without potentials, or with exactly its legal moves as
    potentials and its raw value and marks untouched; so a node that was
    not exact before is exact afterwards if and only if it has no
    potentials. *)
Theorem generatePotentials_exact_or_expanded (h : Heap) this n l fuel :
  h !! this = Some n -> hasPotentials n = false ->
  ancestry h (m_parent n) l -> (length l <= fuel)%nat ->
  exists asked h' n',
    generatePotentials fuel h this = Some (asked, h') /\
    h' !! this = Some n' /\
    (forall x, x <> this -> h' !! x = h !! x) /\
    (m_parent n' = m_parent n /\ m_children n' = m_children n /\
     m_visited n' = m_visited n /\ m_virtualLoss n' = m_virtualLoss n /\
     m_qValue n' = m_qValue n /\ m_pValue n' = m_pValue n /\
     m_policySum n' = m_policySum n /\ m_uCoeff n' = m_uCoeff n /\
     m_scoringOrScored n' = m_scoringOrScored n) /\
    (m_isExact n' = true /\ m_potentials n' = [] \/
     m_isExact n' = m_isExact n /\ m_isTB n' = m_isTB n /\
     m_rawQValue n' = m_rawQValue n /\
     m_potentials n' <> [] /\
     m_potentials n' =
       newPotentialNode
         <$> filter (fun mv => legalMove n' mv = true)
                    (pseudoLegalMoves (m_game n'))) /\
    (m_isExact n = false -> (m_isExact n' = true <-> m_potentials n' = [])).
Proof.
  intros Hn Hpot Ha Hf.
  destruct (generatePotentials_outcome h this n l fuel Hn Hpot Ha Hf)
    as (asked & h' & n' & Hrun & Hn' & Hframe & Hstat & Hcase & _).
  exists asked, h', n'. split; [exact Hrun |]. split; [exact Hn' |].
  split; [exact Hframe |]. split; [exact Hstat |]. split; [exact Hcase |].
  intros Hex. destruct Hcase as [[He Hp] | (He & _ & _ & Hp & _)].
  - split; auto.
  - rewrite He, Hex. split; [discriminate | contradiction].
Qed.

(** X3.  At the root [generatePotentials] never asks the tablebase and
    never changes the tablebase mark of the node, whatever the position
    (line 554). *)
Theorem generatePotentials_root_skips_tablebase (h : Heap) this n fuel :
  h !! this = Some n -> hasPotentials n = false -> isRootNode n = true ->
  exists asked h' n',
    generatePotentials fuel h this = Some (asked, h') /\
    h' !! this = Some n' /\
    (AskTablebase ∉ asked) /\ m_isTB n' = m_isTB n.
Proof.
  intros Hn Hpot Hroot.
  assert (Ha : ancestry h (m_parent n) []).
  { unfold isRootNode in Hroot. destruct (m_parent n); [discriminate |].
    constructor. }
  destruct (generatePotentials_outcome h this n [] fuel Hn Hpot Ha)
    as (asked & h' & n' & Hrun & Hn' & _ & _ & _ & _ & Hr); [simpl; lia |].
  exists asked, h', n'. destruct (Hr Hroot). auto.
Qed.

(** ** Repetitions *)

(** The counting loop of [Node::repetitions] answers the number of
    positions equal to the node's own among those since the last
    irreversible move, but never more than 2. *)
Lemma countRepetitions_spec (g : Game) (history : list Game) (r : Z) :
  (0 <= r < 2)%Z ->
  countRepetitions g history r =
  Z.min 2 (r + occurrences g (sinceIrreversible history)).
Proof.
  revert r. induction history as [| it rest IH]; intros r Hr.
  - simpl. unfold occurrences. simpl. lia.
  - cbn [countRepetitions sinceIrreversible].
    assert (Hocc : forall l, occurrences g (it :: l) =
                     ((if isSamePosition g it then 1 else 0) + occurrences g l)%Z).
    { intros l0. unfold occurrences. rewrite filter_cons.
      destruct (isSamePosition g it).
      - rewrite decide_True by reflexivity. simpl length. lia.
      - rewrite decide_False by discriminate. lia. }
    assert (Hnn : forall l, (0 <= occurrences g l)%Z)
      by (intros; unfold occurrences; lia).
    destruct (halfMoveClock it =? 0)%Z eqn:Hclock.
    + rewrite Hocc.
      change (occurrences g []) with 0%Z.
      destruct (isSamePosition g it);
        destruct (2 <=? _)%Z eqn:Hle; try apply Z.leb_le in Hle;
        try apply Z.leb_gt in Hle; lia.
    + rewrite Hocc. pose proof (Hnn (sinceIrreversible rest)).
      destruct (isSamePosition g it).
      * destruct (2 <=? r + 1)%Z eqn:Hle.
        -- apply Z.leb_le in Hle. lia.
        -- apply Z.leb_gt in Hle. rewrite IH by lia. lia.
      * destruct (2 <=? r)%Z eqn:Hle.
        -- apply Z.leb_le in Hle. lia.
        -- rewrite IH by lia. lia.
Qed.

Lemma Node_repetitions_uncached (h : Heap) this n l fuel :
  h !! this = Some n -> repetitions (m_game n) = (-1)%Z ->
  ancestry h (m_parent n) l -> (length l <= fuel)%nat ->
  let r := Z.min 2 (occurrences (m_game n) (sinceIrreversible (gamesOf h l))) in
  Node_repetitions fuel h this =
    Some (r, <[this := set_game (setRepetitions r (m_game n)) n]> h) /\
  (0 <= r <= 2)%Z.
Proof.
  intros Hn Hcache Ha Hf r. split.
  - rewrite (Node_repetitions_effect h this n l fuel Hn Ha Hf).
    unfold repetitionsOf, cacheRepetitions, repetitionsOf. rewrite Hcache.
    simpl negb. cbv iota. rewrite countRepetitions_spec by lia.
    reflexivity.
  - unfold r, occurrences. lia.
Qed.

(** X4.  For a node whose game has no cached count, [Node::repetitions]
    answers the number of ancestor positions equal to its own since the
    last irreversible move (an ancestor with half-move clock 0 is the last
    one looked at), capped at 2, and stores it in the node's game; nothing
    else changes.  [isThreeFold] holds exactly when there are two such
    ancestors. *)
Theorem repetitions_counts_since_irreversible (h : Heap) this n l fuel :
  h !! this = Some n -> repetitions (m_game n) = (-1)%Z ->
  ancestry h (m_parent n) l -> (length l <= fuel)%nat ->
  let r := Z.min 2 (occurrences (m_game n) (sinceIrreversible (gamesOf h l))) in
  Node_repetitions fuel h this =
    Some (r, <[this := set_game (setRepetitions r (m_game n)) n]> h) /\
  isThreeFold fuel h this =
    Some ((2 <=? occurrences (m_game n) (sinceIrreversible (gamesOf h l)))%Z,
          <[this := set_game (setRepetitions r (m_game n)) n]> h).
Proof.
  intros Hn Hcache Ha Hf r.
  destruct (Node_repetitions_uncached h this n l fuel Hn Hcache Ha Hf)
    as [Hrep _]. fold r in Hrep.
  split; [exact Hrep |]. unfold isThreeFold. rewrite Hrep.
  cbn [mbind option_bind]. f_equal. f_equal. unfold r.
  destruct (2 <=? occurrences _ _)%Z eqn:Hle.
  - apply Z.leb_le in Hle. apply Z.leb_le. lia.
  - apply Z.leb_gt in Hle. apply Z.leb_gt. lia.
Qed.

(** X5.  The count is a cache: once [Node::repetitions] has answered, a
    second call answers the same and leaves the heap as it is, without
    walking the ancestors (it needs no fuel). *)
Theorem repetitions_cached (h : Heap) this n l fuel :
  h !! this = Some n -> repetitions (m_game n) = (-1)%Z ->
  ancestry h (m_parent n) l -> (length l <= fuel)%nat ->
  exists r h',
    Node_repetitions fuel h this = Some (r, h') /\
    (0 <= r <= 2)%Z /\
    Node_repetitions 0 h' this = Some (r, h').
Proof.
  intros Hn Hcache Ha Hf.
  destruct (Node_repetitions_uncached h this n l fuel Hn Hcache Ha Hf)
    as [Hrep Hr].
  eexists _, _. split; [exact Hrep |]. split; [exact Hr |].
  unfold Node_repetitions. rewrite lookup_insert_eq. cbn [mbind option_bind].
  cbn [m_game set_game repetitions setRepetitions].
  destruct (negb (_ =? -1)%Z) eqn:Hneg.
  - reflexivity.
  - apply negb_false_iff, Z.eqb_eq in Hneg. lia.
Qed.

(** ** Roots *)

Lemma ancestry_self (h : Heap) this n l :
  h !! this = Some n -> ancestry h (m_parent n) l ->
  ancestry h (Some this) (this :: l).
Proof. intros Hn Ha. econstructor; eassumption. Qed.

Lemma rootNode_ancestry (h : Heap) (path : list NodeId) :
  forall p fuel,
    ancestry h (Some p) path -> (length path <= S fuel)%nat ->
    exists r nr,
      rootNode fuel h p = Some r /\ last path = Some r /\
      h !! r = Some nr /\ m_parent nr = None.
Proof.
  induction path as [| q path IH]; intros p fuel Ha Hf; [inversion Ha |].
  inversion Ha as [| p' n l Hp Hl]; subst.
  destruct (m_parent n) as [p1 |] eqn:Hpar.
  - destruct fuel as [| fuel].
    { inversion Hl; subst. simpl in Hf. lia. }
    destruct (IH p1 fuel Hl) as (r & nr & Hr & Hlast & Hnr & Hroot);
      [simpl in Hf; lia |].
    exists r, nr. cbn [rootNode]. rewrite Hp. cbn [mbind option_bind].
    rewrite Hpar. split; [exact Hr |]. split; [| auto].
    inversion Hl; subst. rewrite last_cons. cbn [last] in Hlast.
    rewrite Hlast. reflexivity.
  - inversion Hl; subst. exists q, n.
    split; [destruct fuel; simpl; rewrite Hp; simpl; rewrite Hpar; reflexivity |].
    auto.
Qed.

(** X6.  In a tree whose parent links end at a root, [rootNode] answers
    that root: the last node of the chain of ancestors (the node itself
    when it has no parent).  The answer has no parent, [rootNode] maps it
    to itself, and every ancestor of the node has the same root. *)
Theorem rootNode_is_last_ancestor (h : Heap) this n l fuel :
  h !! this = Some n -> ancestry h (m_parent n) l -> (length l <= fuel)%nat ->
  exists r nr,
    rootNode fuel h this = Some r /\ last (this :: l) = Some r /\
    h !! r = Some nr /\ isRootNode nr = true /\
    rootNode fuel h r = Some r /\
    (forall a, a ∈ l -> rootNode fuel h a = Some r).
Proof.
  intros Hn Ha Hf.
  pose proof (ancestry_self h this n l Hn Ha) as Hpath.
  destruct (rootNode_ancestry h (this :: l) this fuel Hpath) as (r & nr & Hr & Hlast & Hnr & Hroot);
    [simpl; lia |].
  exists r, nr. split; [exact Hr |]. split; [exact Hlast |].
  split; [exact Hnr |]. split; [unfold isRootNode; rewrite Hroot; reflexivity |].
  split.
  - destruct fuel; simpl; rewrite Hnr; simpl; rewrite Hroot; reflexivity.
  - intros a Hin. apply list_elem_of_split in Hin as (l1 & l2 & Hl).
    assert (Hsuf : ancestry h (Some a) (a :: l2)).
    { apply (ancestry_suffix h (Some this) (this :: l1) a l2).
      simpl. rewrite <- Hl. exact Hpath. }
    destruct (rootNode_ancestry h (a :: l2) a fuel Hsuf) as (r' & nr' & Hr' & Hlast' & _).
    { rewrite Hl, length_app in Hf. simpl in *. lia. }
    rewrite Hr'. f_equal.
    assert (Heq : last (this :: l) = last (a :: l2)).
    { rewrite Hl. change (this :: l1 ++ a :: l2) with ((this :: l1) ++ a :: l2).
      rewrite last_app. simpl last at 1.
      destruct (last (a :: l2)) eqn:E; [reflexivity |].
      simpl in E. destruct l2; discriminate. }
    congruence.
Qed.

(** X7.  [setAsRootNode] on a node without parent changes nothing; so
    making a node the root twice is the same as once. *)
Theorem setAsRootNode_idempotent (h h' : Heap) c :
  setAsRootNode h c = Some h' ->
  setAsRootNode h' c = Some h' /\
  (forall n, h !! c = Some n -> m_parent n = None -> h' = h).
Proof.
  intros Hrun.
  assert (Hroot : forall (g : Heap) m, g !! c = Some m -> m_parent m = None ->
                    setAsRootNode g c = Some g).
  { intros g m Hm Hpar. unfold setAsRootNode. rewrite Hm. cbn [mbind option_bind].
    rewrite Hpar. cbn [mbind option_bind]. rewrite Hm. cbn [mbind option_bind].
    f_equal. apply insert_id. rewrite Hm. f_equal. destruct m. simpl in *.
    subst. reflexivity. }
  split.
  - unfold setAsRootNode in Hrun.
    destruct (h !! c) as [n |]; cbn [mbind option_bind] in Hrun; [| discriminate].
    destruct (match m_parent n with Some p => _ | None => _ end) as [h1 |];
      cbn [mbind option_bind] in Hrun; [| discriminate].
    destruct (h1 !! c) as [n1 |]; cbn [mbind option_bind] in Hrun; [| discriminate].
    injection Hrun as <-.
    apply (Hroot _ (set_parent None n1)); [apply lookup_insert_eq | reflexivity].
  - intros n Hn Hpar. rewrite (Hroot h n Hn Hpar) in Hrun. congruence.
Qed.

(** ** The running mean *)

(** X8.  However many values are back-propagated into a node, and in
    whatever order, its Q value is the plain average: the old Q value
    weighted by the old visit count plus the sum of the values, over the
    new visit count; and the visit count grows by the number of values. *)
Theorem backPropagateValue_mean (vs : list Q) (n : Node) :
  (0 < m_visited n + N.of_nat (length vs))%N ->
  let n' := fold_left (fun nd v => backPropagateValue v nd) vs n in
  m_visited n' = (m_visited n + N.of_nat (length vs))%N /\
  m_qValue n' ==
    (toFloat (m_visited n) * m_qValue n + fold_right Qplus 0 vs)
    / toFloat (m_visited n + N.of_nat (length vs)).
Proof.
  revert n. induction vs as [| v vs IH]; intros n Hpos n'.
  - subst n'. simpl in *. split; [lia |].
    rewrite N.add_0_r in *.
    assert (Hv : 0 < toFloat (m_visited n)).
    { unfold toFloat. change 0 with (inject_Z 0). rewrite <- Zlt_Qlt. lia. }
    field. lra.
  - subst n'. cbn [fold_left].
    destruct (IH (backPropagateValue v n)) as [Hvis Hq].
    { simpl. lia. }
    split.
    + rewrite Hvis. simpl. lia.
    + rewrite Hq.
      cbn [backPropagateValue incrementVisited set_qValue set_visited
             set_virtualLoss set_uCoeff m_qValue m_visited].
      replace (m_visited n + 1 + N.of_nat (length vs))%N
        with (m_visited n + N.of_nat (length (v :: vs)))%N by (simpl; lia).
      pose proof (toFloat_nonneg (m_visited n)) as HV.
      assert (HW : 0 < toFloat (m_visited n + N.of_nat (length (v :: vs)))).
      { unfold toFloat. change 0 with (inject_Z 0). rewrite <- Zlt_Qlt.
        simpl length. lia. }
      rewrite (toFloat_succ (m_visited n)).
      set (V := toFloat (m_visited n)) in *.
      set (W := toFloat (m_visited n + N.of_nat (length (v :: vs)))) in *.
      cbn [fold_right]. field. split; lra.
Qed.

(** ** Creating children *)

Lemma generateChild_effect (h : Heap) this n i pot g :
  h !! this = Some n -> m_potentials n !! i = Some pot ->
  makeMove (m_game n) (move pot) = Some g ->
  let child := fresh (dom h) in
  generateChild h this i =
    Some (<[this := set_potentials (delete i (m_potentials n))
                      (set_children (m_children n ++ [child]) n)]>
            (<[child := set_pValue (potential_pValue pot) (newNode (Some this) g)]> h),
          child) /\
  h !! child = None /\ child <> this.
Proof.
  intros Hn Hpot Hmk child. unfold generateChild.
  rewrite Hn. cbn [mbind option_bind]. rewrite Hpot. cbn [mbind option_bind].
  rewrite Hmk. cbn [mbind option_bind]. split; [reflexivity |].
  assert (Hfresh : h !! child = None).
  { apply not_elem_of_dom. apply is_fresh. }
  split; [exact Hfresh |]. intros Heq. rewrite Heq in Hfresh. congruence.
Qed.

(** X9.  [generateChild] for the potential in position [i]: the new node
    gets an address that was not in use; it has the given node as parent,
    the position after the move, the potential's prior, no visits, no
    children and no potentials, and is neither scored nor exact.  The
    parent gets the new node as its last child and loses exactly that
    potential, so children and potentials together are as many as before;
    nothing else changes, in the parent or elsewhere. *)
Theorem generateChild_spec (h : Heap) this n i pot g :
  h !! this = Some n -> m_potentials n !! i = Some pot ->
  makeMove (m_game n) (move pot) = Some g ->
  exists h' child c n',
    generateChild h this i = Some (h', child) /\
    h !! child = None /\
    h' !! child = Some c /\
    c = set_pValue (potential_pValue pot) (newNode (Some this) g) /\
    m_parent c = Some this /\ m_game c = g /\
    m_pValue c = potential_pValue pot /\ m_visited c = 0%N /\
    m_children c = [] /\ m_potentials c = [] /\
    m_scoringOrScored c = false /\ m_isExact c = false /\
    h' !! this = Some n' /\
    n' = set_potentials (delete i (m_potentials n))
           (set_children (m_children n ++ [child]) n) /\
    m_children n' = m_children n ++ [child] /\
    m_potentials n' = take i (m_potentials n) ++ drop (S i) (m_potentials n) /\
    (length (m_children n') + length (m_potentials n')
     = length (m_children n) + length (m_potentials n))%nat /\
    (forall x, x <> this -> x <> child -> h' !! x = h !! x).
Proof.
  intros Hn Hpot Hmk.
  destruct (generateChild_effect h this n i pot g Hn Hpot Hmk) as (Hrun & Hfresh & Hne).
  eexists _, _, _, _. split; [exact Hrun |]. split; [exact Hfresh |].
  split; [rewrite lookup_insert_ne by auto; apply lookup_insert_eq |].
  split; [reflexivity |]. do 8 (split; [reflexivity |]).
  split; [apply lookup_insert_eq |]. split; [reflexivity |].
  split; [reflexivity |].
  split; [cbn [m_potentials set_potentials]; apply delete_take_drop |].
  split.
  - cbn [m_children m_potentials set_potentials set_children].
    rewrite length_app, length_delete by eauto. simpl.
    apply lookup_lt_Some in Hpot. lia.
  - intros x Hx Hxc. rewrite !lookup_insert_ne by auto. reflexivity.
Qed.

Lemma indexOf_last (x : NodeId) (l : list NodeId) :
  x ∉ l -> indexOf x (l ++ [x]) = Some (length l).
Proof.
  induction l as [| y l IH]; intros Hx; simpl.
  - rewrite Nat.eqb_refl. reflexivity.
  - apply not_elem_of_cons in Hx as [Hxy Hxl].
    destruct (Nat.eqb y x) eqn:Heq; [apply Nat.eqb_eq in Heq; congruence |].
    rewrite IH by exact Hxl. reflexivity.
Qed.

Lemma delete_last (l : list NodeId) (x : NodeId) :
  delete (length l) (l ++ [x]) = l.
Proof.
  induction l as [| y l IH]; simpl; [reflexivity |]. rewrite IH. reflexivity.
Qed.

(** X10.  The new child hangs below its parent: it is one ply deeper and
    has the same root. *)
Theorem generateChild_depth (h : Heap) this n i pot g l fuel :
  h !! this = Some n -> m_potentials n !! i = Some pot ->
  makeMove (m_game n) (move pot) = Some g ->
  ancestry h (m_parent n) l -> (length l < fuel)%nat ->
  exists h' child r,
    generateChild h this i = Some (h', child) /\
    ancestry h' (Some this) (this :: l) /\
    depth fuel h this = Some (Z.of_nat (length l)) /\
    depth fuel h' child = Some (Z.of_nat (length l) + 1)%Z /\
    rootNode fuel h this = Some r /\ rootNode fuel h' child = Some r.
Proof.
  intros Hn Hpot Hmk Ha Hf.
  destruct (generateChild_effect h this n i pot g Hn Hpot Hmk) as (Hrun & Hfresh & Hne).
  set (child := fresh (dom h)) in *.
  set (c := set_pValue (potential_pValue pot) (newNode (Some this) g)) in *.
  set (n' := set_potentials (delete i (m_potentials n))
               (set_children (m_children n ++ [child]) n)) in *.
  set (h' := <[this := n']> (<[child := c]> h)) in *.
  pose proof (ancestry_not_in _ _ _ _ Hn Ha) as Hself.
  assert (Ha' : ancestry h' (m_parent n) l).
  { apply (ancestry_same_parents h); [exact Ha |].
    intros a na Hin Hna. exists na. split; [| reflexivity].
    unfold h'. rewrite !lookup_insert_ne; [exact Hna | |].
    - intros <-. congruence.
    - intros <-. contradiction. }
  assert (Hpath : ancestry h' (Some this) (this :: l)).
  { apply ancestry_step with n'; [apply lookup_insert_eq | exact Ha']. }
  assert (Hc : h' !! child = Some c).
  { unfold h'. rewrite lookup_insert_ne by auto. apply lookup_insert_eq. }
  destruct (rootNode_ancestry h (this :: l) this fuel (ancestry_self h this n l Hn Ha))
    as (r & nr & Hr & Hlast & _); [simpl; lia |].
  destruct fuel as [| fuel]; [lia |].
  destruct (rootNode_ancestry h' (this :: l) this fuel Hpath)
    as (r' & nr' & Hr' & Hlast' & _); [simpl; lia |].
  exists h', child, r. split; [exact Hrun |]. split; [exact Hpath |].
  split; [| split; [| split; [exact Hr |]]].
  - unfold depth. rewrite Hn. cbn [mbind option_bind].
    rewrite (depthFrom_ancestry h _ l) by (assumption || lia). reflexivity.
  - unfold depth. rewrite Hc. cbn [mbind option_bind].
    change (m_parent c) with (Some this).
    rewrite (depthFrom_ancestry h' _ (this :: l)) by (assumption || simpl; lia).
    f_equal. simpl length. lia.
  - cbn [rootNode]. rewrite Hc. cbn [mbind option_bind].
    change (m_parent c) with (Some this). cbv iota. rewrite Hr'. congruence.
Qed.

(** X11.  [generateChild] followed by [setAsRootNode] on the new child: the
    parent has the children it had before (the potential stays consumed),
    and the child stands alone as a root.  It needs the parent's children
    to be nodes of the tree. *)
Theorem generateChild_then_setAsRootNode (h : Heap) this n i pot g :
  h !! this = Some n -> m_potentials n !! i = Some pot ->
  makeMove (m_game n) (move pot) = Some g ->
  (forall c, c ∈ m_children n -> is_Some (h !! c)) ->
  exists h' child h'' n'' c'',
    generateChild h this i = Some (h', child) /\
    setAsRootNode h' child = Some h'' /\
    h'' !! this = Some n'' /\ m_children n'' = m_children n /\
    n'' = set_potentials (delete i (m_potentials n)) n /\
    h'' !! child = Some c'' /\ m_parent c'' = None /\
    rootNode 0 h'' child = Some child /\
    (forall x, x <> this -> x <> child -> h'' !! x = h !! x).
Proof.
  intros Hn Hpot Hmk Hkids.
  destruct (generateChild_effect h this n i pot g Hn Hpot Hmk) as (Hrun & Hfresh & Hne).
  set (child := fresh (dom h)) in *.
  assert (Hnotin : child ∉ m_children n).
  { intros Hin. destruct (Hkids child Hin) as [x Hx]. congruence. }
  eexists _, child, _, _, _. split; [exact Hrun |].
  unfold setAsRootNode.
  rewrite lookup_insert_ne by auto. rewrite lookup_insert_eq.
  cbn [mbind option_bind]. cbn [m_parent set_pValue newNode].
  rewrite lookup_insert_eq. cbn [mbind option_bind].
  cbn [m_children set_potentials set_children].
  rewrite (indexOf_last child (m_children n) Hnotin). cbn [mbind option_bind].
  rewrite delete_last. rewrite insert_insert_eq.
  rewrite lookup_insert_ne by auto. rewrite lookup_insert_eq.
  cbn [mbind option_bind].
  split; [reflexivity |].
  split; [rewrite lookup_insert_ne by auto; apply lookup_insert_eq |].
  split; [reflexivity |].
  split; [destruct n; reflexivity |].
  split; [apply lookup_insert_eq |]. split; [reflexivity |].
  split; [simpl; rewrite lookup_insert_eq; reflexivity |].
  intros x Hx Hxc. rewrite !lookup_insert_ne by auto. reflexivity.
Qed.

(** ** The distance-to-zero probe at the root *)

(** X12.  [checkAndGenerateDTZ] answers false and leaves the tree as it is
    when the probe finds nothing, when the move it names cannot be made,
    and when that move leaves the mover in check. *)
Theorem checkAndGenerateDTZ_declines (h : Heap) this n result mv dtz fuel :
  h !! this = Some n -> probeDTZ (m_game n) = (result, mv, dtz) ->
  result = NotFound \/
  makeMove (m_game n) mv = None \/
  (exists g, makeMove (m_game n) mv = Some g /\
             isChecked g (activeArmy (m_game n)) = true) ->
  checkAndGenerateDTZ fuel h this = Some (h, false, dtz).
Proof.
  intros Hn Hprobe Hcase. unfold checkAndGenerateDTZ.
  rewrite Hn. cbn [mbind option_bind]. rewrite Hprobe.
  destruct Hcase as [-> | [Hmk | (g & Hmk & Hck)]]; [reflexivity | |].
  - rewrite Hmk. destruct result; reflexivity.
  - rewrite Hmk, Hck. destruct result; reflexivity.
Qed.

(** The value a tablebase result stands for. *)
Lemma checkAndGenerateDTZ_effect (h : Heap) this n result mv dtz g fuel :
  h !! this = Some n -> m_parent n = None ->
  probeDTZ (m_game n) = (result, mv, dtz) -> result <> NotFound ->
  makeMove (m_game n) mv = Some g ->
  isChecked g (activeArmy (m_game n)) = false -> (1 <= fuel)%nat ->
  let child := fresh (dom h) in
  let value := match result with
               | Win => 1 - cpToScore 1
               | Loss => -1 + cpToScore 1
               | _ => 0
               end in
  let c := tablebaseValue value
             (set_pValue 1
                (newNode (Some this)
                   (if isChecked g (activeArmy g) then setCheckMate true g else g))) in
  let n1 := if hasQValue n then n
            else set_visited (m_visited n + 1)%N (setQValueFromRaw (setRawQValue 0 n)) in
  h !! child = None /\ child <> this /\
  checkAndGenerateDTZ fuel h this =
    Some (<[this := set_children (m_children n ++ [child])
                      (backPropagateValue (- value)
                         (set_policySum (m_policySum n + 1) n1))]>
            (<[child := scoreOnce c]> h),
          true, dtz).
Proof.
  intros Hn Hroot Hprobe Hfound Hmk Hck Hf child value c n1.
  assert (Hfresh : h !! child = None) by (apply not_elem_of_dom, is_fresh).
  assert (Hne : child <> this) by (intros Heq; rewrite Heq in Hfresh; congruence).
  split; [exact Hfresh |]. split; [exact Hne |].
  unfold checkAndGenerateDTZ. rewrite Hn. cbn [mbind option_bind].
  rewrite Hprobe, Hmk, Hck.
  assert (Hc : match result with
               | Win => tablebaseValue (1 - cpToScore 1)
                          (setPValue 1 (newNode (Some this)
                             (if isChecked g (activeArmy g) then setCheckMate true g else g)))
               | Loss => tablebaseValue (-1 + cpToScore 1)
                          (setPValue 1 (newNode (Some this)
                             (if isChecked g (activeArmy g) then setCheckMate true g else g)))
               | _ => tablebaseValue 0
                          (setPValue 1 (newNode (Some this)
                             (if isChecked g (activeArmy g) then setCheckMate true g else g)))
               end = c).
  { unfold c, value. destruct result; reflexivity. }
  fold child. fold n1.
  set (h2 := <[child := c]> (<[this := n1]> h)).
  assert (Hpar1 : m_parent n1 = None).
  { unfold n1. destruct (hasQValue n); [exact Hroot | exact Hroot]. }
  assert (Hthis2 : h2 !! this = Some n1).
  { unfold h2. rewrite lookup_insert_ne by auto. apply lookup_insert_eq. }
  assert (Hchild2 : h2 !! child = Some c) by apply lookup_insert_eq.
  assert (Ha2 : ancestry h2 (m_parent c) [this]).
  { change (m_parent c) with (Some this).
    apply ancestry_step with n1; [exact Hthis2 |]. rewrite Hpar1. constructor. }
  destruct (setQValueAndPropagate_effect h2 child c [this] fuel Hchild2 Ha2)
    as (h3 & Hrun & Hc3 & Hanc & Hframe); [simpl; lia |].
  destruct (Hanc O this eq_refl) as (na & Hna & Hna3).
  rewrite Hthis2 in Hna. injection Hna as <-.
  assert (Hh3 : h3 = <[this := backPropagateValue (- value)
                                 (set_policySum (m_policySum n + 1) n1)]>
                       (<[child := scoreOnce c]> h)).
  { apply map_eq. intros x.
    destruct (decide (x = this)) as [-> | Hx].
    - rewrite lookup_insert_eq, Hna3. f_equal. f_equal.
      unfold n1. destruct (hasQValue n); reflexivity.
    - rewrite lookup_insert_ne by auto.
      destruct (decide (x = child)) as [-> | Hxc].
      + rewrite lookup_insert_eq. exact Hc3.
      + rewrite lookup_insert_ne by auto.
        rewrite (Hframe x Hxc) by (intros Hin; apply list_elem_of_singleton in Hin; auto).
        unfold h2. rewrite !lookup_insert_ne by auto. reflexivity. }
  assert (Hgoal : forall cc, cc = c ->
            (setQValueAndPropagate fuel (<[child := cc]> (<[this := n1]> h)) child
               ≫= (fun h0 : Heap => h0 !! this
                     ≫= (fun n0 : Node =>
                           Some (<[this := set_children (m_children n0 ++ [child]) n0]> h0,
                                 true, dtz))))
            = Some (<[this := set_children (m_children n ++ [child])
                                (backPropagateValue (- value)
                                   (set_policySum (m_policySum n + 1) n1))]>
                      (<[child := scoreOnce c]> h), true, dtz)).
  { intros cc ->. fold h2. rewrite Hrun. cbn [mbind option_bind].
    rewrite Hh3, lookup_insert_eq. cbn [mbind option_bind].
    rewrite insert_insert_eq. f_equal. f_equal. f_equal. f_equal.
    unfold n1. destruct (hasQValue n); reflexivity. }
  destruct result; [contradiction | | |]; apply Hgoal; exact Hc.
Qed.

(** X13.  When the probe names a legal move at the root,
    [checkAndGenerateDTZ] answers true and the root gets one more child,
    at a fresh address, as its last: exact, marked as a tablebase node,
    with prior 1, one visit, and [1 - cpToScore 1], [-1 + cpToScore 1] or 0
    as raw and Q value for win, loss and draw.  The root's policy sum
    grows by 1 and the root ends with a Q value: a root that had none is
    first scored 0, so it ends with two visits and minus half the child's
    value; a root that had one averages the negated value in.  No other
    node changes. *)
Theorem checkAndGenerateDTZ_accepts (h : Heap) this n result mv dtz g fuel :
  h !! this = Some n -> m_parent n = None ->
  probeDTZ (m_game n) = (result, mv, dtz) -> result <> NotFound ->
  makeMove (m_game n) mv = Some g ->
  isChecked g (activeArmy (m_game n)) = false -> (1 <= fuel)%nat ->
  let value := match result with
               | Win => 1 - cpToScore 1
               | Loss => -1 + cpToScore 1
               | _ => 0
               end in
  exists h' child c n',
    checkAndGenerateDTZ fuel h this = Some (h', true, dtz) /\
    h !! child = None /\ h' !! child = Some c /\
    m_parent c = Some this /\ m_pValue c = 1 /\
    m_isExact c = true /\ m_isTB c = true /\
    m_rawQValue c = value /\ m_qValue c = value /\ m_visited c = 1%N /\
    m_children c = [] /\ m_potentials c = [] /\
    h' !! this = Some n' /\
    m_children n' = m_children n ++ [child] /\
    m_policySum n' = m_policySum n + 1 /\
    hasQValue n' = true /\
    (hasQValue n = false ->
       m_visited n' = 2%N /\ m_qValue n' == - value / 2) /\
    (hasQValue n = true ->
       m_visited n' = (m_visited n + 1)%N /\
       m_qValue n' = (toFloat (m_visited n) * m_qValue n + - value)
                     / toFloat (m_visited n + 1)) /\
    (forall x, x <> this -> x <> child -> h' !! x = h !! x).
Proof.
  intros Hn Hroot Hprobe Hfound Hmk Hck Hf value.
  destruct (checkAndGenerateDTZ_effect h this n result mv dtz g fuel
              Hn Hroot Hprobe Hfound Hmk Hck Hf) as (Hfresh & Hne & Hrun).
  fold value in Hrun.
  eexists _, _, _, _. split; [exact Hrun |]. split; [exact Hfresh |].
  split; [rewrite lookup_insert_ne by auto; apply lookup_insert_eq |].
  do 9 (split; [reflexivity |]).
  split; [apply lookup_insert_eq |]. split; [reflexivity |].
  split; [reflexivity |].
  split; [unfold hasQValue; simpl; apply N.ltb_lt; lia |].
  split; [| split].
  - intros Hq. rewrite Hq. unfold hasQValue in Hq. apply N.ltb_ge in Hq.
    assert (Hz : m_visited n = 0%N) by lia.
    cbn [m_visited m_qValue set_children backPropagateValue incrementVisited
           set_qValue set_visited set_virtualLoss set_uCoeff set_policySum
           setQValueFromRaw setRawQValue set_rawQValue m_rawQValue].
    rewrite Hz. split; [reflexivity |].
    change (toFloat (0 + 1)) with 1. change (toFloat (0 + 1 + 1)) with 2.
    field.
  - intros Hq. rewrite Hq. split; reflexivity.
  - intros x Hx Hxc. rewrite !lookup_insert_ne by auto. reflexivity.
Qed.

(** ** The books of visits and priors *)

(** The parent pointer of the [k]-th node of a chain names the next. *)
Lemma ancestry_parent_at (h : Heap) this n l :
  h !! this = Some n -> ancestry h (m_parent n) l ->
  forall k c, (this :: l) !! k = Some c ->
    exists nc, h !! c = Some nc /\ m_parent nc = l !! k.
Proof.
  intros Hn Ha k. revert this n l Hn Ha.
  induction k as [| k IH]; intros this n l Hn Ha c Hk.
  - injection Hk as <-. exists n. split; [exact Hn |].
    inversion Ha; reflexivity.
  - inversion Ha as [Hp | p np l' Hp Hl' Hpar]; subst l.
    + discriminate Hk.
    + apply (IH p np l' Hp Hl' c). exact Hk.
Qed.

(** What one scoring does to the fields that the books are made of. *)
Lemma setQValueAndPropagate_fields (h : Heap) this n l fuel :
  h !! this = Some n -> ancestry h (m_parent n) l -> (length l <= fuel)%nat ->
  exists h',
    setQValueAndPropagate fuel h this = Some h' /\
    (forall x, h !! x = None -> h' !! x = None) /\
    (forall x nx, h !! x = Some nx ->
       exists nx', h' !! x = Some nx' /\
         m_children nx' = m_children nx /\ m_parent nx' = m_parent nx /\
         m_pValue nx' = m_pValue nx /\
         m_visited nx' = (m_visited nx
                          + if bool_decide (x ∈ this :: l) then 1 else 0)%N /\
         m_policySum nx' =
           if bool_decide (l !! O = Some x) && (m_visited n =? 0)%N
           then m_policySum nx + m_pValue n else m_policySum nx).
Proof.
  intros Hn Ha Hf.
  pose proof (ancestry_not_in _ _ _ _ Hn Ha) as Hself.
  pose proof (ancestry_NoDup _ _ _ Ha) as Hnd.
  destruct (setQValueAndPropagate_effect h this n l fuel Hn Ha Hf)
    as (h' & Hrun & Hthis & Hanc & Hframe).
  exists h'. split; [exact Hrun |]. split.
  - intros x Hx. rewrite Hframe; [exact Hx | congruence |].
    intros Hin. destruct (ancestry_length_lookup _ _ _ Ha x Hin) as [? Hs].
    congruence.
  - intros x nx Hx.
    destruct (decide (x = this)) as [-> | Hne].
    + rewrite Hn in Hx. injection Hx as <-.
      eexists. split; [exact Hthis |]. do 3 (split; [reflexivity |]).
      rewrite bool_decide_eq_true_2 by apply list_elem_of_here.
      split; [reflexivity |].
      rewrite bool_decide_eq_false_2; [reflexivity |].
      intros Hl. apply Hself. eapply list_elem_of_lookup_2. exact Hl.
    + destruct (decide (x ∈ l)) as [Hin | Hout].
      * apply list_elem_of_lookup_1 in Hin as (k & Hk).
        destruct (Hanc k x Hk) as (na & Hna & Hna').
        rewrite Hx in Hna. injection Hna as <-.
        eexists. split; [exact Hna' |].
        rewrite bool_decide_eq_true_2
          by (apply list_elem_of_further; eapply list_elem_of_lookup_2; exact Hk).
        destruct k as [| k].
        -- rewrite bool_decide_eq_true_2 by exact Hk.
           simpl. destruct (m_visited n =? 0)%N; repeat split; reflexivity.
        -- rewrite bool_decide_eq_false_2.
           ++ simpl. repeat split; reflexivity.
           ++ intros Hl. pose proof (NoDup_lookup _ _ _ _ Hnd Hk Hl). lia.
      * exists nx. rewrite Hframe by auto. split; [exact Hx |].
        do 3 (split; [reflexivity |]).
        rewrite bool_decide_eq_false_2
          by (intros Hin; apply elem_of_cons in Hin as [? | ?]; auto).
        split; [lia |].
        rewrite bool_decide_eq_false_2; [reflexivity |].
        intros Hl. apply Hout. eapply list_elem_of_lookup_2. exact Hl.
Qed.

(** A child that lies on the chain is the chain's node before its parent. *)
Lemma linked_child_on_path (h : Heap) this n l x nx c :
  linked h -> h !! this = Some n -> ancestry h (m_parent n) l ->
  h !! x = Some nx -> c ∈ m_children nx -> c ∈ this :: l ->
  exists k, l !! k = Some x /\ (this :: l) !! k = Some c.
Proof.
  intros (Hdown & _ & _) Hn Ha Hx Hc Hin.
  apply list_elem_of_lookup_1 in Hin as (k & Hk).
  destruct (ancestry_parent_at h this n l Hn Ha k c Hk) as (nc & Hnc & Hpar).
  destruct (Hdown x nx c Hx Hc) as (nc' & Hnc' & Hpar').
  rewrite Hnc in Hnc'. injection Hnc' as <-.
  exists k. split; [congruence | exact Hk].
Qed.

Lemma linked_path_child (h : Heap) this n l x nx k :
  linked h -> h !! this = Some n -> ancestry h (m_parent n) l ->
  h !! x = Some nx -> l !! k = Some x ->
  exists c, (this :: l) !! k = Some c /\ c ∈ m_children nx.
Proof.
  intros (_ & Hup & _) Hn Ha Hx Hk.
  assert (Hlt : (k < length (this :: l))%nat).
  { apply lookup_lt_Some in Hk. simpl. lia. }
  apply lookup_lt_is_Some_2 in Hlt as (c & Hc).
  destruct (ancestry_parent_at h this n l Hn Ha k c Hc) as (nc & Hnc & Hpar).
  destruct (Hup c nc x Hnc) as (nx' & Hnx' & Hin); [congruence |].
  rewrite Hx in Hnx'. injection Hnx' as <-.
  exists c. split; [exact Hc | exact Hin].
Qed.

Lemma Zsum_same (f g : NodeId -> Z) (cs : list NodeId) :
  (forall c, c ∈ cs -> g c = f c) ->
  fold_right Z.add 0%Z (g <$> cs) = fold_right Z.add 0%Z (f <$> cs).
Proof.
  induction cs as [| c cs IH]; intros Hall; [reflexivity |].
  rewrite !fmap_cons. cbn [fold_right]. rewrite Hall by apply list_elem_of_here.
  rewrite IH; [reflexivity |].
  intros c' Hc'. apply Hall, list_elem_of_further, Hc'.
Qed.

Lemma Zsum_bump (f g : NodeId -> Z) (cs : list NodeId) (c0 : NodeId) (d : Z) :
  NoDup cs -> c0 ∈ cs ->
  (forall c, c ∈ cs -> c <> c0 -> g c = f c) -> g c0 = (f c0 + d)%Z ->
  fold_right Z.add 0%Z (g <$> cs) = (fold_right Z.add 0%Z (f <$> cs) + d)%Z.
Proof.
  intros Hnd Hin Hrest Hc0. induction Hnd as [| c cs Hc Hnd IH]; [inversion Hin |].
  rewrite !fmap_cons. cbn [fold_right]. apply elem_of_cons in Hin as [<- | Hin].
  - rewrite Hc0, (Zsum_same f g cs); [lia |].
    intros c' Hc'. apply Hrest; [apply list_elem_of_further, Hc' |].
    intros ->. contradiction.
  - rewrite IH; [| exact Hin |].
    + rewrite Hrest; [lia | apply list_elem_of_here |].
      intros ->. contradiction.
    + intros c' Hc' Hne. apply Hrest; [apply list_elem_of_further, Hc' | exact Hne].
Qed.

Lemma Qsum_same (f g : NodeId -> Q) (cs : list NodeId) :
  (forall c, c ∈ cs -> g c == f c) ->
  fold_right Qplus 0 (g <$> cs) == fold_right Qplus 0 (f <$> cs).
Proof.
  induction cs as [| c cs IH]; intros Hall; [reflexivity |].
  rewrite !fmap_cons. cbn [fold_right]. rewrite Hall by apply list_elem_of_here.
  rewrite IH; [reflexivity |].
  intros c' Hc'. apply Hall, list_elem_of_further, Hc'.
Qed.

Lemma Qsum_bump (f g : NodeId -> Q) (cs : list NodeId) (c0 : NodeId) (d : Q) :
  NoDup cs -> c0 ∈ cs ->
  (forall c, c ∈ cs -> c <> c0 -> g c == f c) -> g c0 == f c0 + d ->
  fold_right Qplus 0 (g <$> cs) == fold_right Qplus 0 (f <$> cs) + d.
Proof.
  intros Hnd Hin Hrest Hc0. induction Hnd as [| c cs Hc Hnd IH]; [inversion Hin |].
  rewrite !fmap_cons. cbn [fold_right]. apply elem_of_cons in Hin as [<- | Hin].
  - rewrite Hc0, (Qsum_same f g cs); [ring |].
    intros c' Hc'. apply Hrest; [apply list_elem_of_further, Hc' |].
    intros ->. contradiction.
  - rewrite IH; [| exact Hin |].
    + rewrite Hrest; [ring | apply list_elem_of_here |].
      intros ->. contradiction.
    + intros c' Hc' Hne. apply Hrest; [apply list_elem_of_further, Hc' | exact Hne].
Qed.

(** X14.  Scoring a node of a tree whose parent pointers and children
    sequences agree keeps the book of visits: the visits of a node that
    did not pass on to one of its children grow by one at the scored node
    and stay as they are at every other node, the ancestors included,
    since each of them is visited together with one of its children.
    Parent pointers and children sequences still agree afterwards. *)
Theorem setQValueAndPropagate_visits (h : Heap) this n l fuel :
  linked h -> h !! this = Some n -> ancestry h (m_parent n) l ->
  (length l <= fuel)%nat ->
  exists h',
    setQValueAndPropagate fuel h this = Some h' /\
    linked h' /\
    ownVisits h' this = (ownVisits h this + 1)%Z /\
    (forall x, x <> this -> ownVisits h' x = ownVisits h x).
Proof.
  intros Hlinked Hn Ha Hf.
  pose proof (ancestry_not_in _ _ _ _ Hn Ha) as Hself.
  pose proof (ancestry_NoDup _ _ _ Ha) as Hnd.
  destruct (setQValueAndPropagate_fields h this n l fuel Hn Ha Hf)
    as (h' & Hrun & Hnone & Hsome).
  exists h'. split; [exact Hrun |].
  assert (Hback : forall x nx', h' !! x = Some nx' ->
            exists nx, h !! x = Some nx /\ m_children nx' = m_children nx /\
                       m_parent nx' = m_parent nx).
  { intros x nx' Hx'. destruct (h !! x) as [nx |] eqn:Hx.
    - destruct (Hsome x nx Hx) as (nx2 & Hx2 & Hc & Hp & _).
      rewrite Hx' in Hx2. injection Hx2 as <-. eauto.
    - rewrite (Hnone x Hx) in Hx'. discriminate. }
  assert (Hvisits : forall c, visitsOf h' c
            = (visitsOf h c + if bool_decide (c ∈ this :: l) then 1 else 0)%Z).
  { intros c. unfold visitsOf. destruct (h !! c) as [nc |] eqn:Hc.
    - destruct (Hsome c nc Hc) as (nc' & -> & _ & _ & _ & -> & _).
      destruct (bool_decide _); lia.
    - rewrite (Hnone c Hc). rewrite bool_decide_eq_false_2; [lia |].
      intros Hin. apply elem_of_cons in Hin as [-> | Hin]; [congruence |].
      destruct (ancestry_length_lookup _ _ _ Ha c Hin) as [? Hs]. congruence. }
  split; [| split].
  - destruct Hlinked as (Hdown & Hup & Hdup). repeat split.
    + intros x nx' c Hx' Hc. destruct (Hback x nx' Hx') as (nx & Hx & Hcs & _).
      rewrite Hcs in Hc. destruct (Hdown x nx c Hx Hc) as (nc & Hnc & Hpar).
      destruct (Hsome c nc Hnc) as (nc' & Hnc' & _ & Hp & _).
      exists nc'. split; [exact Hnc' | congruence].
    + intros c nc' x Hc' Hpar. destruct (Hback c nc' Hc') as (nc & Hc & _ & Hp).
      destruct (Hup c nc x Hc) as (nx & Hx & Hin); [congruence |].
      destruct (Hsome x nx Hx) as (nx' & Hx' & Hcs & _).
      exists nx'. split; [exact Hx' | rewrite Hcs; exact Hin].
    + intros x nx' Hx'. destruct (Hback x nx' Hx') as (nx & Hx & Hcs & _).
      rewrite Hcs. eapply Hdup, Hx.
  - unfold ownVisits. rewrite Hn.
    destruct (Hsome this n Hn) as (n' & -> & -> & _ & _ & -> & _).
    rewrite bool_decide_eq_true_2 by apply list_elem_of_here.
    rewrite (Zsum_same (visitsOf h) (visitsOf h')); [lia |].
    intros c Hc. rewrite Hvisits. rewrite bool_decide_eq_false_2; [lia |].
    intros Hin.
    destruct (linked_child_on_path h this n l this n c Hlinked Hn Ha Hn Hc Hin)
      as (k & Hk & _).
    apply Hself. eapply list_elem_of_lookup_2. exact Hk.
  - intros x Hne. unfold ownVisits. destruct (h !! x) as [nx |] eqn:Hx.
    + destruct (Hsome x nx Hx) as (nx' & -> & -> & _ & _ & -> & _).
      destruct (decide (x ∈ l)) as [Hin | Hout].
      * rewrite bool_decide_eq_true_2 by (apply list_elem_of_further, Hin).
        apply list_elem_of_lookup_1 in Hin as (k & Hk).
        destruct (linked_path_child h this n l x nx k Hlinked Hn Ha Hx Hk)
          as (c0 & Hc0 & Hc0in).
        rewrite (Zsum_bump (visitsOf h) (visitsOf h') (m_children nx) c0 1).
        -- lia.
        -- destruct Hlinked as (_ & _ & Hdup). eapply Hdup, Hx.
        -- exact Hc0in.
        -- intros c Hc Hcne. rewrite Hvisits.
           rewrite bool_decide_eq_false_2; [lia |].
           intros Hin.
           destruct (linked_child_on_path h this n l x nx c Hlinked Hn Ha Hx Hc Hin)
             as (k' & Hk' & Hck').
           pose proof (NoDup_lookup _ _ _ _ Hnd Hk Hk') as ->. congruence.
        -- rewrite Hvisits. rewrite bool_decide_eq_true_2; [reflexivity |].
           eapply list_elem_of_lookup_2. exact Hc0.
      * rewrite bool_decide_eq_false_2
          by (intros Hin; apply elem_of_cons in Hin as [? | ?]; auto).
        rewrite (Zsum_same (visitsOf h) (visitsOf h')); [lia |].
        intros c Hc. rewrite Hvisits. rewrite bool_decide_eq_false_2; [lia |].
        intros Hin.
        destruct (linked_child_on_path h this n l x nx c Hlinked Hn Ha Hx Hc Hin)
          as (k & Hk & _).
        apply Hout. eapply list_elem_of_lookup_2. exact Hk.
    + rewrite (Hnone x Hx). reflexivity.
Qed.

(** X15.  Scoring a node whose ancestors have all been visited keeps the
    book of priors: at every node, what [m_policySum] holds beyond the
    priors of the visited children is as before.  The first visit of a
    node adds its prior to the parent's sum exactly when the node starts
    to count as visited. *)
Theorem setQValueAndPropagate_policySum (h : Heap) this n l fuel :
  linked h -> h !! this = Some n -> ancestry h (m_parent n) l ->
  (forall a na, a ∈ l -> h !! a = Some na -> hasQValue na = true) ->
  (length l <= fuel)%nat ->
  exists h',
    setQValueAndPropagate fuel h this = Some h' /\
    forall x, policyExcess h' x == policyExcess h x.
Proof.
  intros Hlinked Hn Ha Hvisited Hf.
  pose proof (ancestry_not_in _ _ _ _ Hn Ha) as Hself.
  pose proof (ancestry_NoDup _ _ _ Ha) as Hnd.
  destruct (setQValueAndPropagate_fields h this n l fuel Hn Ha Hf)
    as (h' & Hrun & Hnone & Hsome).
  exists h'. split; [exact Hrun |].
  set (d := if (m_visited n =? 0)%N then m_pValue n else 0).
  assert (Hprior : forall c, c <> this -> visitedPrior h' c == visitedPrior h c).
  { intros c Hne. unfold visitedPrior. destruct (h !! c) as [nc |] eqn:Hc.
    - destruct (Hsome c nc Hc) as (nc' & -> & _ & _ & -> & -> & _).
      destruct (decide (c ∈ l)) as [Hin | Hout].
      + pose proof (Hvisited c nc Hin Hc) as Hq. unfold hasQValue in Hq.
        apply N.ltb_lt in Hq.
        replace (m_visited nc =? 0)%N with false by (symmetry; apply N.eqb_neq; lia).
        replace (_ =? 0)%N with false; [reflexivity |].
        symmetry. apply N.eqb_neq. destruct (bool_decide _); lia.
      + rewrite bool_decide_eq_false_2
          by (intros Hin; apply elem_of_cons in Hin as [? | ?]; auto).
        rewrite N.add_0_r. reflexivity.
    - rewrite (Hnone c Hc). reflexivity. }
  assert (Hprior_this : visitedPrior h' this == visitedPrior h this + d).
  { unfold visitedPrior. rewrite Hn.
    destruct (Hsome this n Hn) as (n' & -> & _ & _ & -> & -> & _).
    rewrite bool_decide_eq_true_2 by apply list_elem_of_here.
    replace (m_visited n + 1 =? 0)%N with false by (symmetry; apply N.eqb_neq; lia).
    unfold d. destruct (m_visited n =? 0)%N; ring. }
  intros x. unfold policyExcess. destruct (h !! x) as [nx |] eqn:Hx.
  - destruct (Hsome x nx Hx) as (nx' & -> & -> & _ & _ & _ & ->).
    destruct (decide (l !! O = Some x)) as [Hpar | Hpar].
    + rewrite bool_decide_eq_true_2 by exact Hpar.
      destruct (linked_path_child h this n l x nx O Hlinked Hn Ha Hx Hpar)
        as (c0 & Hc0 & Hc0in).
      injection Hc0 as <-.
      rewrite (Qsum_bump (visitedPrior h) (visitedPrior h') (m_children nx) this d).
      * unfold d. cbn [andb]. destruct (m_visited n =? 0)%N; ring.
      * destruct Hlinked as (_ & _ & Hdup). eapply Hdup, Hx.
      * exact Hc0in.
      * intros c _ Hne. apply Hprior, Hne.
      * exact Hprior_this.
    + rewrite bool_decide_eq_false_2 by exact Hpar. cbn [andb].
      rewrite (Qsum_same (visitedPrior h) (visitedPrior h')); [reflexivity |].
      intros c Hc. apply Hprior. intros ->.
      destruct (linked_child_on_path h this n l x nx this Hlinked Hn Ha Hx Hc)
        as (k & Hk & Hk'); [apply list_elem_of_here |].
      destruct k as [| k]; [contradiction |].
      apply Hself. eapply list_elem_of_lookup_2. exact Hk'.
  - rewrite (Hnone x Hx). reflexivity.
Qed.

(** X16.  [generateChild] keeps both books and the agreement of parent
    pointers and children sequences: the new node has no visits, so it
    counts neither as a visit passed on nor as a visited prior. *)
Theorem generateChild_keeps_books (h : Heap) this n i pot g :
  linked h -> h !! this = Some n -> m_potentials n !! i = Some pot ->
  makeMove (m_game n) (move pot) = Some g ->
  exists h' child,
    generateChild h this i = Some (h', child) /\
    linked h' /\
    (forall x, ownVisits h' x = ownVisits h x) /\
    (forall x, policyExcess h' x == policyExcess h x).
Proof.
  intros Hlinked Hn Hpot Hmk.
  destruct (generateChild_effect h this n i pot g Hn Hpot Hmk) as (Hrun & Hfresh & Hne).
  set (child := fresh (dom h)) in *.
  set (c := set_pValue (potential_pValue pot) (newNode (Some this) g)) in *.
  set (n' := set_potentials (delete i (m_potentials n))
               (set_children (m_children n ++ [child]) n)) in *.
  set (h' := <[this := n']> (<[child := c]> h)) in *.
  exists h', child. split; [exact Hrun |].
  assert (Hthis' : h' !! this = Some n') by apply lookup_insert_eq.
  assert (Hchild' : h' !! child = Some c).
  { unfold h'. rewrite lookup_insert_ne by auto. apply lookup_insert_eq. }
  assert (Hother : forall x, x <> this -> x <> child -> h' !! x = h !! x).
  { intros x Hx Hxc. unfold h'. rewrite !lookup_insert_ne by auto. reflexivity. }
  assert (Hkeep : forall x nx, h !! x = Some nx ->
            exists nx', h' !! x = Some nx' /\ m_parent nx' = m_parent nx /\
              m_visited nx' = m_visited nx /\ m_pValue nx' = m_pValue nx /\
              m_policySum nx' = m_policySum nx /\
              (x <> this -> nx' = nx) /\
              (forall y, y ∈ m_children nx -> y ∈ m_children nx')).
  { intros x nx Hx. destruct (decide (x = this)) as [-> | Hxt].
    - rewrite Hn in Hx. injection Hx as <-. exists n'.
      split; [exact Hthis' |]. do 4 (split; [reflexivity |]).
      split; [congruence |]. intros y Hy. apply elem_of_app. left. exact Hy.
    - assert (Hxc : x <> child) by congruence.
      exists nx. rewrite Hother by auto. repeat split; auto. }
  assert (Hfresh_child : forall x nx, h !! x = Some nx -> child ∉ m_children nx).
  { intros x nx Hx Hin. destruct Hlinked as (Hdown & _ & _).
    destruct (Hdown x nx child Hx Hin) as (nc & Hnc & _). congruence. }
  assert (Hvisits : forall y, visitsOf h' y = visitsOf h y).
  { intros y. unfold visitsOf. destruct (decide (y = child)) as [-> | Hyc].
    - rewrite Hchild', Hfresh. reflexivity.
    - destruct (h !! y) as [ny |] eqn:Hy.
      + destruct (Hkeep y ny Hy) as (ny' & -> & _ & -> & _). reflexivity.
      + rewrite Hother by congruence. rewrite Hy. reflexivity. }
  assert (Hprior : forall y, visitedPrior h' y == visitedPrior h y).
  { intros y. unfold visitedPrior. destruct (decide (y = child)) as [-> | Hyc].
    - rewrite Hchild', Hfresh. reflexivity.
    - destruct (h !! y) as [ny |] eqn:Hy.
      + destruct (Hkeep y ny Hy) as (ny' & -> & _ & -> & -> & _). reflexivity.
      + rewrite Hother by congruence. rewrite Hy. reflexivity. }
  split; [| split].
  - destruct Hlinked as (Hdown & Hup & Hdup). repeat split.
    + intros x nx' y Hx' Hy.
      destruct (decide (x = this)) as [-> | Hxt].
      * rewrite Hthis' in Hx'. injection Hx' as <-.
        apply elem_of_app in Hy as [Hy | Hy].
        -- destruct (Hdown this n y Hn Hy) as (ny & Hny & Hpar).
           destruct (Hkeep y ny Hny) as (ny' & Hny' & Hpar' & _).
           exists ny'. split; [exact Hny' | congruence].
        -- apply list_elem_of_singleton in Hy as ->.
           exists c. split; [exact Hchild' | reflexivity].
      * destruct (decide (x = child)) as [-> | Hxc].
        -- rewrite Hchild' in Hx'. injection Hx' as <-. inversion Hy.
        -- rewrite Hother in Hx' by auto.
           destruct (Hdown x nx' y Hx' Hy) as (ny & Hny & Hpar).
           destruct (Hkeep y ny Hny) as (ny' & Hny' & Hpar' & _).
           exists ny'. split; [exact Hny' | congruence].
    + intros y ny' x Hy' Hpar.
      destruct (decide (y = child)) as [-> | Hyc].
      * rewrite Hchild' in Hy'. injection Hy' as <-.
        injection Hpar as <-. exists n'. split; [exact Hthis' |].
        apply elem_of_app. right. apply list_elem_of_here.
      * assert (Hy : exists ny, h !! y = Some ny /\ m_parent ny = Some x).
        { destruct (decide (y = this)) as [-> | Hyt].
          - rewrite Hthis' in Hy'. injection Hy' as <-. exists n. split; [exact Hn | exact Hpar].
          - rewrite Hother in Hy' by auto. eauto. }
        destruct Hy as (ny & Hy & Hpar0).
        destruct (Hup y ny x Hy Hpar0) as (nx & Hx & Hin).
        destruct (Hkeep x nx Hx) as (nx' & Hx' & _ & _ & _ & _ & _ & Hsub).
        exists nx'. split; [exact Hx' | apply Hsub, Hin].
    + intros x nx' Hx'.
      destruct (decide (x = this)) as [-> | Hxt].
      * rewrite Hthis' in Hx'. injection Hx' as <-.
        cbn [n' m_children set_potentials set_children].
        apply NoDup_app. split; [eapply Hdup, Hn |]. split; [| apply NoDup_singleton].
        intros y Hy Hy'. apply list_elem_of_singleton in Hy' as ->.
        exact (Hfresh_child this n Hn Hy).
      * destruct (decide (x = child)) as [-> | Hxc].
        -- rewrite Hchild' in Hx'. injection Hx' as <-. apply NoDup_nil_2.
        -- rewrite Hother in Hx' by auto. eapply Hdup, Hx'.
  - intros x. unfold ownVisits.
    destruct (decide (x = this)) as [-> | Hxt].
    + rewrite Hthis', Hn. cbn [n' m_visited m_children set_potentials set_children].
      rewrite fmap_app, fold_right_app. cbn [fmap list_fmap fold_right].
      rewrite Hvisits. unfold visitsOf at 1. rewrite Hfresh.
      rewrite (Zsum_same (visitsOf h) (visitsOf h')); [lia |].
      intros y _. apply Hvisits.
    + destruct (decide (x = child)) as [-> | Hxc].
      * rewrite Hchild', Hfresh. reflexivity.
      * rewrite Hother by auto. destruct (h !! x) as [nx |]; [| reflexivity].
        rewrite (Zsum_same (visitsOf h) (visitsOf h')); [lia |].
        intros y _. apply Hvisits.
  - intros x. unfold policyExcess.
    destruct (decide (x = this)) as [-> | Hxt].
    + rewrite Hthis', Hn. cbn [n' m_policySum m_children set_potentials set_children].
      rewrite fmap_app, fold_right_app. cbn [fmap list_fmap fold_right].
      assert (Hz : visitedPrior h' child + 0 == 0).
      { rewrite Hprior. unfold visitedPrior. rewrite Hfresh. ring. }
      assert (Hfold : forall (a b : Q) (ys : list Q), a == b ->
                fold_right Qplus a ys == fold_right Qplus b ys).
      { intros a b ys Hab. induction ys as [| y ys IH]; simpl; [exact Hab |].
        rewrite IH. reflexivity. }
      rewrite (Hfold _ _ _ Hz).
      rewrite (Qsum_same (visitedPrior h) (visitedPrior h')); [reflexivity |].
      intros y _. apply Hprior.
    + destruct (decide (x = child)) as [-> | Hxc].
      * rewrite Hchild', Hfresh. reflexivity.
      * rewrite Hother by auto. destruct (h !! x) as [nx |]; [| reflexivity].
        rewrite (Qsum_same (visitedPrior h) (visitedPrior h')); [reflexivity |].
        intros y _. apply Hprior.
Qed.

(** ** Selection *)

Lemma Qgt_bool_true (a b : Q) : Qgt_bool a b = true <-> b < a.
Proof.
  unfold Qgt_bool. destruct (Qle_bool a b) eqn:Hle; simpl.
  - apply Qle_bool_iff in Hle. split; [discriminate | lra].
  - split; [intros _ | reflexivity].
    apply Qnot_le_lt. intros Hc. apply Qle_bool_iff in Hc. congruence.
Qed.

Lemma Qgt_bool_false (a b : Q) : Qgt_bool a b = false <-> a <= b.
Proof.
  unfold Qgt_bool. destruct (Qle_bool a b) eqn:Hle; simpl.
  - apply Qle_bool_iff in Hle. split; [intros _; exact Hle | reflexivity].
  - split; [discriminate |]. intros Hc. apply Qle_bool_iff in Hc. congruence.
Qed.

(** One more candidate keeps the two best. *)
Lemma consider_twoBest (items : list ((MCTSNode * nat) * Q)) (st : Selection)
    (x : (MCTSNode * nat) * Q) :
  (forall it, it ∈ items -> isNull (fst it) = false) ->
  items <> [] -> twoBest items st -> twoBest (items ++ [x]) (consider st x).
Proof.
  intros Hnn Hne (i & Hi & Hbest & Hone & Htwo).
  assert (Hlen : (1 <= length items)%nat).
  { destruct items; [contradiction | simpl; lia]. }
  assert (Hilt : (i < length items)%nat) by (eapply lookup_lt_Some; exact Hi).
  assert (Hfirst : isNull (firstNode st) = false).
  { apply (Hnn (firstNode st, bestScore st)). eapply list_elem_of_lookup_2. exact Hi. }
  assert (Hlast : (items ++ [x]) !! length items = Some x).
  { rewrite lookup_app_r by lia. rewrite Nat.sub_diag. reflexivity. }
  assert (Hsplit : forall j it, (items ++ [x]) !! j = Some it ->
            (j < length items)%nat /\ items !! j = Some it \/
            j = length items /\ it = x).
  { intros j it Hj. destruct (decide (j < length items)%nat) as [Hlt | Hge].
    - left. rewrite lookup_app_l in Hj by exact Hlt. auto.
    - right. pose proof (lookup_lt_Some _ _ _ Hj) as Hb.
      rewrite length_app in Hb. simpl in Hb.
      assert (j = length items) by lia. subst j.
      rewrite Hlast in Hj. injection Hj as <-. auto. }
  destruct x as [node score]. unfold consider. rewrite Hfirst. cbn [orb].
  destruct (Qgt_bool score (bestScore st)) eqn:Hgt.
  - apply Qgt_bool_true in Hgt.
    exists (length items). cbn [firstNode secondNode bestScore secondBestScore].
    split; [exact Hlast |]. split; [| split].
    + intros j it Hj. destruct (Hsplit j it Hj) as [(Hlt & Hj') | (-> & ->)].
      * destruct (Hbest j it Hj') as (Hle & _). split; [lra | intros _; lra].
      * cbn [snd]. split; [lra | lia].
    + rewrite length_app. simpl. lia.
    + intros _. exists i. split; [lia |].
      split; [rewrite lookup_app_l by exact Hilt; exact Hi |].
      intros j it Hji Hj. destruct (Hsplit j it Hj) as [(Hlt & Hj') | (-> & ->)].
      * apply (Hbest j it Hj').
      * contradiction.
  - apply Qgt_bool_false in Hgt.
    destruct (decide (length items = 1%nat)) as [Hl1 | Hl2].
    + rewrite (Hone Hl1). cbn [isNull fst orb].
      exists i. cbn [firstNode secondNode bestScore secondBestScore].
      split; [rewrite lookup_app_l by exact Hilt; exact Hi |]. split; [| split].
      * intros j it Hj. destruct (Hsplit j it Hj) as [(Hlt & Hj') | (-> & ->)].
        -- apply (Hbest j it Hj').
        -- cbn [snd]. split; [exact Hgt | lia].
      * rewrite length_app. simpl. lia.
      * intros _. exists (length items). split; [lia |].
        split; [exact Hlast |].
        intros j it Hji Hj. destruct (Hsplit j it Hj) as [(Hlt & Hj') | (-> & ->)].
        -- lia.
        -- cbn [snd]. split; [lra | lia].
    + destruct Htwo as (k & Hki & Hk & Hsecond); [lia |].
      assert (Hklt : (k < length items)%nat) by (eapply lookup_lt_Some; exact Hk).
      assert (Hsnd : isNull (secondNode st) = false).
      { apply (Hnn (secondNode st, secondBestScore st)).
        eapply list_elem_of_lookup_2. exact Hk. }
      rewrite Hsnd. cbn [orb].
      destruct (Qgt_bool score (secondBestScore st)) eqn:Hgt2.
      * apply Qgt_bool_true in Hgt2.
        exists i. cbn [firstNode secondNode bestScore secondBestScore].
        split; [rewrite lookup_app_l by exact Hilt; exact Hi |]. split; [| split].
        -- intros j it Hj. destruct (Hsplit j it Hj) as [(Hlt & Hj') | (-> & ->)].
           ++ apply (Hbest j it Hj').
           ++ cbn [snd]. split; [exact Hgt | lia].
        -- rewrite length_app. simpl. lia.
        -- intros _. exists (length items). split; [lia |].
           split; [exact Hlast |].
           intros j it Hji Hj. destruct (Hsplit j it Hj) as [(Hlt & Hj') | (-> & ->)].
           ++ destruct (Hsecond j it Hji Hj') as (Hle & _).
              split; [lra | intros _; lra].
           ++ cbn [snd]. split; [lra | lia].
      * apply Qgt_bool_false in Hgt2.
        exists i. split; [rewrite lookup_app_l by exact Hilt; exact Hi |].
        split; [| split].
        -- intros j it Hj. destruct (Hsplit j it Hj) as [(Hlt & Hj') | (-> & ->)].
           ++ apply (Hbest j it Hj').
           ++ cbn [snd]. split; [exact Hgt | lia].
        -- rewrite length_app. simpl. lia.
        -- intros _. exists k. split; [exact Hki |].
           split; [rewrite lookup_app_l by exact Hklt; exact Hk |].
           intros j it Hji Hj. destruct (Hsplit j it Hj) as [(Hlt & Hj') | (-> & ->)].
           ++ apply (Hsecond j it Hji Hj').
           ++ cbn [snd]. split; [exact Hgt2 | lia].
Qed.

(** X17.  The two loops of [playout] over the candidates pick the two
    best: the first is the earliest candidate of the highest score, the
    second the earliest of the highest score among the others; a single
    candidate leaves the second null.  Children come before potentials, so
    a child wins a tie against a potential. *)
Theorem selectTwo_two_best (items : list ((MCTSNode * nat) * Q)) :
  (forall it, it ∈ items -> isNull (fst it) = false) ->
  items <> [] -> twoBest items (selectTwo items).
Proof.
  unfold selectTwo. induction items as [| x items IH] using rev_ind; intros Hnn Hne.
  - contradiction.
  - rewrite fold_left_app. cbn [fold_left].
    destruct items as [| y items].
    + destruct x as [node score]. cbn [fold_left consider nullSelection firstNode
        isNull fst orb app]. exists O.
      cbn [firstNode secondNode bestScore secondBestScore].
      split; [reflexivity |]. split; [| split].
      * intros [| j] it Hj; [| discriminate].
        injection Hj as <-. cbn [snd]. split; [lra | lia].
      * reflexivity.
      * simpl. lia.
    + apply consider_twoBest.
      * intros it Hit. apply Hnn, elem_of_app. left. exact Hit.
      * discriminate.
      * apply IH; [| discriminate].
        intros it Hit. apply Hnn, elem_of_app. left. exact Hit.
Qed.

(** ** Descent *)

(** One round of the loop of [playout]. *)
Lemma playoutLoop_round fuel this tryLimit vldLeft d vld n (h : Heap) cn nd :
  h !! n = Some nd ->
  playoutLoop (S fuel) this tryLimit vldLeft d vld n h cn =
    if negb (m_scoringOrScored nd) || m_isExact nd then
      Some (<[n := claimed nd]> h, Some (n, (d + 1)%Z), cn)
    else
      let h2 := <[n := pressed vld nd]> h in
      if Node_isAlreadyPlayingOut (set_scoringOrScored true nd)
         || Node_isNotExtendable (pressed vld nd)
      then
        if (tryLimit - 1 <=? 0)%Z then Some (h2, None, cn)
        else if (vldLeft - Z.of_N (m_virtualLoss (pressed vld nd)) <=? 0)%Z
        then Some (h2, None, cn)
        else playoutLoop fuel this (tryLimit - 1)%Z
               (vldLeft - Z.of_N (m_virtualLoss (pressed vld nd)))%Z 0%Z
               (vldLeft - Z.of_N (m_virtualLoss (pressed vld nd)))%Z this h2 cn
      else
        items ← candidates h2 n (pressed vld nd);
        vld' ← (if isNull (secondNode (selectTwo items)) then Some vld
                else
                  vldNew ← virtualLossDistance h2 (bestScore (selectTwo items))
                             (fst (firstNode (selectTwo items)))
                             (fst (secondNode (selectTwo items)));
                  Some (if (vld =? 0)%Z then vldNew else Z.min vld vldNew));
        '(h3, next, created) ← actualNode h2 (firstNode (selectTwo items));
        playoutLoop fuel this tryLimit vldLeft (d + 1)%Z vld' next h3
                    (if created : bool then true else cn).
Proof. intros Hn. cbn [playoutLoop]. rewrite Hn. reflexivity. Qed.

Lemma virtualLossDistanceOf_at_least_1 (wec q p uCoeff : Q) :
  (1 <= vldMax)%Z -> (1 <= virtualLossDistanceOf wec q p uCoeff)%Z.
Proof.
  intros Hmax. unfold virtualLossDistanceOf.
  destruct (qFuzzyCompare _ _); [lia |].
  destruct (Qgt_bool _ _); [exact Hmax |].
  unfold qMax. apply Z.le_max_l.
Qed.

Lemma grown_refl (nx : Node) : grown nx nx.
Proof. unfold grown. repeat split; auto; lia. Qed.

Lemma grown_trans (a b c : Node) : grown a b -> grown b c -> grown a c.
Proof.
  unfold grown.
  intros (A1 & A2 & A3 & A4 & A5 & A6 & A7 & A8 & A9 & A10 & A11 & A12 & A13 & A14)
         (B1 & B2 & B3 & B4 & B5 & B6 & B7 & B8 & B9 & B10 & B11 & B12 & B13 & B14).
  repeat split; try congruence; try lia; auto.
  etransitivity; eassumption.
Qed.

Lemma grown_claimed (nd : Node) : grown nd (claimed nd).
Proof. unfold grown, claimed. simpl. repeat split; auto; lia. Qed.

Lemma grown_pressed (vld : Z) (nd : Node) : (1 <= vld)%Z -> grown nd (pressed vld nd).
Proof.
  intros Hvld. unfold grown, pressed. simpl.
  repeat split; auto. destruct (Node_isAlreadyPlayingOut _); lia.
Qed.

Lemma descended_insert (h0 h : Heap) n nd nd' :
  descended h0 h -> h !! n = Some nd -> grown nd nd' ->
  descended h0 (<[n := nd']> h).
Proof.
  intros Hd Hn Hg x nx Hx. destruct (Hd x nx Hx) as (nx1 & Hx1 & Hg1).
  destruct (decide (x = n)) as [-> | Hne].
  - rewrite Hn in Hx1. injection Hx1 as <-. exists nd'.
    split; [apply lookup_insert_eq | eapply grown_trans; eassumption].
  - exists nx1. rewrite lookup_insert_ne by auto. auto.
Qed.

Lemma descended_insert_new (h0 h : Heap) x c :
  descended h0 h -> h !! x = None -> descended h0 (<[x := c]> h).
Proof.
  intros Hd Hx y ny Hy. destruct (Hd y ny Hy) as (ny1 & Hy1 & Hg1).
  exists ny1. rewrite lookup_insert_ne by congruence. auto.
Qed.

Lemma generateChild_inv (h h3 : Heap) p i child :
  generateChild h p i = Some (h3, child) ->
  exists np pot g,
    h !! p = Some np /\ m_potentials np !! i = Some pot /\
    makeMove (m_game np) (move pot) = Some g /\
    h !! child = None /\ child <> p /\
    h3 = <[p := set_potentials (delete i (m_potentials np))
                  (set_children (m_children np ++ [child]) np)]>
           (<[child := set_pValue (potential_pValue pot) (newNode (Some p) g)]> h).
Proof.
  intros Hrun.
  destruct (h !! p) as [np |] eqn:Hp;
    [| unfold generateChild in Hrun; rewrite Hp in Hrun; discriminate].
  destruct (m_potentials np !! i) as [pot |] eqn:Hpot;
    [| unfold generateChild in Hrun; rewrite Hp in Hrun;
       cbn [mbind option_bind] in Hrun; rewrite Hpot in Hrun; discriminate].
  destruct (makeMove (m_game np) (move pot)) as [g |] eqn:Hmk;
    [| unfold generateChild in Hrun; rewrite Hp in Hrun;
       cbn [mbind option_bind] in Hrun; rewrite Hpot in Hrun;
       cbn [mbind option_bind] in Hrun; rewrite Hmk in Hrun; discriminate].
  destruct (generateChild_effect h p np i pot g Hp Hpot Hmk) as (Heq & Hfresh & Hne).
  rewrite Heq in Hrun. injection Hrun as <- <-.
  exists np, pot, g. repeat split; auto.
Qed.

Lemma grown_generateChild (np : Node) i pot child :
  m_potentials np !! i = Some pot ->
  grown np (set_potentials (delete i (m_potentials np))
              (set_children (m_children np ++ [child]) np)).
Proof.
  intros Hpot. unfold grown. simpl. repeat split; auto; try lia.
  - apply prefix_app_r. reflexivity.
  - rewrite length_app, length_delete by eauto. simpl.
    apply lookup_lt_Some in Hpot. lia.
Qed.

(** What holds of every answer of the loop, whatever the state it is
    entered in. *)
Lemma playoutLoop_safety (h0 : Heap) (cn : bool) :
  (1 <= vldMax)%Z ->
  forall fuel this tryLimit vldLeft d vld n (h h' : Heap) r cn',
    (1 <= vld)%Z -> (0 <= d)%Z ->
    descended h0 h -> (forall x, h0 !! x = None -> h !! x = None) ->
    playoutLoop fuel this tryLimit vldLeft d vld n h cn = Some (h', r, cn') ->
    descended h0 h' /\
    (forall x, h0 !! x = None -> is_Some (h' !! x) ->
       cn' = true /\ exists d', r = Some (x, d')) /\
    (cn' = cn \/ cn' = true /\ exists x d', r = Some (x, d') /\ h0 !! x = None) /\
    match r with
    | Some (m, d') =>
        (1 <= d')%Z /\
        exists nd', h' !! m = Some nd' /\
          m_scoringOrScored nd' = true /\ (1 <= m_virtualLoss nd')%N /\
          (m_isExact nd' = true \/
           match h0 !! m with
           | Some nd0 => m_scoringOrScored nd0 = false
           | None => True
           end)
    | None => True
    end.
Proof.
  intros Hmax fuel.
  induction fuel as [| fuel IH];
    intros this tryLimit vldLeft d vld n h h' r cn' Hvld Hd Hdesc Hdom Hrun;
    [discriminate |].
  destruct (h !! n) as [nd |] eqn:Hn;
    [| cbn [playoutLoop] in Hrun; rewrite Hn in Hrun; discriminate].
  rewrite (playoutLoop_round _ _ _ _ _ _ _ _ _ _ Hn) in Hrun.
  assert (Hnew : forall nd', forall x, h0 !! x = None ->
            is_Some (<[n := nd']> h !! x) -> False).
  { intros nd' x Hx0 [y Hy]. rewrite lookup_insert_ne in Hy.
    - rewrite (Hdom x Hx0) in Hy. discriminate.
    - intros <-. rewrite (Hdom n Hx0) in Hn. discriminate. }
  destruct (negb (m_scoringOrScored nd) || m_isExact nd) eqn:Hclaim.
  - (* the node is claimed and returned *)
    injection Hrun as <- <- <-.
    split; [eapply descended_insert; [exact Hdesc | exact Hn | apply grown_claimed] |].
    split; [intros x Hx0 Hs; destruct (Hnew _ x Hx0 Hs) |].
    split; [left; reflexivity |].
    split; [lia |]. exists (claimed nd).
    split; [apply lookup_insert_eq |]. split; [reflexivity |].
    split; [simpl; lia |].
    destruct (m_isExact nd) eqn:Hex; [left; exact Hex | right].
    rewrite orb_false_r in Hclaim. apply negb_true_iff in Hclaim.
    destruct (h0 !! n) as [nd0 |] eqn:Hn0; [| exact I].
    destruct (Hdesc n nd0 Hn0) as (nd1 & Hnd1 & Hg).
    rewrite Hn in Hnd1. injection Hnd1 as <-.
    destruct Hg as (_ & _ & _ & _ & _ & _ & _ & _ & _ & _ & _ & Hflag & _).
    destruct (m_scoringOrScored nd0); [| reflexivity].
    rewrite Hflag in Hclaim by reflexivity. discriminate.
  - cbv zeta in Hrun.
    assert (Hdesc2 : descended h0 (<[n := pressed vld nd]> h)).
    { eapply descended_insert; [exact Hdesc | exact Hn | apply grown_pressed, Hvld]. }
    assert (Hdom2 : forall x, h0 !! x = None -> <[n := pressed vld nd]> h !! x = None).
    { intros x Hx0. destruct (<[n := pressed vld nd]> h !! x) eqn:Hx; [| reflexivity].
      destruct (Hnew (pressed vld nd) x Hx0). rewrite Hx. eauto. }
    assert (Hgiveup : forall h1 c1, h1 = <[n := pressed vld nd]> h -> c1 = cn ->
              descended h0 h1 /\
              (forall x, h0 !! x = None -> is_Some (h1 !! x) ->
                 c1 = true /\ exists d', @None (NodeId * Z) = Some (x, d')) /\
              (c1 = cn \/ c1 = true /\
                 exists x d', @None (NodeId * Z) = Some (x, d') /\ h0 !! x = None) /\
              True).
    { intros h1 c1 -> ->. split; [exact Hdesc2 |].
      split; [intros x Hx0 Hs; destruct (Hnew _ x Hx0 Hs) |].
      split; [left; reflexivity | exact I]. }
    destruct (Node_isAlreadyPlayingOut (set_scoringOrScored true nd)
              || Node_isNotExtendable (pressed vld nd)).
    + (* the attempt ends here *)
      destruct (tryLimit - 1 <=? 0)%Z.
      { injection Hrun as <- <- <-. apply Hgiveup; reflexivity. }
      destruct (vldLeft - Z.of_N (m_virtualLoss (pressed vld nd)) <=? 0)%Z eqn:Hleft.
      { injection Hrun as <- <- <-. apply Hgiveup; reflexivity. }
      apply Z.leb_gt in Hleft.
      eapply IH; [| | exact Hdesc2 | exact Hdom2 | exact Hrun]; lia.
    + (* the descent goes on *)
      destruct (candidates (<[n := pressed vld nd]> h) n (pressed vld nd))
        as [items |]; [| discriminate].
      cbn [mbind option_bind] in Hrun.
      set (st := selectTwo items) in *.
      assert (Hvld' : forall vld', (if isNull (secondNode st) then Some vld
                 else
                   vldNew ← virtualLossDistance (<[n := pressed vld nd]> h)
                              (bestScore st) (fst (firstNode st)) (fst (secondNode st));
                   Some (if (vld =? 0)%Z then vldNew else Z.min vld vldNew))
                = Some vld' -> (1 <= vld')%Z).
      { intros vld' Heq. destruct (isNull (secondNode st)).
        - injection Heq as <-. exact Hvld.
        - unfold virtualLossDistance in Heq.
          destruct (MCTS_qValue _ _) as [q |]; [| discriminate].
          destruct (MCTS_pValue _ _) as [pv |]; [| discriminate].
          destruct (MCTS_uCoeff _ _) as [u |]; [| discriminate].
          cbn [mbind option_bind] in Heq. injection Heq as <-.
          pose proof (virtualLossDistanceOf_at_least_1 (bestScore st) q pv u Hmax).
          destruct (vld =? 0)%Z; lia. }
      destruct (if isNull (secondNode st) then Some vld else _) as [vld' |] eqn:Hv;
        [| discriminate].
      specialize (Hvld' vld' eq_refl).
      cbn [mbind option_bind] in Hrun.
      destruct (actualNode (<[n := pressed vld nd]> h) (firstNode st))
        as [[[h3 next] created] |] eqn:Hact; [| discriminate].
      cbn [mbind option_bind] in Hrun.
      unfold actualNode in Hact.
      destruct (fst (firstNode st)) as [| c | parent pot]; [discriminate | |].
      * (* an actual child *)
        injection Hact as <- <- <-.
        eapply IH; [| | exact Hdesc2 | exact Hdom2 | exact Hrun]; lia.
      * (* a potential: the child is created, and claimed in the next round *)
        destruct (generateChild _ parent (snd (firstNode st)))
          as [[h3' child] |] eqn:Hgen; [| discriminate].
        cbn [mbind option_bind] in Hact. injection Hact as <- <- <-.
        destruct (generateChild_inv _ _ _ _ _ Hgen)
          as (np & pot' & g & Hp & Hpot & Hmk & Hfresh & Hne & ->).
        destruct fuel as [| fuel]; [discriminate |].
        set (c := set_pValue (potential_pValue pot') (newNode (Some parent) g)) in *.
        set (np' := set_potentials _ _) in *.
        assert (Hc : <[parent := np']> (<[child := c]> (<[n := pressed vld nd]> h))
                       !! child = Some c).
        { rewrite lookup_insert_ne by auto. apply lookup_insert_eq. }
        rewrite (playoutLoop_round _ _ _ _ _ _ _ _ _ _ Hc) in Hrun.
        cbn [c set_pValue newNode m_scoringOrScored negb orb] in Hrun.
        injection Hrun as <- <- <-.
        assert (Hchild0 : h0 !! child = None).
        { destruct (h0 !! child) as [nc0 |] eqn:Hc0; [| reflexivity].
          destruct (Hdesc2 child nc0 Hc0) as (? & Hs & _). congruence. }
        split.
        { intros x nx Hx. destruct (Hdesc2 x nx Hx) as (nx1 & Hx1 & Hg1).
          assert (Hxc : x <> child) by congruence.
          rewrite lookup_insert_ne by auto.
          destruct (decide (x = parent)) as [-> | Hxp].
          - rewrite Hp in Hx1. injection Hx1 as <-. exists np'.
            split; [apply lookup_insert_eq |].
            eapply grown_trans; [exact Hg1 |].
            apply grown_generateChild with pot'. exact Hpot.
          - exists nx1. rewrite !lookup_insert_ne by auto. auto. }
        split.
        { intros x Hx0 [y Hy]. split; [reflexivity |].
          destruct (decide (x = child)) as [-> | Hxc]; [eauto |].
          rewrite lookup_insert_ne in Hy by auto.
          destruct (decide (x = parent)) as [-> | Hxp].
          - rewrite (Hdom2 parent Hx0) in Hp. discriminate.
          - rewrite !lookup_insert_ne in Hy by auto.
            rewrite (Hdom2 x Hx0) in Hy. discriminate. }
        split; [right; split; [reflexivity | eauto] |].
        split; [lia |]. eexists. split; [apply lookup_insert_eq |].
        split; [reflexivity |]. split; [simpl; lia |].
        right. rewrite Hchild0. exact I.
Qed.

Lemma descended_refl (h : Heap) : descended h h.
Proof. intros x nx Hx. exists nx. split; [exact Hx | apply grown_refl]. Qed.

(** X18.  Whatever [playout] answers when [vldMax] is at least 1: every
    node of the tree is still there with the statistics, values, marks,
    position and parent it had, with a virtual loss that has not fallen
    and a claim flag that has not been cleared, its children only appended
    to.  The only node that can be new is the node returned, and
    [*createdNode] is set exactly then and otherwise left as it was.  The
    node returned is claimed, carries a virtual loss, lies at depth 1 or
    more, and is exact or was not claimed before. *)
Theorem playout_safety (h h' : Heap) this fuel cn r cn' :
  (1 <= vldMax)%Z ->
  playout fuel h this cn = Some (h', r, cn') ->
  descended h h' /\
  (forall x, h !! x = None -> is_Some (h' !! x) ->
     cn' = true /\ exists d, r = Some (x, d)) /\
  (cn' = cn \/ cn' = true /\ exists x d, r = Some (x, d) /\ h !! x = None) /\
  match r with
  | Some (m, d) =>
      (1 <= d)%Z /\
      exists nd', h' !! m = Some nd' /\
        m_scoringOrScored nd' = true /\ (1 <= m_virtualLoss nd')%N /\
        (m_isExact nd' = true \/
         match h !! m with
         | Some nd0 => m_scoringOrScored nd0 = false
         | None => True
         end)
  | None => True
  end.
Proof.
  intros Hmax Hrun. unfold playout in Hrun.
  eapply (playoutLoop_safety h cn Hmax);
    [| | apply descended_refl | | exact Hrun]; auto; lia.
Qed.

Lemma selectTwo_members (items : list ((MCTSNode * nat) * Q)) :
  items <> [] ->
  firstNode (selectTwo items) ∈ fst <$> items /\
  (secondNode (selectTwo items) = (MCTSNull, O) \/
   secondNode (selectTwo items) ∈ fst <$> items).
Proof.
  unfold selectTwo. induction items as [| x items IH] using rev_ind; intros Hne.
  - contradiction.
  - rewrite fold_left_app. cbn [fold_left]. rewrite fmap_app.
    destruct x as [node score]. destruct items as [| y items].
    + cbn. split; [apply list_elem_of_here | left; reflexivity].
    + destruct IH as (Hf & Hs); [discriminate |].
      set (st := fold_left consider (y :: items) nullSelection) in *.
      unfold consider.
      destruct (isNull (firstNode st) || Qgt_bool score (bestScore st)).
      * cbn [firstNode secondNode]. split.
        -- apply elem_of_app. right. apply list_elem_of_here.
        -- right. apply elem_of_app. left. exact Hf.
      * destruct (isNull (secondNode st) || Qgt_bool score (secondBestScore st)).
        -- cbn [firstNode secondNode]. split.
           ++ apply elem_of_app. left. exact Hf.
           ++ right. apply elem_of_app. right. apply list_elem_of_here.
        -- split; [apply elem_of_app; left; exact Hf |].
           destruct Hs as [Hs | Hs]; [left; exact Hs |].
           right. apply elem_of_app. left. exact Hs.
Qed.

Lemma playable_insert (rank : NodeId -> nat) (h : Heap) n nd nd' :
  playable rank h -> h !! n = Some nd ->
  m_children nd' = m_children nd -> m_potentials nd' = m_potentials nd ->
  m_game nd' = m_game nd -> m_parent nd' = m_parent nd ->
  playable rank (<[n := nd']> h).
Proof.
  intros (Hkids & Hmoves) Hn Hc Hp Hg Hpar.
  assert (Hkeep : forall c nc, h !! c = Some nc ->
            exists nc', <[n := nd']> h !! c = Some nc' /\ m_parent nc' = m_parent nc).
  { intros c nc Hcl. destruct (decide (c = n)) as [-> | Hne].
    - rewrite Hn in Hcl. injection Hcl as <-. exists nd'.
      split; [apply lookup_insert_eq | exact Hpar].
    - exists nc. rewrite lookup_insert_ne by auto. auto. }
  split.
  - intros x nx c Hx Hin.
    assert (Hold : exists nx0, h !! x = Some nx0 /\ c ∈ m_children nx0).
    { destruct (decide (x = n)) as [-> | Hne].
      - rewrite lookup_insert_eq in Hx. injection Hx as <-.
        exists nd. rewrite <- Hc. auto.
      - rewrite lookup_insert_ne in Hx by auto. eauto. }
    destruct Hold as (nx0 & Hx0 & Hin0).
    destruct (Hkids x nx0 c Hx0 Hin0) as (Hrank & nc & Hnc & Hparc).
    split; [exact Hrank |].
    destruct (Hkeep c nc Hnc) as (nc' & Hnc' & Hpar').
    exists nc'. split; [exact Hnc' | congruence].
  - intros x nx pot Hx Hin.
    destruct (decide (x = n)) as [-> | Hne].
    + rewrite lookup_insert_eq in Hx. injection Hx as <-.
      rewrite Hg. apply (Hmoves n nd pot Hn). rewrite <- Hp. exact Hin.
    + rewrite lookup_insert_ne in Hx by auto. eapply Hmoves; eassumption.
Qed.

(** The candidates of a node are its children and its potentials, and
    each of them has a score. *)
Lemma candidates_Some (h : Heap) n nd nd' :
  h !! n = Some nd' ->
  exists items,
    candidates h n nd = Some items /\
    fst <$> items
    = ((fun child => (MCTSChild child, O)) <$> m_children nd)
      ++ imap (fun i potential => (MCTSPotential n potential, i)) (m_potentials nd).
Proof.
  intros Hn. unfold candidates.
  set (f := fun c : MCTSNode * nat =>
              score ← MCTS_weightedExplorationScore h (fst c); Some (c, score)).
  set (inputs := _ ++ _).
  assert (Hall : Forall (is_Some ∘ f) inputs).
  { apply Forall_forall. intros c Hc. unfold inputs in Hc.
    apply elem_of_app in Hc as [Hc | Hc].
    - apply list_elem_of_fmap in Hc as (ch & -> & _). unfold f. simpl. eauto.
    - apply elem_of_lookup_imap_1 in Hc as (i & pot & -> & _).
      unfold f. simpl. rewrite Hn. simpl.
      destruct (isRootNode nd'); simpl; eauto. }
  apply mapM_is_Some_2 in Hall as [items Hitems].
  exists items. split; [exact Hitems |].
  apply (mapM_fmap_Some_inv f fst inputs items Hitems).
  intros x y Hxy. unfold f in Hxy.
  destruct (MCTS_weightedExplorationScore h (fst x)); [| discriminate].
  simpl in Hxy. injection Hxy as <-. reflexivity.
Qed.

Lemma set_virtualLoss_self (nd : Node) :
  set_virtualLoss (m_virtualLoss nd) nd = nd.
Proof. destruct nd. reflexivity. Qed.

(** Passing through a claimed node only raises its virtual loss. *)
Lemma pressed_claimed (vld : Z) (nd0 : Node) (v : N) :
  m_scoringOrScored nd0 = true -> (1 <= vld)%Z ->
  exists v', (v <= v')%N /\
    pressed vld (set_virtualLoss v nd0) = set_virtualLoss v' nd0.
Proof.
  intros Hflag Hvld.
  exists (Z.to_N (Z.of_N v
                  + if Node_isAlreadyPlayingOut
                         (set_scoringOrScored true (set_virtualLoss v nd0))
                    then vld - 1 else 1)).
  split; [destruct (Node_isAlreadyPlayingOut _); lia |].
  destruct nd0. simpl in Hflag. subst. reflexivity.
Qed.

Lemma pressed_not_playing (vld : Z) (nd : Node) :
  Node_isAlreadyPlayingOut (set_scoringOrScored true nd) = false ->
  pressed vld nd
  = set_virtualLoss (m_virtualLoss nd + 1)%N (set_scoringOrScored true nd).
Proof.
  intros Hp. unfold pressed. cbv zeta. rewrite Hp.
  replace (Z.to_N (Z.of_N (m_virtualLoss (set_scoringOrScored true nd)) + 1))
    with (m_virtualLoss nd + 1)%N; [reflexivity |].
  cbn [m_virtualLoss set_scoringOrScored]. lia.
Qed.

(** With enough fuel the loop answers from every state it can be in, and
    the depth it reports counts the nodes from the start to the node
    returned.  [h0] is the tree [playout] was called on, [h] the tree as
    the loop has it: the nodes of [h0] with their virtual losses raised. *)
Lemma playoutLoop_returns (rank : NodeId -> nat) (this : NodeId) (h0 : Heap) :
  (1 <= vldMax)%Z -> selectable h0 ->
  forall fuel tryLimit vldLeft d vld n (h : Heap) k cn,
    (1 <= vld)%Z ->
    (forall x nd, h !! x = Some nd ->
       exists nd0 v, h0 !! x = Some nd0 /\ (m_virtualLoss nd0 <= v)%N /\
                     nd = set_virtualLoss v nd0) ->
    playable rank h -> is_Some (h !! this) -> is_Some (h !! n) ->
    descends h this n k -> d = Z.of_nat k -> (rank n <= rank this)%nat ->
    (Z.to_nat (tryLimit - 1) * (rank this + 2) + rank n + 2 <= fuel)%nat ->
    exists h' r cn',
      playoutLoop fuel this tryLimit vldLeft d vld n h cn = Some (h', r, cn') /\
      match r with
      | Some (m, d') =>
          exists k', d' = (Z.of_nat k' + 1)%Z /\ descends h' this m k'
      | None => True
      end.
Proof.
  intros Hmax Hsel fuel.
  induction fuel as [| fuel IH];
    intros tryLimit vldLeft d vld n h k cn Hvld Hfrom Hplay Hthis [nd Hn]
           Hdesc Hd Hrank Hfuel;
    [nia |].
  rewrite (playoutLoop_round _ _ _ _ _ _ _ _ _ _ Hn).
  destruct (negb (m_scoringOrScored nd) || m_isExact nd) eqn:Hclaim.
  - eexists _, _, _. split; [reflexivity |]. exists k. split; [lia |].
    apply descends_same_parents with h; [| exact Hdesc].
    intros x nx _ Hx. destruct (decide (x = n)) as [-> | Hne].
    + rewrite Hn in Hx. injection Hx as <-. exists (claimed nd).
      split; [apply lookup_insert_eq | reflexivity].
    + exists nx. rewrite lookup_insert_ne by auto. auto.
  - apply orb_false_iff in Hclaim as (Hflag & Hexact).
    apply negb_false_iff in Hflag.
    destruct (Hfrom n nd Hn) as (nd0 & v & Hn0 & Hv & Hnd).
    assert (Hflag0 : m_scoringOrScored nd0 = true) by (rewrite Hnd in Hflag; exact Hflag).
    assert (Hexact0 : m_isExact nd0 = false) by (rewrite Hnd in Hexact; exact Hexact).
    destruct (pressed_claimed vld nd0 v Hflag0 Hvld) as (v' & Hv' & Hpressed).
    rewrite <- Hnd in Hpressed.
    cbv zeta. set (nd2 := pressed vld nd) in *. set (h2 := <[n := nd2]> h).
    assert (Hn2 : h2 !! n = Some nd2) by apply lookup_insert_eq.
    assert (Hfrom2 : forall x nx, h2 !! x = Some nx ->
              exists nx0 w, h0 !! x = Some nx0 /\ (m_virtualLoss nx0 <= w)%N /\
                            nx = set_virtualLoss w nx0).
    { intros x nx Hx. destruct (decide (x = n)) as [-> | Hne].
      - rewrite Hn2 in Hx. injection Hx as <-. exists nd0, v'.
        split; [exact Hn0 |]. split; [lia | exact Hpressed].
      - unfold h2 in Hx. rewrite lookup_insert_ne in Hx by auto.
        apply (Hfrom x nx Hx). }
    assert (Hplay2 : playable rank h2).
    { apply playable_insert with nd; auto. }
    assert (Hthis2 : is_Some (h2 !! this)).
    { destruct (decide (this = n)) as [-> | Hne]; [eauto |].
      unfold h2. rewrite lookup_insert_ne by auto. exact Hthis. }
    assert (Hdesc2 : descends h2 this n k).
    { apply descends_same_parents with h; [| exact Hdesc].
      intros x nx _ Hx. destruct (decide (x = n)) as [-> | Hne].
      - rewrite Hn in Hx. injection Hx as <-. exists nd2. split; [exact Hn2 | reflexivity].
      - exists nx. unfold h2. rewrite lookup_insert_ne by auto. auto. }
    destruct (Node_isAlreadyPlayingOut (set_scoringOrScored true nd)
              || Node_isNotExtendable nd2) eqn:Hstop.
    + destruct (tryLimit - 1 <=? 0)%Z eqn:Htry.
      { eexists _, _, _. split; [reflexivity | exact I]. }
      destruct (vldLeft - Z.of_N (m_virtualLoss nd2) <=? 0)%Z eqn:Hleft.
      { eexists _, _, _. split; [reflexivity | exact I]. }
      apply Z.leb_gt in Htry. apply Z.leb_gt in Hleft.
      apply (IH _ _ _ _ this h2 O cn); auto; [lia | constructor |].
      replace (Z.to_nat (tryLimit - 1)) with (S (Z.to_nat (tryLimit - 1 - 1))) in Hfuel
        by lia.
      simpl in Hfuel. nia.
    + apply orb_false_iff in Hstop as (Hplaying & Hstop).
      assert (Hsome : m_children nd2 <> [] \/ m_potentials nd2 <> []).
      { unfold nd2 in Hstop. rewrite (pressed_not_playing vld nd Hplaying) in Hstop.
        rewrite Hnd in Hplaying, Hstop.
        destruct (Hsel n nd0 v Hn0 Hflag0 Hexact0 Hv Hplaying Hstop) as [Hc | Hp];
          [left | right]; unfold nd2; rewrite Hnd; assumption. }
      destruct (candidates_Some h2 n nd2 nd2 Hn2) as (items & Hitems & Hfst).
      rewrite Hitems. cbn [mbind option_bind].
      assert (Hcases : forall c, c ∈ fst <$> items ->
                (exists ch, c = (MCTSChild ch, O) /\ ch ∈ m_children nd2) \/
                (exists i pot, c = (MCTSPotential n pot, i) /\
                               m_potentials nd2 !! i = Some pot)).
      { intros c Hc. rewrite Hfst in Hc. apply elem_of_app in Hc as [Hc | Hc].
        - apply list_elem_of_fmap in Hc as (ch & -> & Hch). left. eauto.
        - apply elem_of_lookup_imap_1 in Hc as (i & pot & -> & Hpot). right. eauto. }
      assert (Hne : items <> []).
      { intros ->. simpl in Hfst. symmetry in Hfst.
        apply app_eq_nil in Hfst as (Hc & Hp).
        apply fmap_nil_inv in Hc.
        destruct Hsome as [Hx | Hx]; [contradiction |].
        change (m_potentials nd2) with (m_potentials nd) in Hx.
        destruct (m_potentials nd); [contradiction | discriminate]. }
      destruct (selectTwo_members items Hne) as (Hfirst & Hsecond).
      set (st := selectTwo items) in *.
      assert (Hnext : exists vld',
                (if isNull (secondNode st) then Some vld
                 else
                   vldNew ← virtualLossDistance h2 (bestScore st)
                              (fst (firstNode st)) (fst (secondNode st));
                   Some (if (vld =? 0)%Z then vldNew else Z.min vld vldNew))
                = Some vld' /\ (1 <= vld')%Z).
      { destruct (isNull (secondNode st)) eqn:Hnull; [eauto |].
        destruct Hsecond as [Hs | Hs]; [rewrite Hs in Hnull; discriminate |].
        assert (Hread : exists q pv u,
                  virtualLossDistance h2 (bestScore st) (fst (firstNode st))
                    (fst (secondNode st))
                  = Some (virtualLossDistanceOf (bestScore st) q pv u)).
        { unfold virtualLossDistance.
          destruct (Hcases _ Hs) as [(ch & -> & Hch) | (i & pot & -> & Hpot)].
          - destruct Hplay2 as (Hkids & _).
            destruct (Hkids n nd2 ch Hn2 Hch) as (_ & nc & Hnc & Hpar).
            cbn [fst MCTS_qValue MCTS_pValue MCTS_uCoeff]. rewrite Hnc.
            cbn [mbind option_bind]. rewrite Hpar. cbn [mbind option_bind]. eauto.
          - cbn [fst MCTS_qValue MCTS_pValue MCTS_uCoeff]. rewrite Hn2.
            cbn [mbind option_bind].
            destruct (isRootNode nd2); cbn [mbind option_bind]; eauto. }
        destruct Hread as (q & pv & u & ->). cbn [mbind option_bind].
        eexists. split; [reflexivity |].
        pose proof (virtualLossDistanceOf_at_least_1 (bestScore st) q pv u Hmax).
        destruct (vld =? 0)%Z; lia. }
      destruct Hnext as (vld' & -> & Hvld'). cbn [mbind option_bind].
      unfold actualNode.
      destruct (Hcases _ Hfirst) as [(ch & -> & Hch) | (i & pot & -> & Hpot)].
      * (* an actual child *)
        cbn [fst snd mbind option_bind].
        destruct Hplay2 as (Hkids & Hmoves).
        destruct (Hkids n nd2 ch Hn2 Hch) as (Hlt & nc & Hnc & Hpar).
        apply (IH _ _ _ _ ch h2 (S k) cn); auto.
        -- split; assumption.
        -- apply descends_up with nc n; auto. intros ->. lia.
        -- lia.
        -- lia.
        -- nia.
      * (* a potential *)
        cbn [fst snd].
        destruct Hplay2 as (Hkids & Hmoves).
        destruct (Hmoves n nd2 pot Hn2) as [g Hmk];
          [eapply list_elem_of_lookup_2; exact Hpot |].
        destruct (generateChild_effect h2 n nd2 i pot g Hn2 Hpot Hmk)
          as (Hgen & Hfresh & Hcn).
        rewrite Hgen. cbn [mbind option_bind].
        destruct fuel as [| fuel]; [nia |].
        set (child := fresh (dom h2)) in *.
        set (c := set_pValue (potential_pValue pot) (newNode (Some n) g)) in *.
        set (np' := set_potentials _ _) in *.
        assert (Hc : <[n := np']> (<[child := c]> h2) !! child = Some c).
        { rewrite lookup_insert_ne by auto. apply lookup_insert_eq. }
        rewrite (playoutLoop_round _ _ _ _ _ _ _ _ _ _ Hc).
        cbn [c set_pValue newNode m_scoringOrScored negb orb].
        eexists _, _, _. split; [reflexivity |]. exists (S k). split; [lia |].
        apply descends_up with (claimed c) n.
        -- intros Heq. destruct Hthis2 as [? Hs]. rewrite <- Heq in Hs. congruence.
        -- apply lookup_insert_eq.
        -- reflexivity.
        -- apply descends_same_parents with h2; [| exact Hdesc2].
           intros x nx _ Hx.
           assert (Hxc : x <> child) by congruence.
           rewrite lookup_insert_ne by auto.
           destruct (decide (x = n)) as [-> | Hxn].
           ++ rewrite Hn2 in Hx. injection Hx as <-. exists np'.
              split; [apply lookup_insert_eq | reflexivity].
           ++ exists nx. rewrite !lookup_insert_ne by auto. auto.
Qed.

(** X19.  On a tree it can descend, and with [vldMax] at least 1,
    [playout] answers once the fuel covers [tryPlayoutLimit] attempts (one
    at the least) of as many rounds as the start node ranks above the
    leaves, and two more: the ranks bound the depth of the tree, and where
    the descent comes to select there is a child or a potential to select.
    When a node is returned, the depth reported is the number of nodes
    from the start node down to it: the node lies [depth - 1] parent links
    below the start. *)
Theorem playout_returns (rank : NodeId -> nat) (h : Heap) this fuel cn :
  (1 <= vldMax)%Z ->
  playable rank h -> is_Some (h !! this) -> selectable h ->
  (Z.to_nat (Z.max 1 tryPlayoutLimit) * (rank this + 2) <= fuel)%nat ->
  exists h' r cn',
    playout fuel h this cn = Some (h', r, cn') /\
    match r with
    | Some (m, d) => exists k, d = (Z.of_nat k + 1)%Z /\ descends h' this m k
    | None => True
    end.
Proof.
  intros Hmax Hplay Hthis Hsel Hfuel. unfold playout.
  apply (playoutLoop_returns rank this h Hmax Hsel fuel _ _ _ _ this h O cn); auto.
  - intros x nd Hx. exists nd, (m_virtualLoss nd).
    split; [exact Hx |]. split; [lia |]. symmetry. apply set_virtualLoss_self.
  - constructor.
  - assert (Hsplit : Z.to_nat (Z.max 1 tryPlayoutLimit)
                     = S (Z.to_nat (tryPlayoutLimit - 1))) by lia.
    rewrite Hsplit in Hfuel. simpl in Hfuel. nia.
Qed.

(** ** Earlier positions *)

Lemma previousMovesLoop_spec (fullHistory : bool) (it result : list Game) :
  previousMovesLoop fullHistory it result
  = rev (take (if fullHistory then length it else (11 - length result)%nat) it)
    ++ result.
Proof.
  revert result. induction it as [| g rest IH]; intros result.
  - simpl. rewrite take_nil. reflexivity.
  - cbn [previousMovesLoop]. destruct fullHistory.
    + cbn [orb]. rewrite IH. cbn [length take rev]. rewrite <- app_assoc. reflexivity.
    + cbn [orb]. destruct (length result <? 11)%nat eqn:Hlt.
      * apply Nat.ltb_lt in Hlt. rewrite IH. cbn [length].
        replace (11 - length result)%nat with (S (11 - S (length result))) by lia.
        cbn [take rev]. rewrite <- app_assoc. reflexivity.
      * apply Nat.ltb_ge in Hlt.
        replace (11 - length result)%nat with O by lia. reflexivity.
Qed.

(** X21.  [previousMoves] answers the positions of the ancestors, the
    oldest first and the parent's last, without the node's own position:
    all of them for the full history, and otherwise those of the eleven
    nearest ancestors. *)
Theorem previousMoves_spec (h : Heap) this n l fuel (fullHistory : bool) :
  h !! this = Some n -> ancestry h (m_parent n) l -> (length l <= fuel)%nat ->
  previousMoves fuel h this fullHistory
  = Some (rev (if fullHistory then gamesOf h l else take 11 (gamesOf h l))).
Proof.
  intros Hn Ha Hf. unfold previousMoves. rewrite Hn. cbn [mbind option_bind].
  rewrite (historyFrom_ancestry h _ l fuel Ha Hf). cbn [mbind option_bind].
  rewrite previousMovesLoop_spec, app_nil_r. f_equal.
  destruct fullHistory; [rewrite firstn_all |]; reflexivity.
Qed.

(** ** The principal variation *)

Lemma movesOf_cons (h : Heap) a n l :
  h !! a = Some n ->
  movesOf h (a :: l) = moveToString (lastMove (m_game n)) :: movesOf h l.
Proof. intros Ha. unfold movesOf. simpl. rewrite Ha. reflexivity. Qed.

Lemma principalVariation_below (h : Heap) this l cut :
  bestLine h this l cut ->
  forall n fuel depth,
    h !! this = Some n -> isRootNode n = false -> hasPValue n = true ->
    (length l + 2 <= fuel)%nat ->
    principalVariation fuel h this depth
    = Some (lineText (movesOf h (this :: l)) cut,
            (depth + 1 + Z.of_nat (length l))%Z).
Proof.
  induction 1 as [this n0 Hn0 Hch | this n0 best rest nb Hn0 Hch Hsort Hb Hbr Hbp
                  | this n0 best rest nb l cut Hn0 Hch Hsort Hb Hbr Hbp _ IH];
    intros n fuel depth Hn Hroot Hp Hf;
    rewrite Hn0 in Hn; injection Hn as <-;
    (destruct fuel as [| fuel]; [simpl in Hf; lia |]);
    rewrite (movesOf_cons h this n0 _ Hn0);
    cbn [principalVariation]; rewrite Hn0; cbn [mbind option_bind];
    rewrite Hroot, Hp, Hch; cbn [negb andb].
  - cbn [movesOf omap list_omap lineText length]. f_equal. f_equal. lia.
  - rewrite Hsort. destruct fuel as [| fuel]; [simpl in Hf; lia |].
    cbn [principalVariation]. rewrite Hb. cbn [mbind option_bind].
    rewrite Hbr, Hbp.
    cbn [negb andb mbind option_bind movesOf omap list_omap lineText length
           String.append].
    f_equal. f_equal. lia.
  - rewrite Hsort.
    rewrite (IH nb fuel (depth + 1)%Z Hb Hbr Hbp) by (simpl in Hf; lia).
    cbn [mbind option_bind].
    rewrite (movesOf_cons h best nb _ Hb).
    cbn [lineText length]. f_equal. f_equal. lia.
Qed.

(** X22.  The text and the depth of [principalVariation] along the best
    line [l] below a node that is the root or has a prior.  The depth
    grows by one for the node and by one for every node of the line.  A
    node that is not the root gives its own last move and those of the
    line, separated by single spaces; the root leaves its own move out
    unless it has no children, in which case its own last move is the
    whole text.  A line that is cut at a child without a prior leaves a
    space at the end of the text of a node that is not the root. *)
Theorem principalVariation_line (h : Heap) this n l cut fuel (depth : Z) :
  h !! this = Some n -> isRootNode n || hasPValue n = true ->
  bestLine h this l cut -> (length l + 2 <= fuel)%nat ->
  principalVariation fuel h this depth
  = Some (lineText (movesOf h (if isRootNode n && hasChildren n
                               then l else this :: l)) cut,
          (depth + 1 + Z.of_nat (length l))%Z).
Proof.
  intros Hn Hstart Hline Hf.
  destruct (isRootNode n) eqn:Hroot.
  - cbn [andb].
    destruct fuel as [| fuel]; [lia |].
    cbn [principalVariation]. rewrite Hn. cbn [mbind option_bind].
    rewrite Hroot. cbn [negb andb].
    inversion Hline as [this' n0 Hn0 Hch | this' n0 best rest nb Hn0 Hch Hsort Hb Hbr Hbp
                        | this' n0 best rest nb l' cut' Hn0 Hch Hsort Hb Hbr Hbp Hl'];
      subst; rewrite Hn in Hn0; injection Hn0 as <-; rewrite Hch; cbn [negb].
    + rewrite (movesOf_cons h this n _ Hn).
      cbn [movesOf omap list_omap lineText length]. f_equal. f_equal. lia.
    + rewrite Hsort. destruct fuel as [| fuel]; [simpl in Hf; lia |].
      cbn [principalVariation]. rewrite Hb. cbn [mbind option_bind].
      rewrite Hbr, Hbp.
      cbn [negb andb mbind option_bind movesOf omap list_omap lineText length].
      f_equal. f_equal. lia.
    + rewrite Hsort.
      rewrite (principalVariation_below h best l' cut Hl' nb fuel (depth + 1)%Z
                 Hb Hbr Hbp) by (simpl in Hf; lia).
      cbn [mbind option_bind length]. f_equal. f_equal. lia.
  - cbn [orb andb] in *.
    apply (principalVariation_below h this l cut Hline n fuel depth Hn Hroot Hstart Hf).
Qed.

End MoreFacts.

Section MoreCentipawnFacts.
Import Centipawn.
Local Open Scope R_scope.

(** A number less than one half away from an integer rounds to it. *)
Lemma qRound_near_integer (d : R) (z : Z) :
  IZR z - 0.5 < d < IZR z + 0.5 -> qRound d = z.
Proof.
  intros [Hlo Hhi]. destruct (qRound_spec d) as [Hq1 Hq2].
  assert (H1 : (qRound d < z + 1)%Z).
  { apply lt_IZR. rewrite plus_IZR. lra. }
  assert (H2 : (z < qRound d + 1)%Z).
  { apply lt_IZR. rewrite plus_IZR. lra. }
  lia.
Qed.

(** Near 9000 centipawns and below, [atan] still moves by more than the
    rounding of a float over 0.49 centipawns. *)
Lemma atan_step_centipawn (x y : R) :
  -31 <= x -> y <= 31 -> y - x = 0.49 / 290.680623072 ->
  atan x + 1.7 / 1000000 < atan y.
Proof.
  intros Hx Hy Hxy.
  assert (Hlt : x < y) by lra.
  destruct (atan_step x y Hlt) as [c [[Hc1 Hc2] Hc]].
  assert (Hc2' : c ^ 2 <= 961) by nra.
  assert (Hpos : 0 < 1 + c ^ 2) by (pose proof (pow2_ge_0 c); lra).
  assert (Hlow : 1.75 / 1000000 <= (y - x) / (1 + c ^ 2)).
  { apply div_le_lower; [exact Hpos |]. rewrite Hxy. lra. }
  lra.
Qed.

(** X20.  [scoreToCP] undoes [cpToScore] on the float it returns: for
    up to 9000 centipawns either way, any float that stands for
    [cpToScore cp] is converted back to [cp] itself. *)
Theorem scoreToCP_cpToScore (cp : Z) (f : Q) :
  (-9000 <= cp <= 9000)%Z ->
  roundsTo f (cpToScore cp) ->
  scoreToCP (Q2R f) = cp.
Proof.
  intros [Hcp1 Hcp2] Hround. unfold roundsTo in Hround.
  apply IZR_le in Hcp1. apply IZR_le in Hcp2.
  set (s := Q2R f) in *. set (x := IZR cp) in *.
  unfold cpToScore in Hround. fold x in Hround.
  assert (Ht : Rabs (1.548090806 * s - atan (x / 290.680623072)) <= 1.6 / 1000000).
  { replace (1.548090806 * s - atan (x / 290.680623072))
      with (1.548090806 * (s - atan (x / 290.680623072) / 1.548090806))
      by (field; lra).
    rewrite Rabs_mult. rewrite (Rabs_pos_eq 1.548090806) by lra.
    pose proof (Rabs_pos (s - atan (x / 290.680623072) / 1.548090806)). nra. }
  assert (Ht1 : - (1.6 / 1000000) <= 1.548090806 * s - atan (x / 290.680623072)
                <= 1.6 / 1000000).
  { revert Ht. unfold Rabs. destruct (Rcase_abs _); lra. }
  assert (Hup : atan (x / 290.680623072) + 1.7 / 1000000
                < atan ((x + 0.49) / 290.680623072)).
  { apply atan_step_centipawn.
    - apply div_le_lower; lra.
    - apply div_le_upper; lra.
    - lra. }
  assert (Hdown : atan ((x - 0.49) / 290.680623072) + 1.7 / 1000000
                  < atan (x / 290.680623072)).
  { apply atan_step_centipawn.
    - apply div_le_lower; lra.
    - apply div_le_upper; lra.
    - lra. }
  pose proof (atan_bound ((x + 0.49) / 290.680623072)) as [_ Hb1].
  pose proof (atan_bound ((x - 0.49) / 290.680623072)) as [Hb2 _].
  assert (Hhi : tan (1.548090806 * s) < (x + 0.49) / 290.680623072).
  { rewrite <- (tan_atan ((x + 0.49) / 290.680623072)).
    apply tan_increasing; lra. }
  assert (Hlo : (x - 0.49) / 290.680623072 < tan (1.548090806 * s)).
  { rewrite <- (tan_atan ((x - 0.49) / 290.680623072)).
    apply tan_increasing; lra. }
  unfold scoreToCP. fold s. apply qRound_near_integer. fold x.
  assert (Hhi' : 290.680623072 * tan (1.548090806 * s) < x + 0.49).
  { replace (x + 0.49) with (290.680623072 * ((x + 0.49) / 290.680623072))
      by (field; lra).
    apply Rmult_lt_compat_l; lra. }
  assert (Hlo' : x - 0.49 < 290.680623072 * tan (1.548090806 * s)).
  { replace (x - 0.49) with (290.680623072 * ((x - 0.49) / 290.680623072))
      by (field; lra).
    apply Rmult_lt_compat_l; lra. }
  lra.
Qed.

End MoreCentipawnFacts.

(** ** The further statements at work on the example engine *)

Section MoreChecks.
#[local] Existing Instance exampleChess.
#[local] Existing Instance exampleEngine.
#[local] Existing Instance exampleSearch.

Ltac chain :=
  repeat first [ apply ancestry_root
               | eapply ancestry_step; [reflexivity | simpl] ].

(** Every node of a heap that is written out. *)
Ltac each_node Hx :=
  repeat (apply lookup_insert_Some in Hx as [[<- <-] | [_ Hx]]);
  try (rewrite lookup_empty in Hx; discriminate Hx).

(** C6, counterexample.  An exact node does not always have its raw value
    as Q value.  Marked exact by [generatePotentials], a tablebase win has
    raw value 449/450 and still the constructor's Q value -2.  Scored
    once, its Q value is the raw value; made the root and given a child by
    [checkAndGenerateDTZ], it takes the child's value in like any other
    ancestor: it is still exact, its raw value is still 449/450, and its Q
    value is 0. *)
Lemma exact_root_averaged_by_child :
  (exists asked h n,
     generatePotentials 1 (rootAndChild 4 0) 1%nat = Some (asked, h) /\
     h !! 1%nat = Some n /\ m_isExact n = true /\
     (m_rawQValue n == 449 # 450)%Q /\ (m_qValue n == - (2))%Q) /\
  (exists h0 n0 h1 n1,
     exactRoot = Some h0 /\ h0 !! 1%nat = Some n0 /\
     m_isExact n0 = true /\ m_qValue n0 = m_rawQValue n0 /\
     checkAndGenerateDTZ 1 h0 1%nat = Some (h1, true, 5%Z) /\
     h1 !! 1%nat = Some n1 /\ m_isExact n1 = true /\
     (m_rawQValue n1 == 449 # 450)%Q /\ (m_qValue n1 == 0)%Q /\
     ~ (m_qValue n1 == m_rawQValue n1)%Q).
Proof.
  split.
  - eexists _, _, _. split; [vm_compute; reflexivity |].
    split; [vm_compute; reflexivity |]. repeat split.
  - eexists _, _, _, _. split; [vm_compute; reflexivity |].
    split; [vm_compute; reflexivity |]. split; [reflexivity |].
    split; [reflexivity |]. split; [vm_compute; reflexivity |].
    split; [vm_compute; reflexivity |]. split; [reflexivity |].
    split; [reflexivity |]. split; [reflexivity |].
    intros Heq. vm_compute in Heq. discriminate Heq.
Qed.

(** X2, witness: a fresh child in an ordinary position gets its two legal
    moves as potentials and does not become exact. *)
Lemma generatePotentials_exact_or_expanded_witness :
  exists asked h' n',
    generatePotentials 1 (rootAndChild 0 0) 1%nat = Some (asked, h') /\
    h' !! 1%nat = Some n' /\
    m_isExact n' = false /\ length (m_potentials n') = 2%nat.
Proof.
  destruct (generatePotentials_exact_or_expanded
              (rootAndChild 0 0) 1%nat (freshChild 0 0) [0%nat] 1)
    as (asked & h' & n' & Hrun & Hn' & _ & _ & _ & _).
  - reflexivity.
  - reflexivity.
  - simpl. chain.
  - simpl. lia.
  - exists asked, h', n'. split; [exact Hrun |]. split; [exact Hn' |].
    vm_compute in Hrun. injection Hrun as _ <-.
    vm_compute in Hn'. injection Hn' as <-. split; reflexivity.
Defined.

(** X3, witness: a root in a tablebase position is expanded without the
    tablebase being asked. *)
Lemma generatePotentials_root_skips_tablebase_witness :
  exists asked h' n',
    generatePotentials 0 (tablebaseRoot 4) 0%nat = Some (asked, h') /\
    h' !! 0%nat = Some n' /\
    (AskTablebase ∉ asked) /\ m_isTB n' = false.
Proof.
  exact (generatePotentials_root_skips_tablebase
           (tablebaseRoot 4) 0%nat (newNode None (gameAt 4 0)) 0
           eq_refl eq_refl eq_refl).
Defined.

(** X4, witness: the last node of the repeated line has met its position
    twice before. *)
Lemma repetitions_counts_since_irreversible_witness :
  exists h',
    Node_repetitions 4 repeatedLine 4%nat = Some (2%Z, h') /\
    isThreeFold 4 repeatedLine 4%nat = Some (true, h').
Proof.
  destruct (repetitions_counts_since_irreversible
              repeatedLine 4%nat (newNode (Some 3%nat) (gameAt 0 5))
              [3; 2; 1; 0]%nat 4) as [Hr Ht].
  - reflexivity.
  - reflexivity.
  - simpl. chain.
  - simpl. lia.
  - eexists. split; [exact Hr | exact Ht].
Defined.

(** X5, witness: the same node, asked twice. *)
Lemma repetitions_cached_witness :
  exists r h',
    Node_repetitions 4 repeatedLine 4%nat = Some (r, h') /\
    (0 <= r <= 2)%Z /\
    Node_repetitions 0 h' 4%nat = Some (r, h').
Proof.
  apply (repetitions_cached repeatedLine 4%nat
           (newNode (Some 3%nat) (gameAt 0 5)) [3; 2; 1; 0]%nat 4).
  - reflexivity.
  - reflexivity.
  - simpl. chain.
  - simpl. lia.
Defined.

(** X6, witness: the root of the three-ply tree, seen from its leaf. *)
Lemma rootNode_is_last_ancestor_witness :
  rootNode 2 threePly 2%nat = Some 0%nat /\
  rootNode 2 threePly 1%nat = Some 0%nat.
Proof.
  destruct (rootNode_is_last_ancestor threePly 2%nat threePlyLeaf [1; 0]%nat 2)
    as (r & nr & Hr & Hlast & _ & _ & _ & Hall).
  - reflexivity.
  - simpl. chain.
  - simpl. lia.
  - injection Hlast as <-. split; [exact Hr |].
    apply Hall. apply list_elem_of_here.
Defined.

(** X7, witness: re-rooting the child of [rootAndChild] twice. *)
Lemma setAsRootNode_idempotent_witness :
  exists h',
    setAsRootNode (rootAndChild 0 0) 1%nat = Some h' /\
    setAsRootNode h' 1%nat = Some h'.
Proof.
  eexists. split; [reflexivity |].
  apply (setAsRootNode_idempotent (rootAndChild 0 0) _ 1%nat). reflexivity.
Defined.

(** X8, witness: a root with one visit and Q value 0 takes in 1 and -1/2. *)
Lemma backPropagateValue_mean_witness :
  m_visited (fold_left (fun nd v => backPropagateValue v nd)
               [1%Q; (- (1 # 2))%Q] scoredRoot) = 3%N /\
  (m_qValue (fold_left (fun nd v => backPropagateValue v nd)
               [1%Q; (- (1 # 2))%Q] scoredRoot) == 1 # 6)%Q.
Proof.
  destruct (backPropagateValue_mean [1%Q; (- (1 # 2))%Q] scoredRoot) as [Hv Hq].
  - reflexivity.
  - split; [exact Hv |]. rewrite Hq. reflexivity.
Defined.

(** X9, witness: the first potential of the expanded root becomes its
    first child. *)
Lemma generateChild_spec_witness :
  exists h' child c n',
    generateChild expandedRoot 0%nat 0 = Some (h', child) /\
    expandedRoot !! child = None /\
    h' !! child = Some c /\ m_parent c = Some 0%nat /\
    (m_pValue c == 6 # 10)%Q /\
    h' !! 0%nat = Some n' /\ m_children n' = [child] /\
    m_potentials n' = [mkPotential 28%nat (4 # 10)].
Proof.
  destruct (generateChild_spec expandedRoot 0%nat expandedRootNode 0
              firstPotential (afterMove 12))
    as (h' & child & c & n' & Hrun & Hfresh & Hc & -> & _ & _ & _ & _ & _ & _
        & _ & _ & Hn' & -> & _).
  - reflexivity.
  - reflexivity.
  - reflexivity.
  - eexists h', child, _, _. split; [exact Hrun |]. split; [exact Hfresh |].
    split; [exact Hc |]. split; [reflexivity |]. split; [reflexivity |].
    split; [exact Hn' |]. split; reflexivity.
Defined.

(** X10, witness: the child of the expanded root lies at depth 1 under the
    same root. *)
Lemma generateChild_depth_witness :
  exists h' child,
    generateChild expandedRoot 0%nat 0 = Some (h', child) /\
    depth 1 h' child = Some 1%Z /\ rootNode 1 h' child = Some 0%nat.
Proof.
  destruct (generateChild_depth expandedRoot 0%nat expandedRootNode 0
              firstPotential (afterMove 12) [] 1)
    as (h' & child & r & Hrun & _ & _ & Hd & Hr & Hr').
  - reflexivity.
  - reflexivity.
  - reflexivity.
  - constructor.
  - simpl. lia.
  - exists h', child. split; [exact Hrun |]. split; [exact Hd |].
    assert (Er : Some 0%nat = Some r) by exact Hr.
    injection Er as <-. exact Hr'.
Defined.

(** X11, witness: the child is created and made the root at once. *)
Lemma generateChild_then_setAsRootNode_witness :
  exists h' child h'' n'',
    generateChild expandedRoot 0%nat 0 = Some (h', child) /\
    setAsRootNode h' child = Some h'' /\
    h'' !! 0%nat = Some n'' /\ m_children n'' = [] /\
    rootNode 0 h'' child = Some child.
Proof.
  destruct (generateChild_then_setAsRootNode expandedRoot 0%nat expandedRootNode 0
              firstPotential (afterMove 12))
    as (h' & child & h'' & n'' & c'' & Hrun & Hset & Hn'' & Hch & _ & _ & _ & Hr & _).
  - reflexivity.
  - reflexivity.
  - reflexivity.
  - intros c Hc. inversion Hc.
  - exists h', child, h'', n''. repeat split; assumption.
Defined.

(** X12, witness: a root whose position the tablebase does not hold. *)
Lemma checkAndGenerateDTZ_declines_witness :
  checkAndGenerateDTZ 1 (tablebaseRoot 0) 0%nat
  = Some (tablebaseRoot 0, false, 0%Z).
Proof.
  apply (checkAndGenerateDTZ_declines (tablebaseRoot 0) 0%nat
           (newNode None (gameAt 0 0)) NotFound (0%nat : @Move exampleChess) 0%Z 1).
  - reflexivity.
  - reflexivity.
  - left. reflexivity.
Defined.

(** X13, witness: an unscored root in a position the tablebase wins in
    five: the child scores 449/450, the root ends with two visits and
    -449/900. *)
Lemma checkAndGenerateDTZ_accepts_witness :
  exists h' child c n',
    checkAndGenerateDTZ 1 (tablebaseRoot 4) 0%nat = Some (h', true, 5%Z) /\
    h' !! child = Some c /\ m_isTB c = true /\
    (m_qValue c == 449 # 450)%Q /\
    h' !! 0%nat = Some n' /\ m_children n' = [child] /\
    m_visited n' = 2%N /\ (m_qValue n' == - (449 # 900))%Q /\
    (m_policySum n' == 1)%Q.
Proof.
  destruct (checkAndGenerateDTZ_accepts (tablebaseRoot 4) 0%nat
              (newNode None (gameAt 4 0)) Win firstMove 5%Z (afterMove 12) 1)
    as (h' & child & c & n' & Hrun & _ & Hc & _ & _ & _ & Htb & _ & Hq & _ & _ & _
        & Hn' & Hch & Hps & _ & Hfirst & _).
  - reflexivity.
  - reflexivity.
  - reflexivity.
  - discriminate.
  - reflexivity.
  - reflexivity.
  - lia.
  - destruct (Hfirst eq_refl) as [Hv Hqn].
    exists h', child, c, n'. split; [exact Hrun |]. split; [exact Hc |].
    split; [exact Htb |]. split; [rewrite Hq; reflexivity |].
    split; [exact Hn' |]. split; [exact Hch |]. split; [exact Hv |].
    split; [rewrite Hqn; reflexivity |]. rewrite Hps. reflexivity.
Defined.

Lemma threePly_linked : linked threePly.
Proof.
  split; [| split].
  - intros x nx c Hx Hc. unfold threePly in Hx. each_node Hx.
    + inversion Hc.
    + apply list_elem_of_singleton in Hc as ->.
      exists threePlyLeaf. split; reflexivity.
    + apply list_elem_of_singleton in Hc as ->.
      exists threePlyChild. split; reflexivity.
  - intros c nc x Hc Hpar. unfold threePly in Hc. each_node Hc.
    + injection Hpar as <-. exists threePlyChild.
      split; [reflexivity | apply list_elem_of_here].
    + injection Hpar as <-. exists threePlyRoot.
      split; [reflexivity | apply list_elem_of_here].
    + discriminate Hpar.
  - intros x nx Hx. unfold threePly in Hx. each_node Hx.
    + apply NoDup_nil_2.
    + apply NoDup_singleton.
    + apply NoDup_singleton.
Qed.

Lemma expandedRoot_linked : linked expandedRoot.
Proof.
  split; [| split].
  - intros x nx c Hx Hc. unfold expandedRoot in Hx. each_node Hx. inversion Hc.
  - intros c nc x Hc Hpar. unfold expandedRoot in Hc. each_node Hc.
    discriminate Hpar.
  - intros x nx Hx. unfold expandedRoot in Hx. each_node Hx. apply NoDup_nil_2.
Qed.

(** X14, witness: scoring the leaf of the three-ply tree adds one visit of
    its own to the leaf and none to the two nodes above it. *)
Lemma setQValueAndPropagate_visits_witness :
  exists h',
    setQValueAndPropagate 2 threePly 2%nat = Some h' /\
    ownVisits h' 2%nat = (ownVisits threePly 2%nat + 1)%Z /\
    ownVisits h' 1%nat = ownVisits threePly 1%nat /\
    ownVisits h' 0%nat = ownVisits threePly 0%nat.
Proof.
  destruct (setQValueAndPropagate_visits threePly 2%nat threePlyLeaf [1; 0]%nat 2)
    as (h' & Hrun & _ & Hthis & Hrest).
  - exact threePly_linked.
  - reflexivity.
  - simpl. chain.
  - simpl. lia.
  - exists h'. split; [exact Hrun |]. split; [exact Hthis |].
    split; apply Hrest; discriminate.
Defined.

(** X15, witness: the same scoring credits the leaf's prior to its parent
    as the leaf starts to count as visited. *)
Lemma setQValueAndPropagate_policySum_witness :
  exists h',
    setQValueAndPropagate 2 threePly 2%nat = Some h' /\
    (policyExcess h' 1%nat == policyExcess threePly 1%nat)%Q /\
    (policyExcess h' 0%nat == policyExcess threePly 0%nat)%Q.
Proof.
  destruct (setQValueAndPropagate_policySum threePly 2%nat threePlyLeaf
              [1; 0]%nat 2) as (h' & Hrun & Hall).
  - exact threePly_linked.
  - reflexivity.
  - simpl. chain.
  - intros a na Ha Hna.
    apply elem_of_cons in Ha as [-> | Ha];
      [| apply list_elem_of_singleton in Ha as ->].
    + assert (E : Some threePlyChild = Some na) by exact Hna.
      injection E as <-. reflexivity.
    + assert (E : Some threePlyRoot = Some na) by exact Hna.
      injection E as <-. reflexivity.
  - simpl. lia.
  - exists h'. split; [exact Hrun |]. split; apply Hall.
Defined.

(** X16, witness: creating the first child of the expanded root. *)
Lemma generateChild_keeps_books_witness :
  exists h' child,
    generateChild expandedRoot 0%nat 0 = Some (h', child) /\
    linked h' /\
    ownVisits h' 0%nat = ownVisits expandedRoot 0%nat /\
    (policyExcess h' 0%nat == policyExcess expandedRoot 0%nat)%Q.
Proof.
  destruct (generateChild_keeps_books expandedRoot 0%nat expandedRootNode 0
              firstPotential (afterMove 12))
    as (h' & child & Hrun & Hl & Hv & Hp).
  - exact expandedRoot_linked.
  - reflexivity.
  - reflexivity.
  - reflexivity.
  - exists h', child. split; [exact Hrun |]. split; [exact Hl |].
    split; [apply Hv | apply Hp].
Defined.

(** X17, witness: of two children that score 3/4 and 1 and a potential
    that scores 1, the second child is the best and the potential, which
    comes after it, the second best. *)
Lemma selectTwo_two_best_witness :
  twoBest threeScored (selectTwo threeScored) /\
  firstNode (selectTwo threeScored) = (MCTSChild 2%nat, O) /\
  secondNode (selectTwo threeScored) = (MCTSPotential 0%nat firstPotential, O).
Proof.
  split; [| split; reflexivity].
  apply (selectTwo_two_best threeScored).
  - intros it Hit. unfold threeScored in Hit.
    repeat (apply elem_of_cons in Hit as [-> | Hit]); try reflexivity.
    inversion Hit.
  - discriminate.
Defined.

(** X18, witness: a playout from the expanded root creates its first
    child and returns it. *)
Lemma playout_safety_witness :
  exists h' r cn',
    playout 3 expandedRoot 0%nat false = Some (h', r, cn') /\
    descended expandedRoot h' /\
    (forall x, expandedRoot !! x = None -> is_Some (h' !! x) ->
       cn' = true /\ exists d, r = Some (x, d)).
Proof.
  destruct (playout 3 expandedRoot 0%nat false) as [[[h' r] cn'] |] eqn:Hrun;
    [| vm_compute in Hrun; discriminate Hrun].
  destruct (playout_safety expandedRoot h' 0%nat 3 false r cn')
    as (Hd & Hnew & _).
  - change vldMax with 800%Z. lia.
  - exact Hrun.
  - exists h', r, cn'. split; [reflexivity |]. split; [exact Hd | exact Hnew].
Defined.

(** X19, witness: a root above a node that is being scored.  That node
    has nothing to select, and nothing is asked of it: with its virtual
    loss it counts as being played out. *)
Lemma playout_returns_witness :
  exists h' r cn',
    playout 9 beingScored 0%nat false = Some (h', r, cn') /\
    match r with
    | Some (m, d) =>
        exists k, d = (Z.of_nat k + 1)%Z /\ descends h' 0%nat m k
    | None => True
    end.
Proof.
  apply (playout_returns (fun x => (1 - x)%nat) beingScored 0%nat 9 false).
  - change vldMax with 800%Z. lia.
  - split.
    + intros x nx c Hx Hc. unfold beingScored in Hx. each_node Hx.
      * inversion Hc.
      * apply list_elem_of_singleton in Hc as ->.
        split; [simpl; lia |]. eexists. split; reflexivity.
    + intros x nx pot _ _. eexists. reflexivity.
  - eexists. reflexivity.
  - intros x nd v Hx Hflag Hexact Hv Hplaying Hext.
    unfold beingScored in Hx. each_node Hx.
    + exfalso. change ((0 <? v)%N = false) in Hplaying.
      change (1 <= v)%N in Hv. apply N.ltb_ge in Hplaying. lia.
    + left. discriminate.
  - vm_compute. lia.
Defined.

(** X21, witness: the four positions before the last node of the repeated
    line, the oldest first. *)
Lemma previousMoves_spec_witness :
  previousMoves 4 repeatedLine 4%nat false
  = Some [gameAt 0 1; gameAt 7 2; gameAt 0 3; gameAt 7 4].
Proof.
  rewrite (previousMoves_spec repeatedLine 4%nat
             (newNode (Some 3%nat) (gameAt 0 5)) [3; 2; 1; 0]%nat 4 false).
  - reflexivity.
  - reflexivity.
  - simpl. chain.
  - simpl. lia.
Defined.

(** X20, witness: one centipawn, as the example engine's float has it. *)
Lemma scoreToCP_cpToScore_witness :
  Centipawn.scoreToCP (Q2R (cpToScore 1)) = 1%Z.
Proof.
  apply (scoreToCP_cpToScore 1 (cpToScore 1)).
  - lia.
  - exact exampleEngine_cpToScore_rounds.
Defined.

(** X22, witness: from the root of the three-ply tree the line is the
    child and the leaf. *)
Lemma principalVariation_line_witness :
  principalVariation 4 threePly 0%nat 0 = Some ("e2e4 e2e4"%string, 3%Z).
Proof.
  rewrite (principalVariation_line threePly 0%nat threePlyRoot [1; 2]%nat false 4 0).
  - reflexivity.
  - reflexivity.
  - reflexivity.
  - eapply bestLine_step;
      [reflexivity | reflexivity | reflexivity | reflexivity | reflexivity
      | reflexivity |].
    eapply bestLine_step;
      [reflexivity | reflexivity | reflexivity | reflexivity | reflexivity
      | reflexivity |].
    eapply bestLine_leaf; reflexivity.
  - simpl. lia.
Defined.

End MoreChecks.
